(** * Curvature of surfaces: the notebooks' formulas, embedded and verified

    The repository consists of two notebooks (Extrinsic and Intrinsic
    curvature computations).  Every Python function in them builds a
    coefficient function, that is a field evaluated pointwise on a mesh, or
    assembles and solves a small linear system.  A coefficient function is
    embedded here as a Rocq function from evaluation points to real values,
    vectors or matrices; floating-point numbers are read as real numbers.
    The operators of the finite element library that the notebooks call
    (normal, tangential, Grad, Riemann, ...) are parameters of the
    sections below. *)

From Stdlib Require Import Reals Lra Lia List ZArith Psatz Bool String.
From Stdlib Require Import Permutation FunctionalExtensionality RNsatz.
Import ListNotations.
Open Scope R_scope.

(** ** Small dense tensors, as the coefficient functions use them *)

Module Tensor.

Record vec3 : Type := V3 { vx : R; vy : R; vz : R }.

Record mat3 : Type := M3 {
  m00 : R; m01 : R; m02 : R;
  m10 : R; m11 : R; m12 : R;
  m20 : R; m21 : R; m22 : R }.

Definition vadd (a b : vec3) : vec3 :=
  V3 (vx a + vx b) (vy a + vy b) (vz a + vz b).

Definition vopp (a : vec3) : vec3 := V3 (- vx a) (- vy a) (- vz a).

Definition vscale (c : R) (a : vec3) : vec3 :=
  V3 (c * vx a) (c * vy a) (c * vz a).

(** [a * b] on two vector coefficient functions is their inner product. *)
Definition dot (a b : vec3) : R := vx a * vx b + vy a * vy b + vz a * vz b.

Definition Cross (a b : vec3) : vec3 :=
  V3 (vy a * vz b - vz a * vy b)
     (vz a * vx b - vx a * vz b)
     (vx a * vy b - vy a * vx b).

Definition norm (a : vec3) : R := sqrt (dot a a).

Definition Normalize (a : vec3) : vec3 := vscale (/ norm a) a.

Definition OuterProduct (a b : vec3) : mat3 :=
  M3 (vx a * vx b) (vx a * vy b) (vx a * vz b)
     (vy a * vx b) (vy a * vy b) (vy a * vz b)
     (vz a * vx b) (vz a * vy b) (vz a * vz b).

Definition madd (A B : mat3) : mat3 :=
  M3 (m00 A + m00 B) (m01 A + m01 B) (m02 A + m02 B)
     (m10 A + m10 B) (m11 A + m11 B) (m12 A + m12 B)
     (m20 A + m20 B) (m21 A + m21 B) (m22 A + m22 B).

Definition mzero : mat3 := M3 0 0 0 0 0 0 0 0 0.

Definition Trace (A : mat3) : R := m00 A + m11 A + m22 A.

Definition Det (A : mat3) : R :=
  m00 A * (m11 A * m22 A - m12 A * m21 A)
  - m01 A * (m10 A * m22 A - m12 A * m20 A)
  + m02 A * (m10 A * m21 A - m11 A * m20 A).

(** Frobenius product [InnerProduct(A, B)] of two matrices. *)
Definition InnerProduct (A B : mat3) : R :=
  m00 A * m00 B + m01 A * m01 B + m02 A * m02 B +
  m10 A * m10 B + m11 A * m11 B + m12 A * m12 B +
  m20 A * m20 B + m21 A * m21 B + m22 A * m22 B.

Definition mulv (A : mat3) (a : vec3) : vec3 :=
  V3 (m00 A * vx a + m01 A * vy a + m02 A * vz a)
     (m10 A * vx a + m11 A * vy a + m12 A * vz a)
     (m20 A * vx a + m21 A * vy a + m22 A * vz a).

(** [tau[a, b]]: the bilinear form of a matrix on two vectors. *)
Definition bilin (A : mat3) (a b : vec3) : R := dot a (mulv A b).

End Tensor.

Import Tensor.

(** ** Extrinsic notebook: curvature of smooth embedded surfaces *)

Module Extrinsic.

Section Surface.

(** Evaluation points of the surface mesh. *)
Variable Pt : Type.

(** The mesh argument of the notebook's functions.  The coefficient
    functions below are symbolic and do not inspect it. *)
Variable Mesh : Type.

(** [ng.specialcf.normal(3)]: the unit normal of the surface. *)
Variable normal3 : Pt -> vec3.

(** [Grad]: the surface gradient of a vector field, a 3 x 3 matrix field. *)
Variable Grad : (Pt -> vec3) -> Pt -> mat3.

(** def GaussCurvature():
        nu = ng.specialcf.normal(3)
        W = Grad(nu)
        return Det(W + OuterProduct(nu, nu)) *)
Definition GaussCurvature : Pt -> R :=
  let nu := normal3 in
  let W := Grad nu in
  fun p => Det (madd (W p) (OuterProduct (nu p) (nu p))).

(** def ExtrinsicCurvatureSmooth(mesh):
        nu = ng.specialcf.normal(3)
        W = Grad(nu)
        H = 0.5 * Trace(W)
        K = Det(W + OuterProduct(nu, nu))
        k1 = H + sqrt(H**2 - K)
        k2 = H - sqrt(H**2 - K)
        return H, K, k1, k2 *)
Definition ExtrinsicCurvatureSmooth (mesh : Mesh)
  : (Pt -> R) * (Pt -> R) * (Pt -> R) * (Pt -> R) :=
  let nu := normal3 in
  let W := Grad nu in
  let H := fun p => 0.5 * Trace (W p) in
  let K := fun p => Det (madd (W p) (OuterProduct (nu p) (nu p))) in
  let k1 := fun p => H p + sqrt (H p ^ 2 - K p) in
  let k2 := fun p => H p - sqrt (H p ^ 2 - K p) in
  (H, K, k1, k2).

(** Projections of the returned 4-tuple, in the order of the [return]. *)
Definition ret_H (r : (Pt -> R) * (Pt -> R) * (Pt -> R) * (Pt -> R)) :=
  fst (fst (fst r)).
Definition ret_K (r : (Pt -> R) * (Pt -> R) * (Pt -> R) * (Pt -> R)) :=
  snd (fst (fst r)).
Definition ret_k1 (r : (Pt -> R) * (Pt -> R) * (Pt -> R) * (Pt -> R)) :=
  snd (fst r).
Definition ret_k2 (r : (Pt -> R) * (Pt -> R) * (Pt -> R) * (Pt -> R)) :=
  snd r.

End Surface.

Arguments GaussCurvature {Pt} normal3 Grad _.
Arguments ExtrinsicCurvatureSmooth {Pt Mesh} normal3 Grad mesh.
Arguments ret_H {Pt} r _.
Arguments ret_K {Pt} r _.
Arguments ret_k1 {Pt} r _.
Arguments ret_k2 {Pt} r _.

(** The Weingarten tensor of the spec: the surface gradient of the normal. *)
Definition Weingarten {Pt} (Grad : (Pt -> vec3) -> Pt -> mat3)
  (nu : Pt -> vec3) : Pt -> mat3 := Grad nu.

(** The surface gradient in the words of the notebook: with the
    projection P = I - nu nu^t onto the tangent plane, the surface gradient
    of a vector field u = (u_1, u_2, u_3) is (P grad u_1, P grad u_2,
    P grad u_3), where grad is the gradient of a smooth extension to the
    ambient space. *)
Definition shift (p : vec3) (j : nat) (s : R) : vec3 :=
  match j with
  | 0 => V3 (vx p + s) (vy p) (vz p)
  | 1 => V3 (vx p) (vy p + s) (vz p)
  | _ => V3 (vx p) (vy p) (vz p + s)
  end%nat.

Definition gradient_at (f : vec3 -> R) (p g : vec3) : Prop :=
  derivable_pt_lim (fun s => f (shift p 0 s)) 0 (vx g) /\
  derivable_pt_lim (fun s => f (shift p 1 s)) 0 (vy g) /\
  derivable_pt_lim (fun s => f (shift p 2 s)) 0 (vz g).

Definition projection (nu : vec3) : mat3 :=
  M3 (1 - vx nu * vx nu) (- (vx nu * vy nu)) (- (vx nu * vz nu))
     (- (vy nu * vx nu)) (1 - vy nu * vy nu) (- (vy nu * vz nu))
     (- (vz nu * vx nu)) (- (vz nu * vy nu)) (1 - vz nu * vz nu).

Definition rows (r1 r2 r3 : vec3) : mat3 :=
  M3 (vx r1) (vy r1) (vz r1)
     (vx r2) (vy r2) (vz r2)
     (vx r3) (vy r3) (vz r3).

Definition surface_gradient_at (u : vec3 -> vec3) (nu p : vec3) (W : mat3)
  : Prop :=
  exists g1 g2 g3,
    gradient_at (fun q => vx (u q)) p g1 /\
    gradient_at (fun q => vy (u q)) p g2 /\
    gradient_at (fun q => vz (u q)) p g3 /\
    W = rows (mulv (projection nu) g1) (mulv (projection nu) g2)
             (mulv (projection nu) g3).

(** The unit normal of every cylinder around the X axis, as a field on
    the ambient space. *)
Definition cylinder_normal_field (q : vec3) : vec3 :=
  V3 0 (vy q / sqrt (vy q * vy q + vz q * vz q))
       (vz q / sqrt (vy q * vy q + vz q * vz q)).

(** The cylinder of radius [r] along the X axis used in the notebook
    ([Cylinder((0,0,0), X, r=2, h=3)]): its outward unit normal at the
    point [p], and the surface gradient of that normal,
    (I - e_x e_x^t - nu nu^t) / r. *)
Definition cylinder_normal (r : R) (p : vec3) : vec3 :=
  V3 0 (vy p / r) (vz p / r).

Definition cylinder_Weingarten (r : R) (p : vec3) : mat3 :=
  let nu := cylinder_normal r p in
  M3 0 0 0
     0 ((1 - vy nu * vy nu) / r) (- (vy nu * vz nu) / r)
     0 (- (vz nu * vy nu) / r) ((1 - vz nu * vz nu) / r).

Definition on_cylinder (r : R) (p : vec3) : Prop :=
  vy p * vy p + vz p * vz p = r * r.

(** The lateral face of the notebook's cylinder ([r=2]) as an instance of
    the library operators, and a point on it. *)
Definition cyl2_normal : vec3 -> vec3 := cylinder_normal 2.
Definition cyl2_Grad : (vec3 -> vec3) -> vec3 -> mat3 :=
  fun _ => cylinder_Weingarten 2.
Definition cyl2_point : vec3 := V3 0 2 0.

(** A flat end of the cylinder box: constant normal, vanishing gradient. *)
Definition cap_normal : vec3 -> vec3 := fun _ => V3 1 0 0.
Definition cap_Grad : (vec3 -> vec3) -> vec3 -> mat3 := fun _ _ => mzero.
Definition cap_point : vec3 := V3 3 0 0.

End Extrinsic.

(** ** Dof vectors, matrices and quadrature sums *)

Module Dense.

(** Sum of [g 0 + ... + g (n-1)]. *)
Fixpoint sum_range (n : nat) (g : nat -> R) : R :=
  match n with
  | O => 0
  | S k => sum_range k g + g k
  end.

(** Sum of [g] over the entries of a list. *)
Fixpoint sum_list {A : Type} (l : list A) (g : A -> R) : R :=
  match l with
  | [] => 0
  | a :: l' => g a + sum_list l' g
  end.

(** A quadrature rule: weighted evaluation points.  [integrate rule g] is
    what assembling or [Integrate] computes for the integrand [g]. *)
Definition Rule (Pt : Type) : Type := list (R * Pt).

Definition integrate {Pt : Type} (rule : Rule Pt) (g : Pt -> R) : R :=
  sum_list rule (fun wq => fst wq * g (snd wq)).

(** Coefficient vectors and matrices, indexed by dof number; their size is
    the [ndof] of the space they belong to. *)
Definition BaseVector : Type := nat -> R.
Definition BaseMatrix : Type := nat -> nat -> R.

(** [A * x] for a matrix and a vector of size [n]. *)
Definition mat_vec (n : nat) (A : BaseMatrix) (x : BaseVector) : BaseVector :=
  fun i => sum_range n (fun j => A i j * x j).

Definition kron (i k : nat) : R := if Nat.eqb i k then 1 else 0.

(** [v[i] += c] on a vector of size [n]; an index out of range raises. *)
Definition add_at (n : nat) (v : BaseVector) (i : nat) (c : R)
  : option BaseVector :=
  if Nat.ltb i n
  then Some (fun k => if Nat.eqb k i then v k + c else v k)
  else None.

(** [for i in range(count): v[i] += c]. *)
Definition add_range (n : nat) (count : nat) (c : R) (v : BaseVector)
  : option BaseVector :=
  fold_left
    (fun acc i => match acc with
                  | Some w => add_at n w i c
                  | None => None
                  end)
    (seq 0 count) (Some v).

(** A finite element space as the notebooks use it: the number of dofs,
    the value of each basis function at an evaluation point, and for each
    dof the names of the boundary regions it lies on (none for an interior
    dof). *)
Record FESpace (Pt Val : Type) : Type := {
  ndof : nat;
  shape : nat -> Pt -> Val;
  dof_boundaries : nat -> list string }.

Arguments ndof {Pt Val} _.
Arguments shape {Pt Val} _ _ _.
Arguments dof_boundaries {Pt Val} _ _.

(** The [dirichlet] argument of a space constructor selects boundary
    regions; [".*"] selects every region, no argument selects none. *)
Definition dirichlet_all : string -> bool := fun _ => true.
Definition dirichlet_none : string -> bool := fun _ => false.

(** [V.FreeDofs()]: the dofs that lie on no Dirichlet region. *)
Definition FreeDofs {Pt Val : Type} (V : FESpace Pt Val)
  (dirichlet : string -> bool) : nat -> bool :=
  fun i => negb (existsb dirichlet (dof_boundaries V i)).

(** The value at a point of the finite element function with coefficient
    vector [vec]. *)
Definition gf_eval {Pt : Type} (V : FESpace Pt R) (vec : BaseVector)
  : Pt -> R :=
  fun q => sum_range (ndof V) (fun j => vec j * shape V j q).

(** What [A.Inverse(freedofs)] of the library returns: the inverse of the
    block of [A] on the free dofs, and zero in every row and column of a
    constrained dof. *)
Definition Inverse_spec (n : nat) (A : BaseMatrix) (free : nat -> bool)
  (Ainv : BaseMatrix) : Prop :=
  (forall i j, free i = false \/ free j = false -> Ainv i j = 0) /\
  (forall i k, (i < n)%nat -> (k < n)%nat ->
     free i = true -> free k = true ->
     sum_range n (fun j => A i j * Ainv j k) = kron i k).

(** The inverse of a matrix that is diagonal on the free dofs, as a
    direct solver returns it. *)
Definition diagonal_inverse (n : nat) (A : BaseMatrix) (free : nat -> bool)
  : BaseMatrix :=
  fun i j => if free i && Nat.eqb i j then / A i i else 0.

(** A space without dofs, for the spaces that an example does not use. *)
Definition no_dofs {Pt Val : Type} (zero : Val) : FESpace Pt Val :=
  {| ndof := 0; shape := fun _ _ => zero; dof_boundaries := fun _ => [] |}.

End Dense.

Import Dense.

(** ** Generalized curvature of nonsmooth embedded surfaces *)

Module SurfaceLift.

(** The operations of the finite element library on surface meshes that
    the notebooks call.  Evaluation points stand for the integration
    points of the library: a point on an element, on an element boundary
    (seen from one element) or at a vertex of an element. *)
Class SurfaceFE : Type := {
  Mesh : Type;
  Pt : Type;
  (** [mesh.nv], [mesh.nedge], [mesh.nface] *)
  nv : Mesh -> nat;
  nedge : Mesh -> nat;
  nface : Mesh -> nat;
  (** [ng.specialcf.normal(3)], [ng.specialcf.tangential(3)] *)
  normal3 : Pt -> vec3;
  tangential3 : Pt -> vec3;
  (** [Grad]: surface gradient of a vector field *)
  Grad : (Pt -> vec3) -> Pt -> mat3;
  (** [ng.specialcf.EdgeCurvature(3)] *)
  EdgeCurvature3 : Pt -> vec3;
  (** the two columns of [ng.specialcf.VertexTangentialVectors(3)] *)
  VertexTangentialVectors3 : Pt -> vec3 * vec3;
  (** [ds] with a given integration order: points on the elements *)
  ds : Mesh -> nat -> Rule Pt;
  (** [ds(element_boundary=True)]: points on the element boundaries *)
  ds_element_boundary : Mesh -> nat -> Rule Pt;
  (** [ds(element_vb=ng.BBND)]: the vertices of each element *)
  ds_BBND : Mesh -> list Pt;
  (** [H1(mesh, order=k)] *)
  H1 : Mesh -> nat -> FESpace Pt R;
  (** [HDivDivSurface(mesh, order=k)], matrix valued *)
  HDivDivSurface : Mesh -> nat -> FESpace Pt mat3;
  (** the facet function obtained by [Set(nu, dual=True)] in
      [VectorFacetSurface(mesh, order=k)] *)
  VectorFacetSurface_Set : Mesh -> nat -> (Pt -> vec3) -> Pt -> vec3;
  (** [A.Inverse(freedofs)] on matrices of size [n] *)
  Inverse : nat -> BaseMatrix -> (nat -> bool) -> BaseMatrix }.

Section Notebook.
Context {L : SurfaceFE}.

(** def EulerChar(mesh):
        return mesh.nface - mesh.nedge + mesh.nv *)
Definition EulerChar (mesh : Mesh) : Z :=
  (Z.of_nat (nface mesh) - Z.of_nat (nedge mesh) + Z.of_nat (nv mesh))%Z.

(** [GaussCurvature()] of the Intrinsic notebook, the same function as in
    the Extrinsic one. *)
Definition GaussCurvature : Pt -> R := Extrinsic.GaussCurvature normal3 Grad.

(** [Integrate(cf * ds, mesh)] and [Integrate(cf, mesh.Boundaries(".*"),
    order=k)]. *)
Definition Integrate (cf : Pt -> R) (mesh : Mesh) (order : nat) : R :=
  integrate (ds mesh order) cf.

(** The three sources of [GeneralizedGaussCurvatureExtrinsic], tested
    with [v]:
        f += GaussCurvature()*v*ds(bonus_intorder=12)
        f += -mu * edgecurve*v*ds(element_boundary=True, bonus_intorder=12)
        f += -v*acos(vt1*vt2)*ds(element_vb=ng.BBND) *)
Definition mu : Pt -> vec3 := fun q => Cross (normal3 q) (tangential3 q).

Definition vt1 : Pt -> vec3 := fun q => fst (VertexTangentialVectors3 q).
Definition vt2 : Pt -> vec3 := fun q => snd (VertexTangentialVectors3 q).

Definition element_source (surface_mesh : Mesh) (lift_order : nat)
  (v : Pt -> R) : R :=
  integrate (ds surface_mesh (lift_order + 12))
    (fun q => GaussCurvature q * v q).

Definition edge_source (surface_mesh : Mesh) (lift_order : nat)
  (v : Pt -> R) : R :=
  integrate (ds_element_boundary surface_mesh (lift_order + 12))
    (fun q => dot (vopp (mu q)) (EdgeCurvature3 q) * v q).

Definition vertex_source (surface_mesh : Mesh) (v : Pt -> R) : R :=
  sum_list (ds_BBND surface_mesh)
    (fun q => - v q * acos (dot (vt1 q) (vt2 q))).

(** [f.Assemble()]: entry [i] of the vector is the form tested with the
    basis function [i]. *)
Definition assembled_sources (surface_mesh : Mesh) (lift_order : nat)
  : BaseVector :=
  let V := H1 surface_mesh lift_order in
  fun i =>
    element_source surface_mesh lift_order (shape V i)
    + edge_source surface_mesh lift_order (shape V i)
    + vertex_source surface_mesh (shape V i).

(** [mass = BilinearForm(u*v*ds(bonus_intorder=6)).Assemble().mat] *)
Definition mass_matrix (surface_mesh : Mesh) (lift_order : nat)
  : BaseMatrix :=
  let V := H1 surface_mesh lift_order in
  fun i j =>
    integrate (ds surface_mesh (lift_order + lift_order + 6))
      (fun q => shape V j q * shape V i q).

(** def GeneralizedGaussCurvatureExtrinsic(surface_mesh, lift_order):
        ...
        with ng.TaskManager():
            f.Assemble()
            for i in range(f.space.mesh.nv):
                f.vec[i] += 2*pi
            Kh = GridFunction(V)
            mass = BilinearForm(u*v*ds(bonus_intorder=6)).Assemble().mat
            Kh.vec.data = mass.Inverse()*f.vec
        return Kh
    The result is the coefficient vector of [Kh] in [V]; [None] stands for
    the exception of an index out of range. *)
Definition GeneralizedGaussCurvatureExtrinsic (surface_mesh : Mesh)
  (lift_order : nat) : option BaseVector :=
  let V := H1 surface_mesh lift_order in
  let f := assembled_sources surface_mesh lift_order in
  match add_range (ndof V) (nv surface_mesh) (2 * PI) f with
  | None => None
  | Some fvec =>
      let mass := mass_matrix surface_mesh lift_order in
      Some (mat_vec (ndof V)
              (Inverse (ndof V) mass (FreeDofs V dirichlet_none)) fvec)
  end.

(** The lifted curvature as a coefficient function on the mesh. *)
Definition GridFunction_H1 (surface_mesh : Mesh) (lift_order : nat)
  (vec : BaseVector) : Pt -> R :=
  gf_eval (H1 surface_mesh lift_order) vec.

(** The sources of [GeneralizedWeingarten], tested with [tau]:
        nu_avg = GridFunction(ng.VectorFacetSurface(mesh, order=lifting_order))
        nu_avg.Set(nu, dual=True, definedon=mesh.Boundaries(".*"))
        f += InnerProduct(Grad(nu), tau) * ds
        f += (pi / 2 - acos(Normalize(nu_avg) * mu)) * tau[mu, mu]
             * ds(element_boundary=True) *)
Definition nu_avg (mesh : Mesh) (lifting_order : nat) : Pt -> vec3 :=
  VectorFacetSurface_Set mesh lifting_order normal3.

Definition Weingarten_element_integrand (tau : Pt -> mat3) : Pt -> R :=
  fun q => InnerProduct (Grad normal3 q) (tau q).

Definition Weingarten_boundary_integrand (mesh : Mesh)
  (lifting_order : nat) (tau : Pt -> mat3) : Pt -> R :=
  fun q =>
    (PI / 2 - acos (dot (Normalize (nu_avg mesh lifting_order q)) (mu q)))
    * bilin (tau q) (mu q) (mu q).

Definition Weingarten_sources (mesh : Mesh) (lifting_order : nat)
  (tau : Pt -> mat3) : R :=
  integrate (ds mesh lifting_order) (Weingarten_element_integrand tau)
  + integrate (ds_element_boundary mesh lifting_order)
      (Weingarten_boundary_integrand mesh lifting_order tau).

(** def GeneralizedWeingarten(mesh, lifting_order=curving_order-1):
        ...
        a = BilinearForm(InnerProduct(sigma, tau) * ds, symmetric=True)
        liftW.vec.data = a.mat.Inverse(liftWspace.FreeDofs(),
                                       inverse="sparsecholesky") * f.vec
        return liftW *)
Definition GeneralizedWeingarten (mesh : Mesh) (lifting_order : nat)
  : BaseVector :=
  let liftWspace := HDivDivSurface mesh lifting_order in
  let f : BaseVector :=
    fun i => Weingarten_sources mesh lifting_order (shape liftWspace i) in
  let a : BaseMatrix :=
    fun i j =>
      integrate (ds mesh (lifting_order + lifting_order))
        (fun q => InnerProduct (shape liftWspace j q)
                               (shape liftWspace i q)) in
  mat_vec (ndof liftWspace)
    (Inverse (ndof liftWspace) a (FreeDofs liftWspace dirichlet_none)) f.

(** The edge form of the spec for the same functional.  A point of an
    interior edge is seen from the two adjacent elements: [eplus] and
    [eminus] are the two evaluation points of the element-boundary rule
    at that place, [ewgt] their common weight. *)
Record EdgePoint : Type := {
  ewgt : R;
  eplus : Pt;
  eminus : Pt }.

(** The angle between the normals on either side of an edge. *)
Definition normal_angle (e : EdgePoint) : R :=
  acos (dot (normal3 (eplus e)) (normal3 (eminus e))).

(** W(sigma) = sum_T int_T grad nu_T : sigma
             + sum_E int_E angle * mu mu^t : sigma *)
Definition Weingarten_edge_form (mesh : Mesh) (lifting_order : nat)
  (edges : list EdgePoint) (sigma : Pt -> mat3) : R :=
  integrate (ds mesh lifting_order)
    (fun q => InnerProduct (Grad normal3 q) (sigma q))
  + sum_list edges
      (fun e => ewgt e
                * (normal_angle e
                   * InnerProduct (OuterProduct (mu (eplus e)) (mu (eplus e)))
                       (sigma (eplus e)))).

(** The element-boundary rule visits an interior edge point once from
    each side. *)
Definition both_sides (edges : list EdgePoint) : Rule Pt :=
  flat_map (fun e => [(ewgt e, eplus e); (ewgt e, eminus e)]) edges.

(** An interior edge point in general position: unit normals on both
    sides, a unit tangent orthogonal to both and reversed from one side to
    the other, normals not opposite, and the facet function equal to the
    average (nu_+ + nu_-)/2 of the two normals. *)
Definition interior_edge_point (mesh : Mesh) (lifting_order : nat)
  (e : EdgePoint) : Prop :=
  let np := normal3 (eplus e) in
  let nm := normal3 (eminus e) in
  let tp := tangential3 (eplus e) in
  dot np np = 1 /\ dot nm nm = 1 /\ dot tp tp = 1 /\
  dot np tp = 0 /\ dot nm tp = 0 /\
  tangential3 (eminus e) = vopp tp /\
  -1 < dot np nm /\
  nu_avg mesh lifting_order (eplus e) = vscale (/ 2) (vadd np nm) /\
  nu_avg mesh lifting_order (eminus e) = vscale (/ 2) (vadd np nm).

(** The normal-normal component of the test tensor is single valued on
    the edge. *)
Definition continuous_sigma_mu_mu (sigma : Pt -> mat3) (e : EdgePoint)
  : Prop :=
  bilin (sigma (eplus e)) (mu (eplus e)) (mu (eplus e))
  = bilin (sigma (eminus e)) (mu (eminus e)) (mu (eminus e)).

(** The co-normal does not point against the averaged normal. *)
Definition conormal_along_average (mesh : Mesh) (lifting_order : nat)
  (e : EdgePoint) : Prop :=
  0 <= dot (nu_avg mesh lifting_order (eplus e)) (mu (eplus e)).

(** The angle of the two normals, counted negative where the co-normal
    points against the averaged normal. *)
Definition signed_normal_angle (mesh : Mesh) (lifting_order : nat)
  (e : EdgePoint) : R :=
  if Rle_dec 0 (dot (nu_avg mesh lifting_order (eplus e)) (mu (eplus e)))
  then normal_angle e
  else - normal_angle e.

Definition Weingarten_signed_edge_form (mesh : Mesh) (lifting_order : nat)
  (edges : list EdgePoint) (sigma : Pt -> mat3) : R :=
  integrate (ds mesh lifting_order)
    (fun q => InnerProduct (Grad normal3 q) (sigma q))
  + sum_list edges
      (fun e => ewgt e
                * (signed_normal_angle mesh lifting_order e
                   * InnerProduct (OuterProduct (mu (eplus e)) (mu (eplus e)))
                       (sigma (eplus e)))).

(** A point of a boundary edge of the surface: the facet function is the
    normal of the only adjacent element. *)
Definition boundary_edge_point (mesh : Mesh) (lifting_order : nat)
  (q : Pt) : Prop :=
  nu_avg mesh lifting_order q = normal3 q.

(** The conditions under which the discrete sums are exact, stated on the
    data of the library. *)

(** The vertex basis functions (the first [nv] dofs) add up to one. *)
Definition vertex_shapes_sum_to_one (mesh : Mesh) (lift_order : nat)
  (q : Pt) : Prop :=
  sum_range (nv mesh) (fun i => shape (H1 mesh lift_order) i q) = 1.

(** ... at every point of the rules that the lifting uses. *)
Definition partition_of_unity (mesh : Mesh) (lift_order : nat) : Prop :=
  (forall wq, In wq (ds mesh (lift_order + 12)) ->
     vertex_shapes_sum_to_one mesh lift_order (snd wq)) /\
  (forall wq, In wq (ds_element_boundary mesh (lift_order + 12)) ->
     vertex_shapes_sum_to_one mesh lift_order (snd wq)) /\
  (forall q, In q (ds_BBND mesh) ->
     vertex_shapes_sum_to_one mesh lift_order q) /\
  (forall wq, In wq (ds mesh (lift_order + lift_order + 6)) ->
     vertex_shapes_sum_to_one mesh lift_order (snd wq)).

(** The rule of [Integrate] and the rule of the mass matrix integrate the
    basis functions alike. *)
Definition rules_agree (mesh : Mesh) (lift_order order : nat) : Prop :=
  forall j, (j < ndof (H1 mesh lift_order))%nat ->
    integrate (ds mesh order) (shape (H1 mesh lift_order) j)
    = integrate (ds mesh (lift_order + lift_order + 6))
        (shape (H1 mesh lift_order) j).

(** [mass.Inverse()] is the inverse of the mass matrix. *)
Definition exact_solve (mesh : Mesh) (lift_order : nat) : Prop :=
  let V := H1 mesh lift_order in
  let free := FreeDofs V dirichlet_none in
  Inverse_spec (ndof V) (mass_matrix mesh lift_order) free
    (Inverse (ndof V) (mass_matrix mesh lift_order) free).

(** The points of a rule that lie on the element [e], where [elem q] is
    the element an evaluation point belongs to. *)
Definition on_element (elem : Pt -> nat) (e : nat) : R * Pt -> bool :=
  fun wq => Nat.eqb (elem (snd wq)) e.

(** The three sources of [GeneralizedGaussCurvatureExtrinsic] tested with
    the constant one. *)
Definition total_sources (mesh : Mesh) (lift_order : nat) : R :=
  element_source mesh lift_order (fun _ => 1)
  + edge_source mesh lift_order (fun _ => 1)
  + vertex_source mesh (fun _ => 1).

(** Every edge belongs to exactly two elements, and an element has as
    many corners as edges. *)
Definition closed_surface (mesh : Mesh) : Prop :=
  List.length (ds_BBND mesh) = (2 * nedge mesh)%nat.

(** A closed cylindrical box of radius [r]: every point of the rule lies
    on the lateral face, at a position [pos q] on the cylinder, or on a
    flat end. *)
Definition cylinder_box (mesh : Mesh) (order : nat) (r : R)
  (pos : Pt -> vec3) : Prop :=
  0 < r /\
  forall wq, In wq (ds mesh order) ->
    (Extrinsic.on_cylinder r (pos (snd wq)) /\
     normal3 (snd wq) = Extrinsic.cylinder_normal r (pos (snd wq)) /\
     Grad normal3 (snd wq)
     = Extrinsic.cylinder_Weingarten r (pos (snd wq)))
    \/ Grad normal3 (snd wq) = mzero.

End Notebook.

(** Two unit squares meeting along the segment from (0,0,0) to (0,0,1):
    the floor [0,1] x {0} x [0,1] with normal (0,1,0) and a wall in the
    plane x = 0 with normal (h,0,0), standing up for [h = 1] and hanging
    down for [h = -1].  Evaluation points: 0 and 1 on the common edge,
    seen from the floor and from the wall; 2, 3, 4 on the other edges of
    the floor; 5, 6, 7 on the other edges of the wall; 8 in the floor and
    9 in the wall. *)
Definition fold_on_floor (q : nat) : bool :=
  match q with
  | 0 | 2 | 3 | 4 | 8 => true
  | _ => false
  end%nat.

Definition fold_normal (h : R) (q : nat) : vec3 :=
  if fold_on_floor q then V3 0 1 0 else V3 h 0 0.

Definition fold_tangential (h : R) (q : nat) : vec3 :=
  match q with
  | 0 => V3 0 0 (-1)
  | 1 => V3 0 0 1
  | 2 => V3 1 0 0
  | 3 => V3 0 0 1
  | 4 => V3 (-1) 0 0
  | 5 => V3 0 h 0
  | 6 => V3 0 0 (-1)
  | _ => V3 0 (- h) 0
  end%nat.

Definition fold_facet_average (nu : nat -> vec3) (q : nat) : vec3 :=
  match q with
  | 0 | 1 => vscale (/ 2) (vadd (nu 0%nat) (nu 1%nat))
  | _ => nu q
  end%nat.

(** The lowest order normal-normal continuous tensor attached to the
    common edge, at the points of that edge. *)
Definition fold_sigma (h : R) (q : nat) : mat3 :=
  match q with
  | 0 => OuterProduct (V3 (-1) 0 0) (V3 (-1) 0 0)
  | 1 => OuterProduct (V3 0 (- h) 0) (V3 0 (- h) 0)
  | _ => mzero
  end%nat.

Definition fold_HHJ (h : R) : FESpace nat mat3 :=
  {| ndof := 1;
     shape := fun _ => fold_sigma h;
     dof_boundaries := fun _ => [] |}.

Definition fold_FE (h : R) : SurfaceFE :=
  {| Mesh := unit;
     Pt := nat;
     nv := fun _ => 6%nat;
     nedge := fun _ => 7%nat;
     nface := fun _ => 2%nat;
     normal3 := fold_normal h;
     tangential3 := fold_tangential h;
     Grad := fun _ _ => mzero;
     EdgeCurvature3 := fun _ => V3 0 0 0;
     VertexTangentialVectors3 := fun _ => (V3 1 0 0, V3 0 0 1);
     ds := fun _ _ => [(1, 8%nat); (1, 9%nat)];
     ds_element_boundary := fun _ _ =>
       [(1, 0%nat); (1, 1%nat); (1, 2%nat); (1, 3%nat);
        (1, 4%nat); (1, 5%nat); (1, 6%nat); (1, 7%nat)];
     ds_BBND := fun _ => [];
     H1 := fun _ _ => no_dofs 0;
     HDivDivSurface := fun _ _ => fold_HHJ h;
     VectorFacetSurface_Set := fun _ _ => fold_facet_average;
     Inverse := fun _ A _ => A |}.

Definition fold_edge (h : R) : @EdgePoint (fold_FE h) :=
  @Build_EdgePoint (fold_FE h) 1 0%nat 1%nat.

Definition fold_outer_points (h : R) : Rule (@Pt (fold_FE h)) :=
  [(1, 2%nat); (1, 3%nat); (1, 4%nat); (1, 5%nat); (1, 6%nat); (1, 7%nat)].








Definition vsub (a b : vec3) : vec3 := vadd a (vopp b).




Definition pair_eq_dec (x y : nat * nat) : {x = y} + {x <> y}.
Proof. decide equality; apply Nat.eq_dec. Defined.





(** A closed cylindrical box of radius 2 and height 3 along the X axis,
    as in the notebook, with 8 triangles on the lateral face and 4 on each
    end: 10 vertices, 24 edges, 16 faces.  One evaluation point per
    element: points 0..3 at the centre of the end x = 0, points 4..7 at
    the centre of the end x = 3, points 8..15 on the two rims. *)
Definition cylbox_pos (q : nat) : vec3 :=
  match q with
  | 0 | 1 | 2 | 3 => V3 0 0 0
  | 4 | 5 | 6 | 7 => V3 3 0 0
  | 8 => V3 0 2 0
  | 9 => V3 0 0 2
  | 10 => V3 0 (-2) 0
  | 11 => V3 0 0 (-2)
  | 12 => V3 3 2 0
  | 13 => V3 3 0 2
  | 14 => V3 3 (-2) 0
  | _ => V3 3 0 (-2)
  end%nat.

Definition cylbox_normal (q : nat) : vec3 :=
  if Nat.ltb q 4 then V3 (-1) 0 0
  else if Nat.ltb q 8 then V3 1 0 0
  else Extrinsic.cylinder_normal 2 (cylbox_pos q).

Definition cylbox_Grad (nu : nat -> vec3) (q : nat) : mat3 :=
  if Nat.ltb q 8 then mzero
  else Extrinsic.cylinder_Weingarten 2 (cylbox_pos q).

Definition cylbox_rule : Rule nat :=
  map (fun q => (PI, q)) (seq 0 8)
  ++ map (fun q => (3 * PI / 2, q)) (seq 8 8).

Definition cylbox_FE : SurfaceFE :=
  {| Mesh := unit;
     Pt := nat;
     nv := fun _ => 10%nat;
     nedge := fun _ => 24%nat;
     nface := fun _ => 16%nat;
     normal3 := cylbox_normal;
     tangential3 := fun _ => V3 0 0 0;
     Grad := cylbox_Grad;
     EdgeCurvature3 := fun _ => V3 0 0 0;
     VertexTangentialVectors3 := fun _ => (V3 0 0 0, V3 0 0 0);
     ds := fun _ _ => cylbox_rule;
     ds_element_boundary := fun _ _ => [];
     ds_BBND := fun _ => [];
     H1 := fun _ _ => no_dofs 0;
     HDivDivSurface := fun _ _ => no_dofs mzero;
     VectorFacetSurface_Set := fun _ _ nu => nu;
     Inverse := diagonal_inverse |}.

End SurfaceLift.

(** ** Intrinsic notebook: curvature from the metric alone *)

Module Planar.

Record vec2 : Type := V2 { ux : R; uy : R }.

Record mat2 : Type := M2 { g00 : R; g01 : R; g10 : R; g11 : R }.

Definition dot2 (a b : vec2) : R := ux a * ux b + uy a * uy b.

Definition vopp2 (a : vec2) : vec2 := V2 (- ux a) (- uy a).

Definition vsub2 (a b : vec2) : vec2 := V2 (ux a - ux b) (uy a - uy b).

Definition Normalize2 (a : vec2) : vec2 :=
  V2 (ux a / sqrt (dot2 a a)) (uy a / sqrt (dot2 a a)).

Definition mulv2 (g : mat2) (a : vec2) : vec2 :=
  V2 (g00 g * ux a + g01 g * uy a) (g10 g * ux a + g11 g * uy a).

Definition Det2 (g : mat2) : R := g00 g * g11 g - g01 g * g10 g.

(** The 3 x 2 gradient of an embedding, by rows, and [F.trans * F]. *)
Record mat32 : Type := M32 {
  f00 : R; f01 : R;
  f10 : R; f11 : R;
  f20 : R; f21 : R }.

Definition trans_mul (F : mat32) : mat2 :=
  M2 (f00 F * f00 F + f10 F * f10 F + f20 F * f20 F)
     (f00 F * f01 F + f10 F * f11 F + f20 F * f21 F)
     (f01 F * f00 F + f11 F * f10 F + f21 F * f20 F)
     (f01 F * f01 F + f11 F * f11 F + f21 F * f21 F).

Definition Inv2 (g : mat2) : mat2 :=
  M2 (g11 g / Det2 g) (- g01 g / Det2 g)
     (- g10 g / Det2 g) (g00 g / Det2 g).

(** Rotation of a vector by a right angle. *)
Definition rot90 (a : vec2) : vec2 := V2 (- uy a) (ux a).

(** Component [i] of a vector, indices 0 and 1. *)
Definition comp2 (a : vec2) (i : nat) : R :=
  match i with O => ux a | _ => uy a end.

(** [T[a, b, c]]: a tensor of order three applied to three vectors. *)
Definition contract3 (T : nat -> nat -> nat -> R) (a b c : vec2) : R :=
  sum_range 2 (fun i => sum_range 2 (fun j => sum_range 2 (fun k =>
    T i j k * comp2 a i * comp2 b j * comp2 c k))).

End Planar.

Import Planar.

Module Intrinsic.

(** The operations of the finite element library on the flat parameter
    mesh and on the metric that the notebook calls. *)
Class PlanarFE : Type := {
  Mesh : Type;
  Pt : Type;
  nv : Mesh -> nat;
  nedge : Mesh -> nat;
  nface : Mesh -> nat;
  (** [ng.specialcf.tangential(2)], [ng.specialcf.normal(2)] *)
  tangential2 : Pt -> vec2;
  normal2 : Pt -> vec2;
  (** the two columns of [ng.specialcf.VertexTangentialVectors(2)] *)
  VertexTangentialVectors2 : Pt -> vec2 * vec2;
  (** [ng.specialcf.EdgeCurvature(2)] *)
  EdgeCurvature2 : Pt -> vec2;
  (** [gh.Operator("Riemann")] and [gh.Operator("christoffel2")] of a
      metric field *)
  Operator_Riemann : (Pt -> mat2) -> Pt -> nat -> nat -> nat -> nat -> R;
  Operator_christoffel2 : (Pt -> mat2) -> Pt -> nat -> nat -> nat -> R;
  (** [gh.Set(g, dual=True, ...)] into the Regge space of a given order *)
  HCurlCurl_Set : Mesh -> nat -> (Pt -> mat2) -> Pt -> mat2;
  (** [dx], [dx(element_boundary=True)], [dx(element_vb=ng.BBND)] *)
  dx : Mesh -> nat -> Rule Pt;
  dx_element_boundary : Mesh -> nat -> Rule Pt;
  dx_BBND : Mesh -> list Pt;
  (** [ng.H1(mesh, order=k, ...)] *)
  H1 : Mesh -> nat -> FESpace Pt R;
  (** [A.Inverse(freedofs)] on matrices of size [n] *)
  Inverse : nat -> BaseMatrix -> (nat -> bool) -> BaseMatrix }.

Section Notebook.
Context {L : PlanarFE}.

(** def EulerChar(mesh):
        return mesh.nface - mesh.nedge + mesh.nv *)
Definition EulerChar (mesh : Mesh) : Z :=
  (Z.of_nat (nface mesh) - Z.of_nat (nedge mesh) + Z.of_nat (nv mesh))%Z.

(** F = CF((1,0, 0,1, 0,0), dims=(3,2)) + Grad(u)
    g = F.trans*F *)
Definition metric_of_embedding (F : Pt -> mat32) : Pt -> mat2 :=
  fun p => trans_mul (F p).

(** R = gh.Operator("Riemann")
    Kh = R[0,1,1,0]/Det(gh) *)
Definition Kh (gh : Pt -> mat2) : Pt -> R :=
  let Rm := Operator_Riemann gh in
  fun p => Rm p 0%nat 1%nat 1%nat 0%nat / Det2 (gh p).

(** [Integrate(Kh * sqrt(Det(gh)), param_mesh)] *)
Definition Integrate (cf : Pt -> R) (mesh : Mesh) (order : nat) : R :=
  integrate (dx mesh order) cf.

(** The coefficient functions of [GeneralizedGaussCurvature]:
        t = ng.specialcf.tangential(2)
        n = -ng.specialcf.normal(2)
        bbnd_tang = ng.specialcf.VertexTangentialVectors(2)
        vt1 = bbnd_tang[:, 0]
        vt2 = bbnd_tang[:, 1] *)
Definition t : Pt -> vec2 := tangential2.
Definition n : Pt -> vec2 := fun q => vopp2 (normal2 q).
Definition vt1 : Pt -> vec2 := fun q => fst (VertexTangentialVectors2 q).
Definition vt2 : Pt -> vec2 := fun q => snd (VertexTangentialVectors2 q).

(** angldeficit = acos(vt1*vt2 / sqrt(vt1*vt1) / sqrt(vt2*vt2)) -
                  acos(gh*vt1*vt2 / sqrt(gh*vt1*vt1) / sqrt(gh*vt2*vt2)) *)
Definition angldeficit (gh : Pt -> mat2) : Pt -> R :=
  fun q =>
    acos (dot2 (vt1 q) (vt2 q)
          / sqrt (dot2 (vt1 q) (vt1 q)) / sqrt (dot2 (vt2 q) (vt2 q)))
    - acos (dot2 (mulv2 (gh q) (vt1 q)) (vt2 q)
            / sqrt (dot2 (mulv2 (gh q) (vt1 q)) (vt1 q))
            / sqrt (dot2 (mulv2 (gh q) (vt2 q)) (vt2 q))).

(** edgecurv = ng.specialcf.EdgeCurvature(2)  # nabla_t t
    geodesicurv = sqrt(Det(gh)) / (t * (gh * t)) *
                  (edgecurv * n + gh.Operator("christoffel2")[t, t, n]) *)
Definition geodesicurv (gh : Pt -> mat2) : Pt -> R :=
  let edgecurv := EdgeCurvature2 in
  fun q =>
    sqrt (Det2 (gh q)) / dot2 (t q) (mulv2 (gh q) (t q))
    * (dot2 (edgecurv q) (n q)
       + contract3 (Operator_christoffel2 gh q) (t q) (t q) (n q)).

(** elementcurv = 1 / sqrt(Det(gh)) * gh.Operator("Riemann")[0, 1, 1, 0] *)
Definition elementcurv (gh : Pt -> mat2) : Pt -> R :=
  fun q =>
    1 / sqrt (Det2 (gh q)) * Operator_Riemann gh q 0%nat 1%nat 1%nat 0%nat.

(** The linear form tested with [v]:
        f += v * angldeficit * dx(element_vb=ng.BBND)
        f += v * geodesicurv * dx(element_boundary=True)
        f += v * elementcurv * dx *)
Definition sources (parameter_domain_mesh : Mesh) (gh : Pt -> mat2)
  (lift_order : nat) (v : Pt -> R) : R :=
  sum_list (dx_BBND parameter_domain_mesh)
    (fun q => v q * angldeficit gh q)
  + integrate (dx_element_boundary parameter_domain_mesh lift_order)
      (fun q => v q * geodesicurv gh q)
  + integrate (dx parameter_domain_mesh lift_order)
      (fun q => v q * elementcurv gh q).

(** V = ng.H1(parameter_domain_mesh, order=lift_order, dirichlet=".*") *)
Definition lift_space (parameter_domain_mesh : Mesh) (lift_order : nat)
  : FESpace Pt R := H1 parameter_domain_mesh lift_order.

Definition lift_FreeDofs (parameter_domain_mesh : Mesh) (lift_order : nat)
  : nat -> bool :=
  FreeDofs (lift_space parameter_domain_mesh lift_order) dirichlet_all.

(** [f.Assemble()] *)
Definition assembled_sources (parameter_domain_mesh : Mesh)
  (gh : Pt -> mat2) (lift_order : nat) : BaseVector :=
  let V := lift_space parameter_domain_mesh lift_order in
  fun i => sources parameter_domain_mesh gh lift_order (shape V i).

(** M = BilinearForm(sqrt(Det(gh)) * u * v * dx); M.Assemble() *)
Definition mass_matrix (parameter_domain_mesh : Mesh) (gh : Pt -> mat2)
  (lift_order : nat) : BaseMatrix :=
  let V := lift_space parameter_domain_mesh lift_order in
  fun i j =>
    integrate (dx parameter_domain_mesh (lift_order + lift_order))
      (fun q => sqrt (Det2 (gh q)) * shape V j q * shape V i q).

(** def GeneralizedGaussCurvature(parameter_domain_mesh, gh, lift_order):
        ...
        liftK = GridFunction(V)     # lifted Gauss curvature
        with ng.TaskManager():
            M = BilinearForm(sqrt(Det(gh)) * u * v * dx)
            M.Assemble()
            f.Assemble()
            liftK.vec.data = M.mat.Inverse(V.FreeDofs()) * f.vec
        return liftK
    The result is the coefficient vector of [liftK] in [V]. *)
Definition GeneralizedGaussCurvature (parameter_domain_mesh : Mesh)
  (gh : Pt -> mat2) (lift_order : nat) : BaseVector :=
  let V := lift_space parameter_domain_mesh lift_order in
  let f := assembled_sources parameter_domain_mesh gh lift_order in
  let M := mass_matrix parameter_domain_mesh gh lift_order in
  mat_vec (ndof V)
    (Inverse (ndof V) M (lift_FreeDofs parameter_domain_mesh lift_order)) f.

(** The lifted function as a coefficient function, and the left side of
    the lifting equation tested with [w]: the integral of [K_h w] over the
    elements, in the metric [gh]. *)
Definition GridFunction_H1 (parameter_domain_mesh : Mesh) (lift_order : nat)
  (vec : BaseVector) : Pt -> R :=
  gf_eval (lift_space parameter_domain_mesh lift_order) vec.

Definition lifted_form (parameter_domain_mesh : Mesh) (gh : Pt -> mat2)
  (lift_order : nat) (vec : BaseVector) (w : Pt -> R) : R :=
  integrate (dx parameter_domain_mesh (lift_order + lift_order))
    (fun q => sqrt (Det2 (gh q))
              * GridFunction_H1 parameter_domain_mesh lift_order vec q * w q).

(** [M.mat.Inverse(V.FreeDofs())] is the inverse of the mass matrix on the
    free dofs. *)
Definition exact_solve (parameter_domain_mesh : Mesh) (gh : Pt -> mat2)
  (lift_order : nat) : Prop :=
  let V := lift_space parameter_domain_mesh lift_order in
  let free := lift_FreeDofs parameter_domain_mesh lift_order in
  let M := mass_matrix parameter_domain_mesh gh lift_order in
  Inverse_spec (ndof V) M free (Inverse (ndof V) M free).

(** The functional of the spec,
      K(u) = sum_V Theta_V u(V) + sum_T (int_T K_T u + int_dT kappa u),
    with its terms in the spec's words.  [vertex_of q] is the vertex at
    which the vertex point [q] sits, [uV] gives the values of [u] at the
    vertices. *)

(** The angle at a corner of an element, measured in the metric. *)
Definition metric_angle (gh : Pt -> mat2) : Pt -> R :=
  fun q =>
    acos (dot2 (mulv2 (gh q) (vt1 q)) (vt2 q)
          / sqrt (dot2 (mulv2 (gh q) (vt1 q)) (vt1 q))
          / sqrt (dot2 (mulv2 (gh q) (vt2 q)) (vt2 q))).

(** The same angle in the flat parameter domain. *)
Definition flat_angle : Pt -> R :=
  fun q =>
    acos (dot2 (vt1 q) (vt2 q)
          / sqrt (dot2 (vt1 q) (vt1 q)) / sqrt (dot2 (vt2 q) (vt2 q))).

Definition at_vertex (vertex_of : Pt -> nat) (v : nat) : Pt -> bool :=
  fun q => Nat.eqb (vertex_of q) v.

(** Theta_V = 2 pi - sum of the angles at V. *)
Definition angle_deficit_at (mesh : Mesh) (gh : Pt -> mat2)
  (vertex_of : Pt -> nat) (v : nat) : R :=
  2 * PI - sum_list (filter (at_vertex vertex_of v) (dx_BBND mesh))
             (metric_angle gh).

(** kappa = g(nabla_tau tau, mu) for the g-orthonormal frame (tau, mu)
    along the edge: tau = t / |t|_g, mu the g-unit vector g-orthogonal to
    t on the side of n; nabla_t t has the components
    edgecurv^k + Gamma_ij^k t_i t_j. *)
Definition geodesic_curvature (gh : Pt -> mat2) : Pt -> R :=
  fun q =>
    let g := gh q in
    let acc_n := dot2 (EdgeCurvature2 q) (n q)
                 + contract3 (Operator_christoffel2 gh q) (t q) (t q) (n q) in
    acc_n / sqrt (dot2 (n q) (mulv2 (Inv2 g) (n q)))
    / dot2 (t q) (mulv2 g (t q)).

Definition generalized_curvature_functional (mesh : Mesh) (gh : Pt -> mat2)
  (lift_order : nat) (vertex_of : Pt -> nat) (uV : nat -> R) (u : Pt -> R)
  : R :=
  sum_range (nv mesh) (fun v => angle_deficit_at mesh gh vertex_of v * uV v)
  + (integrate (dx mesh lift_order)
       (fun q => sqrt (Det2 (gh q)) * (Kh gh q * u q))
     + integrate (dx_element_boundary mesh lift_order)
         (fun q => sqrt (dot2 (t q) (mulv2 (gh q) (t q)))
                   * (geodesic_curvature gh q * u q))).

(** The metric is symmetric positive definite at the points of the rules,
    and on the element boundaries [t] is a unit tangent and [n] a unit
    normal to it. *)
Definition regular_metric (mesh : Mesh) (gh : Pt -> mat2)
  (lift_order : nat) : Prop :=
  (forall wq, In wq (dx mesh lift_order) -> 0 < Det2 (gh (snd wq))) /\
  (forall wq, In wq (dx_element_boundary mesh lift_order) ->
     let q := snd wq in
     g01 (gh q) = g10 (gh q) /\ 0 < Det2 (gh q) /\
     0 < dot2 (t q) (mulv2 (gh q) (t q)) /\
     (n q = rot90 (t q) \/ n q = vopp2 (rot90 (t q)))).

(** The vertex points sit at vertices; around an interior vertex the
    angles of the flat parameter domain add up to 2 pi; [u] has the
    values [uV] at the vertices and vanishes at the boundary vertices. *)
Definition vertex_data (mesh : Mesh) (vertex_of : Pt -> nat)
  (on_boundary : nat -> bool) (uV : nat -> R) (u : Pt -> R) : Prop :=
  (forall q, In q (dx_BBND mesh) ->
     (vertex_of q < nv mesh)%nat /\ u q = uV (vertex_of q)) /\
  (forall v, (v < nv mesh)%nat -> on_boundary v = false ->
     sum_list (filter (at_vertex vertex_of v) (dx_BBND mesh)) flat_angle
     = 2 * PI) /\
  (forall v, (v < nv mesh)%nat -> on_boundary v = true -> uV v = 0).

End Notebook.

(** The square [-1,1] x [-1,1] cut by its diagonals into four triangles
    around the centre, with the piecewise constant metric for which all
    four triangles are equilateral with sides of length 2: a cone with
    angle 4 pi/3 at the centre.

    Vertices: 0 the centre, 1 = (1,-1), 2 = (1,1), 3 = (-1,1),
    4 = (-1,-1).  Triangle [tr] has the local vertices 0 (the centre),
    1 and 2, which are the vertices 1 + tr and 1 + (tr+1 mod 4).  An
    evaluation point [(kind, tr, k)] is the corner [k] of the triangle
    [tr] for [kind = 0], the midpoint of its edge opposite to the corner
    [k] seen as a boundary point for [kind = 1], and the same midpoint as
    an interior integration point otherwise. *)
Definition StarPt : Type := nat * nat * nat.

Definition star_kind (p : StarPt) : nat := fst (fst p).
Definition star_tri (p : StarPt) : nat := snd (fst p).
Definition star_loc (p : StarPt) : nat := snd p.

Definition star_vertex (v : nat) : vec2 :=
  match v with
  | 0 => V2 0 0
  | 1 => V2 1 (-1)
  | 2 => V2 1 1
  | 3 => V2 (-1) 1
  | _ => V2 (-1) (-1)
  end%nat.

Definition star_dof (tr k : nat) : nat :=
  match k with
  | 0 => 0
  | 1 => 1 + tr
  | _ => match tr with 3 => 1 | _ => 2 + tr end
  end%nat.

Definition next3 (k : nat) : nat :=
  match k with 0 => 1 | 1 => 2 | _ => 0 end%nat.

Definition prev3 (k : nat) : nat :=
  match k with 0 => 2 | 1 => 0 | _ => 1 end%nat.

(** The edges of the triangle that meet at the corner, as vectors
    leaving the corner. *)
Definition star_corner_tangents (p : StarPt) : vec2 * vec2 :=
  let c := star_vertex (star_dof (star_tri p) (star_loc p)) in
  (vsub2 (star_vertex (star_dof (star_tri p) (next3 (star_loc p)))) c,
   vsub2 (star_vertex (star_dof (star_tri p) (prev3 (star_loc p)))) c).

(** Unit tangent of the edge opposite to the corner [k], in the direction
    of the counterclockwise boundary, and the outward unit normal. *)
Definition star_tangential (p : StarPt) : vec2 :=
  Normalize2
    (vsub2 (star_vertex (star_dof (star_tri p) (prev3 (star_loc p))))
           (star_vertex (star_dof (star_tri p) (next3 (star_loc p))))).

Definition star_normal (p : StarPt) : vec2 :=
  vopp2 (rot90 (star_tangential p)).

(** Barycentric coordinate [m] at the point. *)
Definition star_bary (p : StarPt) (m : nat) : R :=
  match star_kind p with
  | O => if Nat.eqb m (star_loc p) then 1 else 0
  | _ => if Nat.eqb m (star_loc p) then 0 else 1 / 2
  end.

Definition star_shape (i : nat) (p : StarPt) : R :=
  sum_range 3 (fun m => if Nat.eqb (star_dof (star_tri p) m) i
                        then star_bary p m else 0).

Definition star_H1 : FESpace StarPt R :=
  {| ndof := 5;
     shape := star_shape;
     dof_boundaries := fun i => match i with
                                | O => []
                                | _ => ["default"%string]
                                end |}.

Definition star_points (kind : nat) : list StarPt :=
  map (fun tk => (kind, fst tk, snd tk)) (list_prod (seq 0 4) (seq 0 3)).

Definition star_edge_length (p : StarPt) : R :=
  match star_loc p with O => 2 | _ => sqrt 2 end.

(** The metric: diag(3,1) on the right and left triangles, diag(1,3) on
    the upper and lower ones. *)
Definition star_metric (p : StarPt) : mat2 :=
  match star_tri p with
  | 0 | 2 => M2 3 0 0 1
  | _ => M2 1 0 0 3
  end%nat.

Definition star_FE : PlanarFE :=
  {| Mesh := unit;
     Pt := StarPt;
     nv := fun _ => 5%nat;
     nedge := fun _ => 8%nat;
     nface := fun _ => 4%nat;
     tangential2 := star_tangential;
     normal2 := star_normal;
     VertexTangentialVectors2 := star_corner_tangents;
     EdgeCurvature2 := fun _ => V2 0 0;
     Operator_Riemann := fun _ _ _ _ _ _ => 0;
     Operator_christoffel2 := fun _ _ _ _ _ => 0;
     HCurlCurl_Set := fun _ _ g => g;
     dx := fun _ _ => map (fun p => (1 / 3, p)) (star_points 2);
     dx_element_boundary := fun _ _ =>
       map (fun p => (star_edge_length p, p)) (star_points 1);
     dx_BBND := fun _ => star_points 0;
     H1 := fun _ _ => star_H1;
     Inverse := diagonal_inverse |}.

Definition star_vertex_of (p : StarPt) : nat :=
  star_dof (star_tri p) (star_loc p).

Definition star_on_boundary (v : nat) : bool := negb (Nat.eqb v 0).

(** The values at the vertices of the basis function of the centre and
    of the basis function of the vertex (1,1). *)
Definition star_centre_values (v : nat) : R :=
  if Nat.eqb v 0 then 1 else 0.

Definition star_corner_values (v : nat) : R :=
  if Nat.eqb v 2 then 1 else 0.

(** Two embeddings of the parameter domain as a flat piece of a plane. *)
Definition flat_embedding_xy : StarPt -> mat32 := fun _ => M32 1 0 0 1 0 0.
Definition flat_embedding_yz : StarPt -> mat32 := fun _ => M32 0 0 1 0 0 1.

End Intrinsic.

(** ** Eigenvalues of the Weingarten tensor *)

Module Spectrum.

Definition mscale (c : R) (A : mat3) : mat3 :=
  M3 (c * m00 A) (c * m01 A) (c * m02 A)
     (c * m10 A) (c * m11 A) (c * m12 A)
     (c * m20 A) (c * m21 A) (c * m22 A).

Definition Id3 : mat3 := M3 1 0 0 0 1 0 0 0 1.

Definition symmetric3 (A : mat3) : Prop :=
  m01 A = m10 A /\ m02 A = m20 A /\ m12 A = m21 A.

(** The characteristic polynomial det (A - lam I). *)
Definition charpoly (A : mat3) (lam : R) : R :=
  Det (madd A (mscale (- lam) Id3)).

End Spectrum.

(** ** Extrinsic notebook: the sphere and the pseudosphere *)

Module Sphere.
Import Extrinsic Spectrum.

(** The sphere of radius [r] around the origin
    ([Sphere(Pnt(0,0,0), r=2)] in the notebook): its outward unit normal
    at the point [p], the extension q / |q| of the normal to the ambient
    space, and the tensor (I - nu nu^t) / r. *)
Definition on_sphere (r : R) (p : vec3) : Prop :=
  vx p * vx p + vy p * vy p + vz p * vz p = r * r.

Definition sphere_normal (r : R) (p : vec3) : vec3 :=
  V3 (vx p / r) (vy p / r) (vz p / r).

Definition sphere_normal_field (q : vec3) : vec3 := Normalize q.

Definition sphere_Weingarten (r : R) (p : vec3) : mat3 :=
  mscale (/ r) (projection (sphere_normal r p)).

Definition sph2_normal : vec3 -> vec3 := sphere_normal 2.
Definition sph2_Grad : (vec3 -> vec3) -> vec3 -> mat3 :=
  fun _ => sphere_Weingarten 2.
Definition sph2_point : vec3 := V3 0 0 2.

End Sphere.

Module Orientation.
Import Extrinsic Spectrum.

(** A surface gradient on the lateral face of the notebook's cylinder
    that is linear along the normal: it returns c W for the field c nu. *)
Definition cyl2_Grad_linear : (vec3 -> vec3) -> vec3 -> mat3 :=
  fun nu q => mscale (dot (nu q) (cyl2_normal q)) (cylinder_Weingarten 2 q).

End Orientation.

Module Pseudosphere.
Import Extrinsic.

(** def gu(u):
        return log(tan(u/2)) + cos(u) *)
Definition gu (u : R) : R := ln (tan (u / 2)) + cos u.

(** def mapping(x, y, z):
        return (sin(pi/9/2+x*pi/9)*cos(y*2*pi),
                sin(pi/9/2+x*pi/9)*sin(y*2*pi),
                gu(pi/9/2+x*pi/9) ) *)
Definition mapping (x y z : R) : vec3 :=
  V3 (sin (PI / 9 / 2 + x * PI / 9) * cos (y * 2 * PI))
     (sin (PI / 9 / 2 + x * PI / 9) * sin (y * 2 * PI))
     (gu (PI / 9 / 2 + x * PI / 9)).

(** The unit normal of the pseudosphere that points away from the axis
    and downwards, as a field on the ambient space: at distance rho from
    the Z axis it is (sqrt(1 - rho^2) e_rho, - rho). *)
Definition pseudosphere_normal_field (q : vec3) : vec3 :=
  let t := vx q * vx q + vy q * vy q in
  V3 (sqrt (1 - t) * vx q / sqrt t) (sqrt (1 - t) * vy q / sqrt t)
     (- sqrt t).

(** The closed form of the surface gradient of that normal. *)
Definition pseudosphere_Weingarten (q : vec3) : mat3 :=
  let X := vx q in
  let Y := vy q in
  let t := X * X + Y * Y in
  let rho := sqrt t in
  let kap := sqrt (1 - t) in
  let nu := pseudosphere_normal_field q in
  rows (mulv (projection nu)
          (V3 (- X / kap * (X / rho) + kap * ((1 * t - X * X) / (t * rho)))
              (- Y / kap * (X / rho) + kap * ((0 * t - X * Y) / (t * rho)))
              0))
       (mulv (projection nu)
          (V3 (- X / kap * (Y / rho) + kap * ((0 * t - Y * X) / (t * rho)))
              (- Y / kap * (Y / rho) + kap * ((1 * t - Y * Y) / (t * rho)))
              0))
       (mulv (projection nu) (V3 (- X / rho) (- Y / rho) 0)).

(** The partial derivatives of a parametrization with respect to its
    first and to its second argument. *)
Definition tangent_x (w : R -> R -> R -> vec3) (x y z : R) (tx : vec3)
  : Prop :=
  derivable_pt_lim (fun s => vx (w (x + s) y z)) 0 (vx tx) /\
  derivable_pt_lim (fun s => vy (w (x + s) y z)) 0 (vy tx) /\
  derivable_pt_lim (fun s => vz (w (x + s) y z)) 0 (vz tx).

Definition tangent_y (w : R -> R -> R -> vec3) (x y z : R) (ty : vec3)
  : Prop :=
  derivable_pt_lim (fun s => vx (w x (y + s) z)) 0 (vx ty) /\
  derivable_pt_lim (fun s => vy (w x (y + s) z)) 0 (vy ty) /\
  derivable_pt_lim (fun s => vz (w x (y + s) z)) 0 (vz ty).

End Pseudosphere.

(** ** Surfaces with boundary, and the lifting of the Weingarten tensor *)

Module SurfaceBoundary.
Import SurfaceLift.

(** A surface with boundary: an element has as many corners as edges, an
    interior edge belongs to two elements and each of the [nb] boundary
    edges to one. *)
Definition surface_with_boundary {L : SurfaceFE} (mesh : Mesh) (nb : nat)
  : Prop :=
  (List.length (ds_BBND mesh) + nb = 2 * nedge mesh)%nat.

End SurfaceBoundary.

(** ** Piecewise smooth surfaces and the theorem of Gauss and Bonnet *)

Module PiecewiseSmooth.
Import SurfaceLift Spectrum.

(** The angle between two nonzero vectors. *)
Definition angle (a b : vec3) : R := acos (dot a b / norm a / norm b).

Definition orthonormal (a b c : vec3) : Prop :=
  dot a a = 1 /\ dot b b = 1 /\ dot c c = 1 /\
  dot a b = 0 /\ dot a c = 0 /\ dot b c = 0.

(** The shape operator of a smooth surface with the principal curvatures
    [k1], [k2] in the principal directions [e1], [e2]:
    k1 e1 e1^t + k2 e2 e2^t. *)
Definition shape_operator (k1 k2 : R) (e1 e2 : vec3) : mat3 :=
  madd (mscale k1 (OuterProduct e1 e1)) (mscale k2 (OuterProduct e2 e2)).

Section Geometry.
Context {L : SurfaceFE}.

(** The differential geometry of the elements of a piecewise smooth
    surface, given by itself and not by the formulas of the notebook.  At a
    point of an element: the principal curvatures and principal directions
    of the smooth surface that the element is a piece of.  At a point of
    the boundary curve of an element: the curvature vector of the curve
    (its second derivative by arc length) and the unit co-normal, tangent
    to the surface and orthogonal to the curve, that points out of the
    element.  At a corner of an element: tangent vectors of the two
    boundary curves that meet there, pointing away from the corner. *)
Record Geometry : Type := {
  principal1 : Pt -> R;
  principal2 : Pt -> R;
  direction1 : Pt -> vec3;
  direction2 : Pt -> vec3;
  curvature_vector : Pt -> vec3;
  outward_conormal : Pt -> vec3;
  leaving1 : Pt -> vec3;
  leaving2 : Pt -> vec3 }.

(** The three quantities of the Gauss-Bonnet theorem as the notebook
    states it,
      int_S K ds + int_dS kappa dl + sum_V (pi - alpha_V) = 2 pi chi:
    the Gauss curvature K, product of the principal curvatures; the
    geodesic curvature kappa of the boundary, the component of the
    curvature vector along the co-normal that points into the surface; the
    interior angle alpha_V at a vertex of the boundary. *)
Definition Gauss_curvature (G : Geometry) : Pt -> R :=
  fun q => principal1 G q * principal2 G q.

Definition geodesic_curvature (G : Geometry) : Pt -> R :=
  fun q => - dot (curvature_vector G q) (outward_conormal G q).

Definition interior_angle (G : Geometry) : Pt -> R :=
  fun q => angle (leaving1 G q) (leaving2 G q).

(** What the operators of the library return on such elements: [normal3]
    is the unit normal, orthogonal to the principal directions, and [Grad]
    of it is the shape operator; [EdgeCurvature3] is the curvature vector
    of the boundary curve, and the cross product of the normal with
    [tangential3] is the outward co-normal; [VertexTangentialVectors3]
    holds the unit tangents of the two curves that leave a corner. *)
Definition library_on_elements (mesh : Mesh) (lift_order : nat)
  (G : Geometry) : Prop :=
  (forall wq, In wq (ds mesh (lift_order + 12)) ->
     orthonormal (direction1 G (snd wq)) (direction2 G (snd wq))
       (normal3 (snd wq)) /\
     Grad normal3 (snd wq)
     = shape_operator (principal1 G (snd wq)) (principal2 G (snd wq))
         (direction1 G (snd wq)) (direction2 G (snd wq))) /\
  (forall wq, In wq (ds_element_boundary mesh (lift_order + 12)) ->
     EdgeCurvature3 (snd wq) = curvature_vector G (snd wq) /\
     Cross (normal3 (snd wq)) (tangential3 (snd wq))
     = outward_conormal G (snd wq)) /\
  (forall q, In q (ds_BBND mesh) ->
     VertexTangentialVectors3 q
     = (Normalize (leaving1 G q), Normalize (leaving2 G q))).

(** Every evaluation point belongs to one of the [nface] elements. *)
Definition points_of_elements (mesh : Mesh) (lift_order : nat)
  (elem : Pt -> nat) : Prop :=
  (forall wq, In wq (ds mesh (lift_order + 12)) ->
     (elem (snd wq) < nface mesh)%nat) /\
  (forall wq, In wq (ds_element_boundary mesh (lift_order + 12)) ->
     (elem (snd wq) < nface mesh)%nat) /\
  (forall q, In q (ds_BBND mesh) -> (elem q < nface mesh)%nat).

(** The theorem of Gauss and Bonnet on the element [e], a smooth surface
    with chi = 1 whose boundary is smooth except at its corners, with the
    integrals taken by the rules of the library. *)
Definition classical_Gauss_Bonnet (mesh : Mesh) (lift_order : nat)
  (elem : Pt -> nat) (G : Geometry) (e : nat) : Prop :=
  integrate (filter (on_element elem e) (ds mesh (lift_order + 12)))
    (Gauss_curvature G)
  + integrate (filter (on_element elem e)
                 (ds_element_boundary mesh (lift_order + 12)))
      (geodesic_curvature G)
  + sum_list (filter (fun q => Nat.eqb (elem q) e) (ds_BBND mesh))
      (fun q => PI - interior_angle G q)
  = 2 * PI.

(** A surface of flat triangles with straight edges: [vertex e k] is the
    position of the corner [k] of the element [e].  The normal is constant
    on an element, so that [Grad] of it vanishes, the edges have no
    curvature, every element has three vertex points, one at each corner,
    and the vertex tangential vectors are the unit vectors along the two
    edges that leave the corner. *)
Definition flat_triangles (mesh : Mesh) (lift_order : nat)
  (elem : Pt -> nat) (vertex : nat -> nat -> vec3) : Prop :=
  (forall wq, In wq (ds mesh (lift_order + 12)) ->
     Grad normal3 (snd wq) = mzero) /\
  (forall wq, In wq (ds_element_boundary mesh (lift_order + 12)) ->
     EdgeCurvature3 (snd wq) = V3 0 0 0) /\
  (forall q, In q (ds_BBND mesh) -> (elem q < nface mesh)%nat) /\
  (forall e, (e < nface mesh)%nat ->
     let A := vertex e 0%nat in
     let B := vertex e 1%nat in
     let C := vertex e 2%nat in
     Cross (vsub B A) (vsub C A) <> V3 0 0 0 /\
     exists qa qb qc,
       Permutation (filter (fun q => Nat.eqb (elem q) e) (ds_BBND mesh))
         [qa; qb; qc] /\
       VertexTangentialVectors3 qa
       = (Normalize (vsub B A), Normalize (vsub C A)) /\
       VertexTangentialVectors3 qb
       = (Normalize (vsub C B), Normalize (vsub A B)) /\
       VertexTangentialVectors3 qc
       = (Normalize (vsub A C), Normalize (vsub B C))).

End Geometry.

End PiecewiseSmooth.

(** The octahedron with the vertices +-e_x, +-e_y, +-e_z, and the unit
    sphere through them cut into its eight octants by the coordinate
    planes: 6 vertices, 12 edges, 8 triangles.  An evaluation point
    [(f, k)] is the corner [k] of the face [f]; the same 24 points serve as
    vertex points, as the points of a rule on the element boundaries (the
    start of each edge, weighted by the length of the edge) and as the
    points of a rule on the elements (each corner, weighted by a third of
    the area of the face).  The corners of a face are listed so that the
    cross product of the first two positions is the opposite of the third:
    going along the boundary in this order, the cross product of the
    outward normal with the tangent points out of the face.  The faces below
    the plane z = 0 list the vertex - e_z last. *)
Module Octahedron.
Import SurfaceLift SurfaceBoundary PiecewiseSmooth Spectrum.

Definition oct_vertex (i : nat) : vec3 :=
  match i with
  | 0 => V3 1 0 0
  | 1 => V3 (-1) 0 0
  | 2 => V3 0 1 0
  | 3 => V3 0 (-1) 0
  | 4 => V3 0 0 1
  | _ => V3 0 0 (-1)
  end%nat.

Definition oct_faces : list (list nat) :=
  [ [0; 4; 2]; [0; 2; 5]; [0; 3; 4]; [3; 0; 5];
    [1; 2; 4]; [2; 1; 5]; [1; 4; 3]; [1; 3; 5] ]%nat.

Definition next3 (k : nat) : nat :=
  match k with 0 => 1 | 1 => 2 | _ => 0 end%nat.

Definition prev3 (k : nat) : nat :=
  match k with 0 => 2 | 1 => 0 | _ => 1 end%nat.

Definition oct_corner (f k : nat) : nat := nth k (nth f oct_faces []) 0%nat.

Definition oct_position (f k : nat) : vec3 := oct_vertex (oct_corner f k).

Definition oct_points : list (nat * nat) := list_prod (seq 0 8) (seq 0 3).

(** The undirected edges of the triangles, each listed once. *)
Definition triangle_edges (face : list nat) : list (nat * nat) :=
  map (fun k => let a := nth k face 0%nat in
                let b := nth (next3 k) face 0%nat in
                (Nat.min a b, Nat.max a b))
      (seq 0 3).

Definition oct_edges : list (nat * nat) :=
  nodup pair_eq_dec (flat_map triangle_edges oct_faces).

Definition oct_vertices : list nat :=
  nodup Nat.eq_dec (List.concat oct_faces).

(** Nodal basis functions at the corners of the faces. *)
Definition oct_H1 : FESpace (nat * nat) R :=
  {| ndof := List.length oct_vertices;
     shape := fun i q =>
       if Nat.eqb (oct_corner (fst q) (snd q)) i then 1 else 0;
     dof_boundaries := fun _ => [] |}.

(** The flat octahedron: on each face the vectors along the two edges
    that leave a corner, and the unit normal of the face. *)
Definition oct_leaving (q : nat * nat) : vec3 * vec3 :=
  let a := oct_position (fst q) (snd q) in
  (vsub (oct_position (fst q) (next3 (snd q))) a,
   vsub (oct_position (fst q) (prev3 (snd q))) a).

Definition oct_tangents (q : nat * nat) : vec3 * vec3 :=
  (Normalize (fst (oct_leaving q)), Normalize (snd (oct_leaving q))).

Definition oct_face_normal (f : nat) : vec3 :=
  Normalize (vadd (vadd (oct_position f 0) (oct_position f 1))
               (oct_position f 2)).

(** The faces are equilateral triangles of side sqrt 2 and area
    sqrt 3 / 2. *)
Definition octahedron_FE : SurfaceFE :=
  {| Mesh := unit;
     Pt := nat * nat;
     nv := fun _ => List.length oct_vertices;
     nedge := fun _ => List.length oct_edges;
     nface := fun _ => List.length oct_faces;
     normal3 := fun q => oct_face_normal (fst q);
     tangential3 := fun q => fst (oct_tangents q);
     Grad := fun _ _ => mzero;
     EdgeCurvature3 := fun _ => V3 0 0 0;
     VertexTangentialVectors3 := oct_tangents;
     ds := fun _ _ => map (fun q => (sqrt 3 / 6, q)) oct_points;
     ds_element_boundary := fun _ _ => map (fun q => (sqrt 2, q)) oct_points;
     ds_BBND := fun _ => oct_points;
     H1 := fun _ _ => oct_H1;
     HDivDivSurface := fun _ _ => no_dofs mzero;
     VectorFacetSurface_Set := fun _ _ nu => nu;
     Inverse := diagonal_inverse |}.

(** The unit sphere in eight octants.  At the corner [a] of an octant with
    the corners [a], [b], [c] the outward normal is the position [a], the
    two edges are quarters of great circles that leave [a] in the
    directions [b] and [c], their curvature vector at [a] is [- a], and the
    surface gradient of the normal is the Weingarten tensor
    I - nu nu^t of the unit sphere.  An octant has the area pi / 2 and its
    edges have the length pi / 2. *)
Definition round_tangents (q : nat * nat) : vec3 * vec3 :=
  (Normalize (oct_position (fst q) (next3 (snd q))),
   Normalize (oct_position (fst q) (prev3 (snd q)))).

Definition round_normal (q : nat * nat) : vec3 :=
  Sphere.sphere_normal 1 (oct_position (fst q) (snd q)).

Definition round_Grad (nu : nat * nat -> vec3) (q : nat * nat) : mat3 :=
  Sphere.sphere_Weingarten 1 (oct_position (fst q) (snd q)).

Definition round_sphere_FE : SurfaceFE :=
  {| Mesh := unit;
     Pt := nat * nat;
     nv := fun _ => List.length oct_vertices;
     nedge := fun _ => List.length oct_edges;
     nface := fun _ => List.length oct_faces;
     normal3 := round_normal;
     tangential3 := fun q => oct_position (fst q) (next3 (snd q));
     Grad := round_Grad;
     EdgeCurvature3 := fun q => vopp (oct_position (fst q) (snd q));
     VertexTangentialVectors3 := round_tangents;
     ds := fun _ _ => map (fun q => (PI / 6, q)) oct_points;
     ds_element_boundary := fun _ _ => map (fun q => (PI / 2, q)) oct_points;
     ds_BBND := fun _ => oct_points;
     H1 := fun _ _ => oct_H1;
     HDivDivSurface := fun _ _ => no_dofs mzero;
     VectorFacetSurface_Set := fun _ _ nu => nu;
     Inverse := diagonal_inverse |}.

(** The geometry of the octants: principal curvatures 1 in the directions
    of the two other corners, great circles as edges, the co-normal
    opposite to the third corner. *)
Definition round_geometry (L : SurfaceFE) (pos : @Pt L -> nat * nat)
  : @Geometry L :=
  {| principal1 := fun _ => 1;
     principal2 := fun _ => 1;
     direction1 := fun q =>
       oct_position (fst (pos q)) (next3 (snd (pos q)));
     direction2 := fun q =>
       oct_position (fst (pos q)) (prev3 (snd (pos q)));
     curvature_vector := fun q =>
       vopp (oct_position (fst (pos q)) (snd (pos q)));
     outward_conormal := fun q =>
       vopp (oct_position (fst (pos q)) (prev3 (snd (pos q))));
     leaving1 := fun q =>
       oct_position (fst (pos q)) (next3 (snd (pos q)));
     leaving2 := fun q =>
       oct_position (fst (pos q)) (prev3 (snd (pos q))) |}.

(** The hemisphere with a lid: the four octants of the unit sphere above the
    plane z = 0, closed by the flat unit disk in that plane, cut into four
    quarters that meet in its centre.  The centre takes the place of the
    vertex - e_z of the octahedron, so that a quarter has the corners [A],
    [B] on the unit circle and the centre last.  Its normal is - e_z; its
    edges are the arc from [A] to [B], of length pi / 2, with the tangent
    [B], the curvature vector [- A] and the outward co-normal [A] at its
    start, and the two radii, of length 1, from [B] to the centre and from
    the centre to [A]. *)
Definition on_lid (f : nat) : bool := Nat.eqb (oct_corner f 2) 5.

Definition lid_tangential (q : nat * nat) : vec3 :=
  let A := oct_position (fst q) 0 in
  let B := oct_position (fst q) 1 in
  match snd q with 0 => B | 1 => vopp B | _ => A end%nat.

Definition lid_curvature (q : nat * nat) : vec3 :=
  let A := oct_position (fst q) 0 in
  match snd q with 0 => vopp A | _ => V3 0 0 0 end%nat.

Definition lid_conormal (q : nat * nat) : vec3 :=
  let A := oct_position (fst q) 0 in
  let B := oct_position (fst q) 1 in
  match snd q with 0 => A | 1 => vopp A | _ => vopp B end%nat.

Definition lid_leaving (q : nat * nat) : vec3 * vec3 :=
  let A := oct_position (fst q) 0 in
  let B := oct_position (fst q) 1 in
  match snd q with
  | 0 => (B, vopp A)
  | 1 => (vopp B, A)
  | _ => (A, B)
  end%nat.

Definition dome_normal (q : nat * nat) : vec3 :=
  if on_lid (fst q) then V3 0 0 (-1) else round_normal q.

Definition dome_tangential (q : nat * nat) : vec3 :=
  if on_lid (fst q) then lid_tangential q
  else oct_position (fst q) (next3 (snd q)).

Definition dome_Grad (nu : nat * nat -> vec3) (q : nat * nat) : mat3 :=
  if on_lid (fst q) then mzero else round_Grad nu q.

Definition dome_curvature (q : nat * nat) : vec3 :=
  if on_lid (fst q) then lid_curvature q
  else vopp (oct_position (fst q) (snd q)).

Definition dome_leaving (q : nat * nat) : vec3 * vec3 :=
  if on_lid (fst q) then lid_leaving q
  else (oct_position (fst q) (next3 (snd q)),
        oct_position (fst q) (prev3 (snd q))).

Definition dome_tangents (q : nat * nat) : vec3 * vec3 :=
  (Normalize (fst (dome_leaving q)), Normalize (snd (dome_leaving q))).

(** A third of the area of the element at each corner, and the length of
    the edge at its start. *)
Definition dome_area_weight (q : nat * nat) : R :=
  if on_lid (fst q) then PI / 12 else PI / 6.

Definition dome_length_weight (q : nat * nat) : R :=
  if on_lid (fst q)
  then match snd q with O => PI / 2 | S _ => 1 end
  else PI / 2.

Definition dome_FE : SurfaceFE :=
  {| Mesh := unit;
     Pt := nat * nat;
     nv := fun _ => List.length oct_vertices;
     nedge := fun _ => List.length oct_edges;
     nface := fun _ => List.length oct_faces;
     normal3 := dome_normal;
     tangential3 := dome_tangential;
     Grad := dome_Grad;
     EdgeCurvature3 := dome_curvature;
     VertexTangentialVectors3 := dome_tangents;
     ds := fun _ _ => map (fun q => (dome_area_weight q, q)) oct_points;
     ds_element_boundary := fun _ _ =>
       map (fun q => (dome_length_weight q, q)) oct_points;
     ds_BBND := fun _ => oct_points;
     H1 := fun _ _ => oct_H1;
     HDivDivSurface := fun _ _ => no_dofs mzero;
     VectorFacetSurface_Set := fun _ _ nu => nu;
     Inverse := diagonal_inverse |}.

(** The geometry of the dome: principal curvatures 1 on the octants and 0
    on the lid, where e_x and e_y span the tangent plane. *)
Definition dome_geometry : @Geometry dome_FE :=
  @Build_Geometry dome_FE
    (fun q : nat * nat => if on_lid (fst q) then 0 else 1)
    (fun q : nat * nat => if on_lid (fst q) then 0 else 1)
    (fun q : nat * nat =>
       if on_lid (fst q) then V3 1 0 0
       else oct_position (fst q) (next3 (snd q)))
    (fun q : nat * nat =>
       if on_lid (fst q) then V3 0 1 0
       else oct_position (fst q) (prev3 (snd q)))
    dome_curvature
    (fun q : nat * nat =>
       if on_lid (fst q) then lid_conormal q
       else vopp (oct_position (fst q) (prev3 (snd q))))
    (fun q : nat * nat => fst (dome_leaving q))
    (fun q : nat * nat => snd (dome_leaving q)).

(** One octant of the sphere taken alone, the triangle with three right
    angles of the notebook: the face 0 with its three corners as evaluation
    points and all three edges on the boundary. *)
Definition octant_points : list (nat * nat) :=
  map (fun k => (0%nat, k)) (seq 0 3).

Definition octant_H1 : FESpace (nat * nat) R :=
  {| ndof := 3;
     shape := fun i q => if Nat.eqb (snd q) i then 1 else 0;
     dof_boundaries := fun _ => [] |}.

Definition octant_FE : SurfaceFE :=
  {| Mesh := unit;
     Pt := nat * nat;
     nv := fun _ => 3%nat;
     nedge := fun _ => 3%nat;
     nface := fun _ => 1%nat;
     normal3 := round_normal;
     tangential3 := fun q => oct_position (fst q) (next3 (snd q));
     Grad := round_Grad;
     EdgeCurvature3 := fun q => vopp (oct_position (fst q) (snd q));
     VertexTangentialVectors3 := round_tangents;
     ds := fun _ _ => map (fun q => (PI / 6, q)) octant_points;
     ds_element_boundary := fun _ _ =>
       map (fun q => (PI / 2, q)) octant_points;
     ds_BBND := fun _ => octant_points;
     H1 := fun _ _ => octant_H1;
     HDivDivSurface := fun _ _ => no_dofs mzero;
     VectorFacetSurface_Set := fun _ _ nu => nu;
     Inverse := diagonal_inverse |}.

End Octahedron.

Module WeingartenLift.
Import SurfaceLift Spectrum.

(** Sum of the matrices [g 0 + ... + g (n-1)]. *)
Fixpoint msum_range (n : nat) (g : nat -> mat3) : mat3 :=
  match n with
  | O => mzero
  | S k => madd (msum_range k g) (g k)
  end.

Section Notebook.
Context {L : SurfaceFE}.

(** a = BilinearForm(InnerProduct(sigma, tau) * ds, symmetric=True) *)
Definition Weingarten_mass (mesh : Mesh) (lifting_order : nat) : BaseMatrix :=
  let liftWspace := HDivDivSurface mesh lifting_order in
  fun i j =>
    integrate (ds mesh (lifting_order + lifting_order))
      (fun q => InnerProduct (shape liftWspace j q) (shape liftWspace i q)).

(** The value at a point of [liftW = GridFunction(liftWspace)] with the
    coefficient vector [vec]. *)
Definition GridFunction_HHJ (mesh : Mesh) (lifting_order : nat)
  (vec : BaseVector) : Pt -> mat3 :=
  let liftWspace := HDivDivSurface mesh lifting_order in
  fun q => msum_range (ndof liftWspace)
             (fun j => mscale (vec j) (shape liftWspace j q)).

(** [a.mat.Inverse(liftWspace.FreeDofs(), inverse="sparsecholesky")] is
    the inverse of the matrix [a]. *)
Definition Weingarten_exact_solve (mesh : Mesh) (lifting_order : nat)
  : Prop :=
  let liftWspace := HDivDivSurface mesh lifting_order in
  let free := FreeDofs liftWspace dirichlet_none in
  Inverse_spec (ndof liftWspace) (Weingarten_mass mesh lifting_order) free
    (Inverse (ndof liftWspace) (Weingarten_mass mesh lifting_order) free).

End Notebook.

(** The two squares meeting at a right angle, with the lowest order
    tensor of the common edge extended as a constant into each square and
    a direct solver. *)
Definition fold_sigma_const (h : R) (q : nat) : mat3 :=
  if fold_on_floor q
  then OuterProduct (V3 (-1) 0 0) (V3 (-1) 0 0)
  else OuterProduct (V3 0 (- h) 0) (V3 0 (- h) 0).

Definition fold_HHJ_const (h : R) : FESpace nat mat3 :=
  {| ndof := 1;
     shape := fun _ => fold_sigma_const h;
     dof_boundaries := fun _ => [] |}.

Definition fold_lift_FE (h : R) : SurfaceFE :=
  {| Mesh := unit;
     Pt := nat;
     nv := fun _ => 6%nat;
     nedge := fun _ => 7%nat;
     nface := fun _ => 2%nat;
     normal3 := fold_normal h;
     tangential3 := fold_tangential h;
     Grad := fun _ _ => mzero;
     EdgeCurvature3 := fun _ => V3 0 0 0;
     VertexTangentialVectors3 := fun _ => (V3 1 0 0, V3 0 0 1);
     ds := fun _ _ => [(1, 8%nat); (1, 9%nat)];
     ds_element_boundary := fun _ _ =>
       [(1, 0%nat); (1, 1%nat); (1, 2%nat); (1, 3%nat);
        (1, 4%nat); (1, 5%nat); (1, 6%nat); (1, 7%nat)];
     ds_BBND := fun _ => [];
     H1 := fun _ _ => no_dofs 0;
     HDivDivSurface := fun _ _ => fold_HHJ_const h;
     VectorFacetSurface_Set := fun _ _ => fold_facet_average;
     Inverse := diagonal_inverse |}.

End WeingartenLift.

(** ** Intrinsic notebook: the embeddings and metrics of the examples *)

Module Hemisphere.

(** [atan2(y, x)] of the library: the angle in (-pi, pi] of the point
    (x, y), and 0 at the origin. *)
Definition atan2 (y x : R) : R :=
  if Rlt_dec 0 x then atan (y / x)
  else if Rlt_dec x 0
       then (if Rle_dec 0 y then atan (y / x) + PI else atan (y / x) - PI)
       else if Rlt_dec 0 y then PI / 2
            else if Rlt_dec y 0 then - PI / 2 else 0.

(** r = sqrt(x**2+y**2)
    phi = atan2(y,x)
    u.Interpolate( (cos(phi)*sin(r*pi/2) - x,
                    sin(phi)*sin(r*pi/2) - y,
                    cos(r*pi/2)) )
    as coefficient functions of the point (x, y) of the parameter domain;
    [u] is the expression handed to [Interpolate]. *)
Definition r (p : vec2) : R := sqrt (ux p ^ 2 + uy p ^ 2).

Definition phi (p : vec2) : R := atan2 (uy p) (ux p).

Definition u (p : vec2) : vec3 :=
  V3 (cos (phi p) * sin (r p * PI / 2) - ux p)
     (sin (phi p) * sin (r p * PI / 2) - uy p)
     (cos (r p * PI / 2)).

(** embedding theta(x, y) = (x, y, 0) + u(x,y) *)
Definition theta (p : vec2) : vec3 := vadd (V3 (ux p) (uy p) 0) (u p).

End Hemisphere.

Module Metric.

(** F = CF( (1,0, 0,1, 0,0), dims=(3,2)) + Grad(u) *)
Definition embedding_gradient (Gu : mat32) : mat32 :=
  M32 (1 + f00 Gu) (0 + f01 Gu)
      (0 + f10 Gu) (1 + f11 Gu)
      (0 + f20 Gu) (0 + f21 Gu).

(** The two columns of a 3 x 2 matrix, and its action on a vector. *)
Definition column0 (F : mat32) : vec3 := V3 (f00 F) (f10 F) (f20 F).
Definition column1 (F : mat32) : vec3 := V3 (f01 F) (f11 F) (f21 F).

Definition mulv32 (F : mat32) (v : vec2) : vec3 :=
  V3 (f00 F * ux v + f01 F * uy v)
     (f10 F * ux v + f11 F * uy v)
     (f20 F * ux v + f21 F * uy v).

End Metric.

Module GraphExample.
Import Extrinsic Metric.

(** mapping = lambda x, y: (-1 + 2 * x, -1 + 2 * y) *)
Definition mapping (x y : R) : vec2 := V2 (-1 + 2 * x) (-1 + 2 * y).

(** gexact = CF((1 + (x - 1 / 3 * x**3) ** 2,
                 (x - 1 / 3 * x**3) * (y - 1 / 3 * y**3),
                 (x - 1 / 3 * x**3) * (y - 1 / 3 * y**3),
                 1 + (y - 1 / 3 * y**3) ** 2), dims=(2, 2)) *)
Definition gexact (p : vec2) : mat2 :=
  let x := ux p in
  let y := uy p in
  M2 (1 + (x - 1 / 3 * x ^ 3) ^ 2)
     ((x - 1 / 3 * x ^ 3) * (y - 1 / 3 * y ^ 3))
     ((x - 1 / 3 * x ^ 3) * (y - 1 / 3 * y ^ 3))
     (1 + (y - 1 / 3 * y ^ 3) ^ 2).

(** Kexact = 81 * (1 - x**2) * (1 - y**2)
             / (9 + x**2 * (x**2 - 3) ** 2 + y**2 * (y**2 - 3) ** 2) ** 2 *)
Definition Kexact (p : vec2) : R :=
  let x := ux p in
  let y := uy p in
  81 * (1 - x ^ 2) * (1 - y ^ 2)
  / (9 + x ^ 2 * (x ^ 2 - 3) ^ 2 + y ^ 2 * (y ^ 2 - 3) ^ 2) ^ 2.

(** The notebook's remark: the metric is induced by the embedding
    theta(x,y) = (x, y, f(x,y)) of the graph of
    f(x,y) = 1/2 (x^2 + y^2) - 1/12 (x^4 + y^4). *)
Definition graph_f (p : vec2) : R :=
  1 / 2 * (ux p ^ 2 + uy p ^ 2) - 1 / 12 * (ux p ^ 4 + uy p ^ 4).

Definition graph_theta (p : vec2) : vec3 := V3 (ux p) (uy p) (graph_f p).

(** Partial derivatives on the parameter plane. *)
Definition shift2 (p : vec2) (j : nat) (s : R) : vec2 :=
  match j with
  | O => V2 (ux p + s) (uy p)
  | _ => V2 (ux p) (uy p + s)
  end.

Definition partial_at (f : vec2 -> R) (p : vec2) (j : nat) (d : R) : Prop :=
  derivable_pt_lim (fun s => f (shift2 p j s)) 0 d.

(** [Grad(u)] at a point, for a field u with values in space: the 3 x 2
    matrix of the partial derivatives. *)
Definition Grad_at (w : vec2 -> vec3) (p : vec2) (G : mat32) : Prop :=
  partial_at (fun q => vx (w q)) p 0 (f00 G) /\
  partial_at (fun q => vx (w q)) p 1 (f01 G) /\
  partial_at (fun q => vy (w q)) p 0 (f10 G) /\
  partial_at (fun q => vy (w q)) p 1 (f11 G) /\
  partial_at (fun q => vz (w q)) p 0 (f20 G) /\
  partial_at (fun q => vz (w q)) p 1 (f21 G).

(** The displacement of the graph from the parameter plane. *)
Definition graph_u (p : vec2) : vec3 := V3 0 0 (graph_f p).

(** The slope t - t^3/3 of the graph in each coordinate direction, and
    the upward unit normal (- f_x, - f_y, 1) / |(- f_x, - f_y, 1)| of the
    graph, as a field on the ambient space that does not depend on the
    height. *)
Definition graph_slope (t : R) : R := t - 1 / 3 * t ^ 3.

Definition graph_normal_field (q : vec3) : vec3 :=
  Normalize (V3 (- graph_slope (vx q)) (- graph_slope (vy q)) 1).

(** The closed form of the surface gradient of the normal of the graph. *)
Definition graph_Weingarten (p : vec2) : mat3 :=
  let a := graph_slope (ux p) in
  let b := graph_slope (uy p) in
  let a' := 1 - ux p ^ 2 in
  let b' := 1 - uy p ^ 2 in
  let D := a * a + b * b + 1 in
  let rho := sqrt D in
  let nu := graph_normal_field (graph_theta p) in
  rows (mulv (projection nu)
          (V3 (- a' * (b * b + 1) / (D * rho)) (b' * (a * b) / (D * rho)) 0))
       (mulv (projection nu)
          (V3 (a' * (a * b) / (D * rho)) (- b' * (a * a + 1) / (D * rho)) 0))
       (mulv (projection nu)
          (V3 (- a' * a / (D * rho)) (- b' * b / (D * rho)) 0)).

(** A surface gradient on the graph that returns this tensor at the
    point above (x, y), and a point of the parameter square. *)
Definition graph_Grad : (vec3 -> vec3) -> vec3 -> mat3 :=
  fun _ q => graph_Weingarten (V2 (vx q) (vy q)).

Definition graph_sample : vec2 := V2 (1 / 2) 0.

End GraphExample.

Module Conformal.

(** A multiple of a metric, and the Euclidean metric. *)
Definition mscale2 (c : R) (g : mat2) : mat2 :=
  M2 (c * g00 g) (c * g01 g) (c * g10 g) (c * g11 g).

Definition Id2 : mat2 := M2 1 0 0 1.

End Conformal.

(** * Verified properties *)

(** ** Facts on real numbers and small tensors *)

Lemma sqrt_sq_nonneg (x : R) : 0 <= x -> sqrt (x ^ 2) = x.
Proof.
  intro Hx. replace (x ^ 2) with (x * x) by ring. now apply sqrt_square.
Qed.

Lemma sqrt_times_self (x : R) : 0 <= x -> sqrt x * sqrt x = x.
Proof. intro Hx. now apply sqrt_sqrt. Qed.

Lemma Det_outer_self (nu : vec3) : Det (OuterProduct nu nu) = 0.
Proof. unfold Det, OuterProduct; simpl; ring. Qed.

Lemma madd_mzero_l (A : mat3) : madd mzero A = A.
Proof.
  destruct A; unfold madd, mzero; simpl; f_equal; ring.
Qed.

(** ** Finite sums *)

Lemma sum_list_app {A : Type} (l1 l2 : list A) (g : A -> R) :
  sum_list (l1 ++ l2) g = sum_list l1 g + sum_list l2 g.
Proof.
  induction l1 as [| a l1 IH]; simpl; [ring | rewrite IH; ring].
Qed.

Lemma sum_list_perm {A : Type} (l1 l2 : list A) (g : A -> R) :
  Permutation l1 l2 -> sum_list l1 g = sum_list l2 g.
Proof.
  induction 1 as [| a l1 l2 _ IH | a b l | l1 l2 l3 _ IH1 _ IH2]; simpl.
  - reflexivity.
  - now rewrite IH.
  - ring.
  - now rewrite IH1.
Qed.

Lemma sum_list_ext {A : Type} (l : list A) (g1 g2 : A -> R) :
  (forall a, In a l -> g1 a = g2 a) -> sum_list l g1 = sum_list l g2.
Proof.
  induction l as [| a l IH]; simpl; intro H; [reflexivity |].
  rewrite (H a) by now left. rewrite IH; [reflexivity |].
  intros b Hb. apply H. now right.
Qed.

Lemma sum_list_zero {A : Type} (l : list A) (g : A -> R) :
  (forall a, In a l -> g a = 0) -> sum_list l g = 0.
Proof.
  induction l as [| a l IH]; simpl; intro H; [reflexivity |].
  rewrite (H a) by now left. rewrite IH; [ring |].
  intros b Hb. apply H. now right.
Qed.

Lemma sum_list_plus {A : Type} (l : list A) (g1 g2 : A -> R) :
  sum_list l (fun a => g1 a + g2 a) = sum_list l g1 + sum_list l g2.
Proof.
  induction l as [| a l IH]; simpl; [ring | rewrite IH; ring].
Qed.

Lemma sum_list_scal {A : Type} (l : list A) (c : R) (g : A -> R) :
  sum_list l (fun a => c * g a) = c * sum_list l g.
Proof.
  induction l as [| a l IH]; simpl; [ring | rewrite IH; ring].
Qed.

Lemma sum_list_const {A : Type} (l : list A) (c : R) :
  sum_list l (fun _ => c) = INR (List.length l) * c.
Proof.
  induction l as [| a l IH]; [simpl; ring |].
  cbn [sum_list List.length]. rewrite IH, S_INR. ring.
Qed.

Lemma integrate_perm {Pt : Type} (r1 r2 : Rule Pt) (g : Pt -> R) :
  Permutation r1 r2 -> integrate r1 g = integrate r2 g.
Proof. apply sum_list_perm. Qed.

Lemma integrate_app {Pt : Type} (r1 r2 : Rule Pt) (g : Pt -> R) :
  integrate (r1 ++ r2) g = integrate r1 g + integrate r2 g.
Proof. apply sum_list_app. Qed.

Lemma integrate_zero {Pt : Type} (r : Rule Pt) (g : Pt -> R) :
  (forall wq, In wq r -> g (snd wq) = 0) -> integrate r g = 0.
Proof.
  intro H. apply sum_list_zero. intros wq Hwq. rewrite (H wq Hwq). ring.
Qed.

Lemma integrate_ext {Pt : Type} (r : Rule Pt) (g1 g2 : Pt -> R) :
  (forall wq, In wq r -> g1 (snd wq) = g2 (snd wq)) ->
  integrate r g1 = integrate r g2.
Proof.
  intro H. apply sum_list_ext. intros wq Hwq. now rewrite (H wq Hwq).
Qed.

(** ** Angles between unit vectors across a fold *)

Lemma acos_half_angle (a c : R) :
  -1 < c <= 1 -> a * a = (1 - c) / 2 ->
  (0 <= a -> 2 * (PI / 2 - acos a) = acos c) /\
  (a <= 0 -> 2 * (PI / 2 - acos a) = - acos c).
Proof.
  intros Hc Ha.
  assert (Ha1 : -1 <= a <= 1) by (split; nra).
  pose proof (acos_bound a) as Hb.
  pose proof (cos_acos a Ha1) as Hcos.
  set (b := acos a) in *.
  assert (H2 : cos (2 * b) = - c).
  { rewrite cos_2a_cos, Hcos. nra. }
  pose proof PI_RGT_0 as Hpi.
  split; intro Hs.
  - assert (Hb2 : b <= PI / 2).
    { destruct (Rle_lt_dec b (PI / 2)) as [Hle | Hgt]; [exact Hle |].
      assert (cos b < 0) by (apply cos_lt_0; lra). lra. }
    assert (Hc2 : cos (PI - 2 * b) = c).
    { replace (PI - 2 * b) with (- (2 * b) + PI) by ring.
      rewrite neg_cos, cos_neg, H2. lra. }
    rewrite <- Hc2. rewrite acos_cos by lra. unfold b. lra.
  - assert (Hb2 : PI / 2 <= b).
    { destruct (Rle_lt_dec (PI / 2) b) as [Hle | Hgt]; [exact Hle |].
      assert (0 < cos b) by (apply cos_gt_0; lra). lra. }
    assert (Hc2 : cos (2 * b - PI) = c).
    { replace (2 * b - PI) with (- (PI - 2 * b)) by ring.
      rewrite cos_neg.
      replace (PI - 2 * b) with (- (2 * b) + PI) by ring.
      rewrite neg_cos, cos_neg, H2. lra. }
    rewrite <- Hc2. rewrite acos_cos by lra. unfold b. lra.
Qed.

Lemma dot_vscale_l (c : R) (a b : vec3) : dot (vscale c a) b = c * dot a b.
Proof. unfold dot, vscale; simpl; ring. Qed.

Lemma dot_self_cross (a b : vec3) : dot a (Cross a b) = 0.
Proof. unfold dot, Cross; simpl; ring. Qed.

(** The square of a triple product is the Gram determinant. *)
Lemma triple_square (u v w : vec3) :
  dot u (Cross v w) * dot u (Cross v w)
  = dot u u * dot v v * dot w w
    + 2 * dot u v * dot v w * dot w u
    - dot u u * (dot v w * dot v w)
    - dot v v * (dot w u * dot w u)
    - dot w w * (dot u v * dot u v).
Proof. unfold dot, Cross; simpl; ring. Qed.

Lemma outer_inner_bilin (a : vec3) (S : mat3) :
  InnerProduct (OuterProduct a a) S = bilin S a a.
Proof. unfold InnerProduct, OuterProduct, bilin, dot, mulv; simpl; ring. Qed.

(** Two unit normals [np], [nm] sharing a unit tangent [t]: the cosine
    [a] of the angle between the normalized average normal and either
    co-normal satisfies a^2 = (1 - np.nm)/2, and has the sign of the
    product with the average itself. *)
Lemma fold_conormal_cosine (np nm t : vec3) :
  dot np np = 1 -> dot nm nm = 1 -> dot t t = 1 ->
  dot np t = 0 -> dot nm t = 0 -> -1 < dot np nm ->
  let navg := vscale (/ 2) (vadd np nm) in
  let a := dot (Normalize navg) (Cross np t) in
  dot (Normalize navg) (Cross nm (vopp t)) = a /\
  a * a = (1 - dot np nm) / 2 /\
  dot np nm <= 1 /\
  (0 <= a <-> 0 <= dot navg (Cross np t)).
Proof.
  intros Hp Hm Ht Hpt Hmt Hc navg a.
  set (c := dot np nm) in *.
  assert (Hc1 : c <= 1).
  { assert (Hsq : 0 <= dot (vadd np (vopp nm)) (vadd np (vopp nm))).
    { unfold dot, vadd, vopp; simpl.
      pose proof (Rle_0_sqr (vx np + - vx nm)) as H1.
      pose proof (Rle_0_sqr (vy np + - vy nm)) as H2.
      pose proof (Rle_0_sqr (vz np + - vz nm)) as H3.
      unfold Rsqr in H1, H2, H3. lra. }
    assert (Hex : dot (vadd np (vopp nm)) (vadd np (vopp nm))
                  = dot np np + dot nm nm - 2 * c)
      by (unfold c, dot, vadd, vopp; simpl; ring).
    lra. }
  assert (Hnn : dot navg navg = (1 + c) / 2).
  { replace (dot navg navg)
      with ((dot np np + dot nm nm + 2 * dot np nm) / 4)
      by (unfold navg, dot, vscale, vadd; simpl; field).
    fold c. rewrite Hp, Hm. field. }
  assert (HN : 0 < norm navg).
  { unfold norm. apply sqrt_lt_R0. rewrite Hnn. lra. }
  assert (HNN : norm navg * norm navg = (1 + c) / 2).
  { unfold norm. rewrite sqrt_sqrt; [exact Hnn | rewrite Hnn; lra]. }
  set (s := dot nm (Cross np t)).
  assert (Hs2 : s * s = 1 - c * c).
  { unfold s. rewrite triple_square.
    replace (dot t nm) with (dot nm t) by (unfold dot; ring).
    replace (dot nm np) with c by (unfold c, dot; ring).
    rewrite Hp, Hm, Ht, Hpt, Hmt. ring. }
  assert (Hap : dot navg (Cross np t) = s / 2)
    by (unfold navg, s, dot, vscale, vadd, Cross; simpl; field).
  assert (Ham : dot navg (Cross nm (vopp t)) = s / 2)
    by (unfold navg, s, dot, vscale, vadd, Cross, vopp; simpl; field).
  assert (Ha : a = / norm navg * (s / 2)).
  { unfold a, Normalize. now rewrite dot_vscale_l, Hap. }
  assert (HiN : 0 < / norm navg) by (now apply Rinv_0_lt_compat).
  repeat split.
  - unfold Normalize. now rewrite dot_vscale_l, Ham.
  - rewrite Ha.
    assert (Hinv : / norm navg * / norm navg = 2 / (1 + c)).
    { rewrite <- Rinv_mult, HNN. field. lra. }
    replace (/ norm navg * (s / 2) * (/ norm navg * (s / 2)))
      with ((/ norm navg * / norm navg) * (s * s) / 4) by (field; lra).
    rewrite Hinv, Hs2. field. lra.
  - exact Hc1.
  - rewrite Ha, Hap. intro H. nra.
  - rewrite Ha, Hap. intro H. nra.
Qed.

(** ** Finite sums over dof ranges *)

Lemma sum_range_ext (n : nat) (g1 g2 : nat -> R) :
  (forall i, (i < n)%nat -> g1 i = g2 i) -> sum_range n g1 = sum_range n g2.
Proof.
  induction n as [| n IH]; intro H; [reflexivity |].
  cbn [sum_range]. rewrite IH by (intros i Hi; apply H; lia).
  rewrite (H n) by lia. reflexivity.
Qed.

Lemma sum_range_plus (n : nat) (g1 g2 : nat -> R) :
  sum_range n (fun i => g1 i + g2 i) = sum_range n g1 + sum_range n g2.
Proof.
  induction n as [| n IH]; cbn [sum_range]; [ring | rewrite IH; ring].
Qed.

Lemma sum_range_scal (n : nat) (c : R) (g : nat -> R) :
  sum_range n (fun i => c * g i) = c * sum_range n g.
Proof.
  induction n as [| n IH]; cbn [sum_range]; [ring | rewrite IH; ring].
Qed.

Lemma sum_range_const (n : nat) (c : R) :
  sum_range n (fun _ => c) = INR n * c.
Proof.
  induction n as [| n IH]; [simpl; ring |].
  cbn [sum_range]. rewrite IH, S_INR. ring.
Qed.

Lemma sum_range_zero (n : nat) (g : nat -> R) :
  (forall i, (i < n)%nat -> g i = 0) -> sum_range n g = 0.
Proof.
  intro H. rewrite (sum_range_ext n g (fun _ => 0) H), sum_range_const. ring.
Qed.

Lemma sum_range_swap (n m : nat) (g : nat -> nat -> R) :
  sum_range n (fun i => sum_range m (fun j => g i j))
  = sum_range m (fun j => sum_range n (fun i => g i j)).
Proof.
  induction n as [| n IH]; cbn [sum_range].
  - symmetry. apply sum_range_zero. reflexivity.
  - rewrite IH, <- sum_range_plus. reflexivity.
Qed.

Lemma sum_list_range_swap {A : Type} (l : list A) (n : nat)
  (g : A -> nat -> R) :
  sum_list l (fun a => sum_range n (fun j => g a j))
  = sum_range n (fun j => sum_list l (fun a => g a j)).
Proof.
  induction l as [| a l IH]; cbn [sum_list].
  - symmetry. apply sum_range_zero. reflexivity.
  - rewrite IH, <- sum_range_plus. reflexivity.
Qed.

(** Picking one entry out of a sum. *)
Lemma sum_range_kron (n k : nat) (g : nat -> R) :
  (k < n)%nat -> sum_range n (fun j => g j * kron j k) = g k.
Proof.
  intro Hk. induction n as [| n IH]; [lia |].
  cbn [sum_range]. unfold kron at 2.
  destruct (Nat.eqb_spec n k) as [-> | Hne].
  - rewrite sum_range_zero; [ring |].
    intros i Hi. unfold kron.
    destruct (Nat.eqb_spec i k); [lia | ring].
  - rewrite IH by lia. ring.
Qed.

(** ** The loop over the vertex dofs *)

Lemma add_range_spec (n count : nat) (c : R) (v : BaseVector) :
  (count <= n)%nat ->
  exists w, add_range n count c v = Some w /\
            forall k, w k = if Nat.ltb k count then v k + c else v k.
Proof.
  unfold add_range. induction count as [| count IH]; intro Hle.
  - exists v. split; [reflexivity |]. intro k. reflexivity.
  - destruct IH as (w & Hw & Hspec); [lia |].
    rewrite seq_S, fold_left_app, Hw. cbn [fold_left Nat.add].
    unfold add_at. destruct (Nat.ltb_spec count n) as [_ | Hge]; [| lia].
    eexists. split; [reflexivity |].
    intro k. cbn beta. rewrite Hspec.
    destruct (Nat.eqb_spec k count) as [-> | Hne].
    + destruct (Nat.ltb_spec count count); [lia |].
      destruct (Nat.ltb_spec count (S count)); [reflexivity | lia].
    + destruct (Nat.ltb_spec k count), (Nat.ltb_spec k (S count));
        try reflexivity; lia.
Qed.

(** With fewer dofs than vertices the loop raises. *)
Lemma add_range_out_of_range (n count : nat) (c : R) (v : BaseVector) :
  (n < count)%nat -> add_range n count c v = None.
Proof.
  unfold add_range. intro Hlt.
  assert (Hnone : forall l, fold_left
            (fun acc i => match acc with
                          | Some w => add_at n w i c
                          | None => None
                          end) l (@None BaseVector) = None).
  { induction l as [| a l IH]; [reflexivity | exact IH]. }
  replace count with (n + (count - n))%nat by lia.
  rewrite seq_app, fold_left_app.
  destruct (count - n)%nat as [| m] eqn:Hm; [lia |].
  cbn [seq fold_left].
  destruct (fold_left _ (seq 0 n) (Some v)) as [w |]; [| apply Hnone].
  assert (Hat : add_at n w (0 + n) c = None).
  { unfold add_at. destruct (Nat.ltb_spec (0 + n) n); [lia | reflexivity]. }
  rewrite Hat. apply Hnone.
Qed.

(** ** Square roots and angles *)

Lemma sqrt_4 : sqrt 4 = 2.
Proof. replace 4 with (2 * 2) by ring. apply sqrt_square. lra. Qed.

Lemma acos_half : acos (1 / 2) = PI / 3.
Proof.
  rewrite <- cos_PI3. apply acos_cos. pose proof PI_RGT_0. lra.
Qed.

Lemma sqrt_3_pos : 0 < sqrt 3.
Proof. apply sqrt_lt_R0. lra. Qed.

Lemma acos_ratio_right (a b c : R) :
  a = 0 -> acos (a / sqrt b / sqrt c) = PI / 2.
Proof. intros ->. unfold Rdiv. rewrite !Rmult_0_l. apply acos_0. Qed.

Lemma sqrt_prod (b c p : R) :
  0 < b -> 0 < c -> b * c = p * p -> 0 < p -> sqrt b * sqrt c = p.
Proof.
  intros Hb Hc Hbc Hp. rewrite <- sqrt_mult by lra. rewrite Hbc.
  apply sqrt_square. lra.
Qed.

Lemma acos_ratio_third (a b c : R) :
  a = 2 -> 0 < b -> 0 < c -> b * c = 16 ->
  acos (a / sqrt b / sqrt c) = PI / 3.
Proof.
  intros -> Hb Hc Hbc.
  assert (Hs : sqrt b * sqrt c = 4) by (apply sqrt_prod; lra).
  assert (Hsb : 0 < sqrt b) by now apply sqrt_lt_R0.
  assert (Hsc : 0 < sqrt c) by now apply sqrt_lt_R0.
  replace (2 / sqrt b / sqrt c) with (2 / (sqrt b * sqrt c))
    by (field; lra).
  rewrite Hs. replace (2 / 4) with (1 / 2) by field. apply acos_half.
Qed.

Lemma acos_ratio_quarter (a b c : R) :
  a = 2 -> 0 < b -> 0 < c -> b * c = 8 ->
  acos (a / sqrt b / sqrt c) = PI / 4.
Proof.
  intros -> Hb Hc Hbc.
  assert (H2 : 0 < sqrt 2) by (apply sqrt_lt_R0; lra).
  assert (H22 : sqrt 2 * sqrt 2 = 2) by (apply sqrt_sqrt; lra).
  assert (Hs : sqrt b * sqrt c = 2 * sqrt 2).
  { apply sqrt_prod; try lra; nra. }
  assert (Hsb : 0 < sqrt b) by now apply sqrt_lt_R0.
  assert (Hsc : 0 < sqrt c) by now apply sqrt_lt_R0.
  replace (2 / sqrt b / sqrt c) with (2 / (sqrt b * sqrt c))
    by (field; lra).
  rewrite Hs. replace (2 / (2 * sqrt 2)) with (/ sqrt 2) by (field; lra).
  apply acos_inv_sqrt2.
Qed.

Lemma dot_Normalize (a b : vec3) :
  dot (Normalize a) (Normalize b) = / norm a * / norm b * dot a b.
Proof. unfold Normalize, dot, vscale; simpl; ring. Qed.

Lemma Normalize2_form (g : mat2) (v : vec2) :
  0 < dot2 v v ->
  dot2 (Normalize2 v) (mulv2 g (Normalize2 v))
  = dot2 v (mulv2 g v) / dot2 v v.
Proof.
  intro Hv.
  assert (Hs : 0 < sqrt (dot2 v v)) by now apply sqrt_lt_R0.
  assert (Hss : sqrt (dot2 v v) * sqrt (dot2 v v) = dot2 v v)
    by (apply sqrt_sqrt; lra).
  transitivity (dot2 v (mulv2 g v)
                / (sqrt (dot2 v v) * sqrt (dot2 v v)));
    [| now rewrite Hss].
  unfold Normalize2, mulv2, dot2 in *; cbn [ux uy] in *.
  set (s := sqrt (ux v * ux v + uy v * uy v)) in *.
  field. lra.
Qed.

(** ** A derivative *)

Lemma derivable_pt_lim_value (f : R -> R) (x l1 l2 : R) :
  l1 = l2 -> derivable_pt_lim f x l1 -> derivable_pt_lim f x l2.
Proof. now intros ->. Qed.

(** The derivative at 0 of s |-> (a + e s) / sqrt ((b + s)^2 + c^2). *)
Lemma derivable_ratio_norm (a e b c : R) :
  0 < b * b + c * c ->
  derivable_pt_lim
    (fun s => (a + e * s) / sqrt ((b + s) * (b + s) + c * c)) 0
    ((e * (b * b + c * c) - a * b)
     / ((b * b + c * c) * sqrt (b * b + c * c))).
Proof.
  intro Hpos.
  set (rho := sqrt (b * b + c * c)).
  assert (Hrho : 0 < rho) by (apply sqrt_lt_R0; lra).
  assert (Hrr : rho * rho = b * b + c * c) by (apply sqrt_sqrt; lra).
  set (num := (fct_cte a + mult_real_fct e id)%F).
  set (quad := ((fct_cte b + id) * (fct_cte b + id) + fct_cte (c * c))%F).
  assert (Hnum : derivable_pt_lim num 0 (0 + e * 1)).
  { apply derivable_pt_lim_plus; [apply derivable_pt_lim_const |].
    apply derivable_pt_lim_scal, derivable_pt_lim_id. }
  assert (Hlin : derivable_pt_lim (fct_cte b + id)%F 0 (0 + 1)).
  { apply derivable_pt_lim_plus;
      [apply derivable_pt_lim_const | apply derivable_pt_lim_id]. }
  assert (Hquad : derivable_pt_lim quad 0
            ((0 + 1) * (fct_cte b + id)%F 0
             + (fct_cte b + id)%F 0 * (0 + 1) + 0)).
  { apply derivable_pt_lim_plus; [| apply derivable_pt_lim_const].
    now apply derivable_pt_lim_mult. }
  assert (Hq0 : quad 0 = b * b + c * c).
  { unfold quad, plus_fct, mult_fct, fct_cte, id. ring. }
  assert (Hden : derivable_pt_lim (comp sqrt quad) 0
            (/ (2 * sqrt (quad 0))
             * ((0 + 1) * (fct_cte b + id)%F 0
                + (fct_cte b + id)%F 0 * (0 + 1) + 0))).
  { apply derivable_pt_lim_comp; [exact Hquad |].
    apply derivable_pt_lim_sqrt. rewrite Hq0. exact Hpos. }
  assert (Hd0 : comp sqrt quad 0 = rho).
  { unfold comp. now rewrite Hq0. }
  assert (Hn0 : num 0 = a).
  { unfold num, plus_fct, mult_real_fct, fct_cte, id. ring. }
  apply (derivable_pt_lim_ext (num / comp sqrt quad)%F).
  { intro s. unfold div_fct, num, quad, comp, plus_fct, mult_fct,
      mult_real_fct, fct_cte, id. reflexivity. }
  eapply derivable_pt_lim_value;
    [| apply (derivable_pt_lim_div num (comp sqrt quad) 0 _ _ Hnum Hden)].
  - rewrite Hd0, Hn0, Hq0. fold rho.
    unfold Rsqr, plus_fct, fct_cte, id. rewrite <- Hrr. field. lra.
  - rewrite Hd0. lra.
Qed.

(** ** Sums by element, integrals of sums *)

Lemma sum_range_indicator (m k : nat) (c : R) :
  (k < m)%nat ->
  sum_range m (fun e => if Nat.eqb k e then c else 0) = c.
Proof.
  intro Hk.
  rewrite (sum_range_ext m _ (fun e => c * kron e k)).
  - rewrite (sum_range_kron m k (fun _ => c)) by exact Hk. reflexivity.
  - intros i _. unfold kron. rewrite Nat.eqb_sym.
    destruct (Nat.eqb i k); ring.
Qed.

Lemma sum_list_by_element {A : Type} (l : list A) (elem : A -> nat)
  (m : nat) (g : A -> R) :
  (forall a, In a l -> (elem a < m)%nat) ->
  sum_list l g
  = sum_range m (fun e =>
      sum_list (filter (fun a => Nat.eqb (elem a) e) l) g).
Proof.
  induction l as [| a l IH]; intro Hin.
  - cbn. symmetry. apply sum_range_zero. reflexivity.
  - cbn [sum_list filter].
    rewrite (sum_range_ext m _
      (fun e => (if Nat.eqb (elem a) e then g a else 0)
                + sum_list (filter (fun a0 => Nat.eqb (elem a0) e) l) g)).
    + rewrite sum_range_plus, sum_range_indicator
        by (apply Hin; now left).
      rewrite <- IH by (intros b Hb; apply Hin; now right). reflexivity.
    + intros e _. destruct (Nat.eqb (elem a) e); cbn [sum_list]; ring.
Qed.

Lemma integrate_scal {Pt : Type} (r : Rule Pt) (c : R) (g : Pt -> R) :
  integrate r (fun q => c * g q) = c * integrate r g.
Proof.
  unfold integrate. rewrite <- sum_list_scal. apply sum_list_ext.
  intros wq _. ring.
Qed.

Lemma integrate_range_swap {Pt : Type} (r : Rule Pt) (n : nat)
  (g : Pt -> nat -> R) :
  integrate r (fun q => sum_range n (fun j => g q j))
  = sum_range n (fun j => integrate r (fun q => g q j)).
Proof.
  unfold integrate. rewrite <- sum_list_range_swap.
  apply sum_list_ext. intros wq _. now rewrite sum_range_scal.
Qed.

Lemma integrate_filter_by_element {Pt : Type} (r : Rule Pt)
  (elem : Pt -> nat) (m : nat) (g : Pt -> R) :
  (forall wq, In wq r -> (elem (snd wq) < m)%nat) ->
  integrate r g
  = sum_range m (fun e =>
      integrate (filter (fun wq => Nat.eqb (elem (snd wq)) e) r) g).
Proof.
  intro H. unfold integrate.
  apply (sum_list_by_element r (fun wq => elem (snd wq)) m); exact H.
Qed.

Lemma integrate_weighted {Pt : Type} (w : R) (l : list Pt) (g : Pt -> R) :
  integrate (map (fun q => (w, q)) l) g = w * sum_list l g.
Proof.
  unfold integrate. induction l as [| a l IH]; cbn [map sum_list fst snd].
  - ring.
  - rewrite IH. ring.
Qed.

Lemma in_map_snd {A : Type} (w : R) (l : list A) (wq : R * A) :
  In wq (map (fun q => (w, q)) l) -> In (snd wq) l.
Proof.
  intro H. apply in_map_iff in H. destruct H as (q & <- & Hq). exact Hq.
Qed.

(** ** Solving on the free dofs *)

Lemma Inverse_solves (n : nat) (A Ainv : BaseMatrix) (free : nat -> bool)
  (b : BaseVector) (i : nat) :
  Inverse_spec n A free Ainv -> (i < n)%nat -> free i = true ->
  mat_vec n A (mat_vec n Ainv b) i = b i.
Proof.
  intros [Hzero Hinv] Hi Hfree. unfold mat_vec.
  rewrite (sum_range_ext n _
    (fun j => sum_range n (fun k => b k * (A i j * Ainv j k)))).
  2:{ intros j _. rewrite <- sum_range_scal. apply sum_range_ext.
      intros k _. ring. }
  rewrite sum_range_swap.
  rewrite (sum_range_ext n _ (fun k => b k * kron k i)).
  - now apply sum_range_kron.
  - intros k Hk. rewrite sum_range_scal. f_equal.
    destruct (free k) eqn:Hfk.
    + rewrite (Hinv i k Hi Hk Hfree Hfk). unfold kron.
      rewrite Nat.eqb_sym. reflexivity.
    + rewrite sum_range_zero.
      * unfold kron. destruct (Nat.eqb_spec k i) as [-> | _];
          [congruence | reflexivity].
      * intros j _. rewrite (Hzero j k) by now right. ring.
Qed.

Lemma Inverse_zero_rows (n : nat) (A Ainv : BaseMatrix) (free : nat -> bool)
  (b : BaseVector) (i : nat) :
  Inverse_spec n A free Ainv -> free i = false ->
  mat_vec n Ainv b i = 0.
Proof.
  intros [Hzero _] Hfree. unfold mat_vec. apply sum_range_zero.
  intros j _. rewrite (Hzero i j) by now left. ring.
Qed.

Lemma FreeDofs_none {Pt Val : Type} (V : FESpace Pt Val) (i : nat) :
  FreeDofs V dirichlet_none i = true.
Proof.
  unfold FreeDofs, dirichlet_none.
  induction (dof_boundaries V i) as [| a l IH]; [reflexivity | exact IH].
Qed.

Lemma FreeDofs_all {Pt Val : Type} (V : FESpace Pt Val) (i : nat) :
  FreeDofs V dirichlet_all i = true <-> dof_boundaries V i = [].
Proof.
  unfold FreeDofs, dirichlet_all.
  destruct (dof_boundaries V i) as [| a l]; cbn; split;
    intro H; try reflexivity; discriminate.
Qed.

Lemma diagonal_inverse_spec (n : nat) (A : BaseMatrix) (free : nat -> bool) :
  (forall i j, (i < n)%nat -> (j < n)%nat -> i <> j -> A i j = 0) ->
  (forall i, (i < n)%nat -> A i i <> 0) ->
  Inverse_spec n A free (diagonal_inverse n A free).
Proof.
  intros Hoff Hdiag. split.
  - intros i j [Hi | Hj]; unfold diagonal_inverse.
    + now rewrite Hi.
    + destruct (Nat.eqb_spec i j) as [-> | _].
      * now rewrite Hj.
      * now rewrite andb_false_r.
  - intros i k Hi Hk Hfi Hfk.
    rewrite (sum_range_ext n _ (fun j => (A i k * / A k k) * kron j k)).
    + rewrite (sum_range_kron n k (fun _ => A i k * / A k k)) by exact Hk.
      unfold kron. destruct (Nat.eqb_spec i k) as [-> | Hne].
      * field. now apply Hdiag.
      * rewrite (Hoff i k Hi Hk Hne). ring.
    + intros j Hj. unfold diagonal_inverse, kron.
      destruct (Nat.eqb_spec j k) as [-> | _].
      * rewrite Hfk. cbn. ring.
      * rewrite andb_false_r. ring.
Qed.

(** The inverse on a single free dof. *)
Lemma diagonal_inverse_single (n : nat) (A : BaseMatrix)
  (free : nat -> bool) (k : nat) :
  (forall i, free i = true -> i = k) -> A k k <> 0 ->
  Inverse_spec n A free (diagonal_inverse n A free).
Proof.
  intros Hone Hk. split.
  - intros i j [Hi | Hj]; unfold diagonal_inverse.
    + now rewrite Hi.
    + destruct (Nat.eqb_spec i j) as [-> | _].
      * now rewrite Hj.
      * now rewrite andb_false_r.
  - intros i k' Hi Hk' Hfi Hfk'.
    apply Hone in Hfi as Hik. apply Hone in Hfk' as Hkk. subst i k'.
    rewrite (sum_range_ext n _ (fun j => (A k k * / A k k) * kron j k)).
    + rewrite (sum_range_kron n k (fun _ => A k k * / A k k)) by exact Hi.
      unfold kron. rewrite Nat.eqb_refl. now field.
    + intros j Hj. unfold diagonal_inverse, kron.
      destruct (Nat.eqb_spec j k) as [-> | _].
      * rewrite Hfk'. cbn. ring.
      * rewrite andb_false_r. ring.
Qed.

(** ** Extrinsic curvature of smooth surfaces *)

Module ExtrinsicFacts.
Import Extrinsic.

Section Surface.
Variables (Pt Mesh : Type).
Variable normal3 : Pt -> vec3.
Variable Grad : (Pt -> vec3) -> Pt -> mat3.

Let result (mesh : Mesh) := ExtrinsicCurvatureSmooth normal3 Grad mesh.

(** C3. The four fields returned by [ExtrinsicCurvatureSmooth] are, at
    every point [p] of every mesh: the mean curvature H = trace(W)/2, the
    Gauss curvature K = det(W + nu (x) nu), and the principal curvatures
    k1 = H + sqrt(H^2 - K), k2 = H - sqrt(H^2 - K), where W is the surface
    gradient of the normal nu; and K is the field of [GaussCurvature]. *)
Theorem ExtrinsicCurvatureSmooth_fields (mesh : Mesh) (p : Pt) :
  let W := Weingarten Grad normal3 in
  let nu := normal3 in
  let H := ret_H (result mesh) in
  let K := ret_K (result mesh) in
  let k1 := ret_k1 (result mesh) in
  let k2 := ret_k2 (result mesh) in
  H p = (m00 (W p) + m11 (W p) + m22 (W p)) / 2 /\
  K p = Det (madd (W p) (OuterProduct (nu p) (nu p))) /\
  K p = GaussCurvature normal3 Grad p /\
  k1 p = H p + sqrt (H p * H p - K p) /\
  k2 p = H p - sqrt (H p * H p - K p).
Proof.
  unfold result, ExtrinsicCurvatureSmooth, GaussCurvature, Weingarten,
    ret_H, ret_K, ret_k1, ret_k2; cbn [fst snd].
  repeat split.
  - unfold Trace. lra.
  - f_equal. f_equal. ring.
  - f_equal. f_equal. ring.
Qed.

(** C10. Wherever H^2 >= K, the returned k1 and k2 are exactly the roots
    of lambda^2 - 2 H lambda + K = 0, with k2 <= k1, k1 + k2 = 2 H and
    k1 k2 = K. *)
Theorem principal_curvatures_roots (mesh : Mesh) (p : Pt) :
  let H := ret_H (result mesh) in
  let K := ret_K (result mesh) in
  let k1 := ret_k1 (result mesh) in
  let k2 := ret_k2 (result mesh) in
  K p <= H p * H p ->
  (forall lam : R,
      lam * lam - 2 * H p * lam + K p = 0 <-> lam = k1 p \/ lam = k2 p) /\
  k1 p = H p + sqrt (H p * H p - K p) /\
  k2 p = H p - sqrt (H p * H p - K p) /\
  k2 p <= k1 p /\
  k1 p + k2 p = 2 * H p /\
  k1 p * k2 p = K p.
Proof.
  unfold result, ExtrinsicCurvatureSmooth, ret_H, ret_K, ret_k1, ret_k2;
    cbn [fst snd].
  set (H := 0.5 * Trace (Grad normal3 p)).
  set (K := Det (madd (Grad normal3 p)
                      (OuterProduct (normal3 p) (normal3 p)))).
  intro Hd.
  replace (H ^ 2) with (H * H) by ring.
  assert (Hs0 : 0 <= sqrt (H * H - K)) by apply sqrt_pos.
  assert (Hss : sqrt (H * H - K) * sqrt (H * H - K) = H * H - K)
    by (apply sqrt_times_self; lra).
  set (s := sqrt (H * H - K)) in *.
  split; [| repeat split; nra].
  intro lam; split.
  - intro Hq.
    assert (Hf : (lam - (H + s)) * (lam - (H - s)) = 0) by nra.
    apply Rmult_integral in Hf. destruct Hf; [left | right]; lra.
  - intros [-> | ->]; nra.
Qed.

(** C8. Where the Weingarten tensor vanishes (a flat region), the field
    returned by [GaussCurvature] is 0, whatever the normal is; the
    function is one determinant expression with no case distinction. *)
Theorem GaussCurvature_flat (p : Pt) :
  Weingarten Grad normal3 p = mzero ->
  GaussCurvature normal3 Grad p = 0 /\
  GaussCurvature normal3 Grad p
  = Det (madd (Grad normal3 p) (OuterProduct (normal3 p) (normal3 p))).
Proof.
  unfold Weingarten, GaussCurvature. intro HW. split; [| reflexivity].
  rewrite HW, madd_mzero_l. apply Det_outer_self.
Qed.

End Surface.

(** The Weingarten tensor of the cylinder is the surface gradient of its
    normal. *)
Lemma cylinder_Weingarten_is_surface_gradient (r : R) (p : vec3) :
  0 < r -> on_cylinder r p ->
  cylinder_normal_field p = cylinder_normal r p /\
  surface_gradient_at cylinder_normal_field (cylinder_normal r p) p
    (cylinder_Weingarten r p).
Proof.
  intros Hr Hp. unfold on_cylinder in Hp.
  destruct p as [x y z]. cbn [vx vy vz] in Hp.
  assert (Hpos : 0 < y * y + z * z) by nra.
  assert (Hpos' : 0 < z * z + y * y) by nra.
  assert (Hrho : sqrt (y * y + z * z) = r).
  { rewrite Hp. apply sqrt_square. lra. }
  assert (Hrho' : sqrt (z * z + y * y) = r).
  { rewrite Rplus_comm. exact Hrho. }
  split.
  { unfold cylinder_normal_field, cylinder_normal; cbn [vx vy vz].
    now rewrite Hrho. }
  exists (V3 0 0 0),
         (V3 0 ((1 * (y * y + z * z) - y * y)
                / ((y * y + z * z) * sqrt (y * y + z * z)))
               ((0 * (z * z + y * y) - y * z)
                / ((z * z + y * y) * sqrt (z * z + y * y)))),
         (V3 0 ((0 * (y * y + z * z) - z * y)
                / ((y * y + z * z) * sqrt (y * y + z * z)))
               ((1 * (z * z + y * y) - z * z)
                / ((z * z + y * y) * sqrt (z * z + y * y)))).
  split; [| split; [| split]].
  - repeat split; cbn; apply (derivable_pt_lim_const 0).
  - repeat split; cbn [vx vy vz].
    + apply (derivable_pt_lim_const (y / sqrt (y * y + z * z))).
    + apply (derivable_pt_lim_ext
               (fun s => (y + 1 * s) / sqrt ((y + s) * (y + s) + z * z))).
      * intro s. cbn. now rewrite Rmult_1_l.
      * now apply derivable_ratio_norm.
    + apply (derivable_pt_lim_ext
               (fun s => (y + 0 * s) / sqrt ((z + s) * (z + s) + y * y))).
      * intro s. cbn. rewrite Rmult_0_l, Rplus_0_r. f_equal. f_equal. ring.
      * now apply derivable_ratio_norm.
  - repeat split; cbn [vx vy vz].
    + apply (derivable_pt_lim_const (z / sqrt (y * y + z * z))).
    + apply (derivable_pt_lim_ext
               (fun s => (z + 0 * s) / sqrt ((y + s) * (y + s) + z * z))).
      * intro s. cbn. rewrite Rmult_0_l, Rplus_0_r. reflexivity.
      * now apply derivable_ratio_norm.
    + apply (derivable_pt_lim_ext
               (fun s => (z + 1 * s) / sqrt ((z + s) * (z + s) + y * y))).
      * intro s. cbn. rewrite Rmult_1_l. f_equal. f_equal. ring.
      * now apply derivable_ratio_norm.
  - rewrite Hrho, Hrho'.
    unfold cylinder_Weingarten, cylinder_normal, rows, mulv, projection;
      cbn [vx vy vz m00 m01 m02 m10 m11 m12 m20 m21 m22].
    assert (Hz : z * z = r * r - y * y) by lra.
    replace (z * z + y * y) with (r * r) by lra. rewrite Hp.
    f_equal; try ring; field_simplify_eq; try lra.
    + replace (r ^ 4) with (r * r * (r * r)) by ring.
      replace (r ^ 2) with (r * r) by ring. rewrite <- Hp. ring.
    + replace (r ^ 2) with (r * r) by ring. rewrite <- Hp. ring.
    + replace (r ^ 2) with (r * r) by ring. rewrite <- Hp. ring.
    + replace (r ^ 4) with (r * r * (r * r)) by ring.
      replace (r ^ 2) with (r * r) by ring. rewrite <- Hp. ring.
Qed.

Lemma gradient_unique (f : vec3 -> R) (p g1 g2 : vec3) :
  gradient_at f p g1 -> gradient_at f p g2 -> g1 = g2.
Proof.
  intros (Hx1 & Hy1 & Hz1) (Hx2 & Hy2 & Hz2).
  destruct g1 as [a1 b1 c1], g2 as [a2 b2 c2]. cbn [vx vy vz] in *.
  f_equal; eapply uniqueness_limite; eassumption.
Qed.

Lemma surface_gradient_unique (u : vec3 -> vec3) (nu p : vec3)
  (W1 W2 : mat3) :
  surface_gradient_at u nu p W1 -> surface_gradient_at u nu p W2 -> W1 = W2.
Proof.
  intros (a1 & a2 & a3 & Ha1 & Ha2 & Ha3 & ->)
         (b1 & b2 & b3 & Hb1 & Hb2 & Hb3 & ->).
  now rewrite (gradient_unique _ _ _ _ Ha1 Hb1),
    (gradient_unique _ _ _ _ Ha2 Hb2), (gradient_unique _ _ _ _ Ha3 Hb3).
Qed.

(** The curvature fields on a cylinder of radius [r], wherever [Grad]
    returns the surface gradient of the cylinder's normal. *)
Lemma cylinder_H_K (Mesh : Type) (Grad : (vec3 -> vec3) -> vec3 -> mat3)
  (mesh : Mesh) (r : R) (p : vec3) :
  0 < r -> on_cylinder r p ->
  Grad (cylinder_normal r) p = cylinder_Weingarten r p ->
  let res := ExtrinsicCurvatureSmooth (cylinder_normal r) Grad mesh in
  ret_H res p = 1 / (2 * r) /\ ret_K res p = 0.
Proof.
  intros Hr Hp HG.
  unfold ExtrinsicCurvatureSmooth, ret_H, ret_K; cbn [fst snd].
  rewrite HG. unfold on_cylinder in Hp.
  unfold cylinder_Weingarten, cylinder_normal, Trace, Det, madd,
    OuterProduct; cbn [vx vy vz m00 m01 m02 m10 m11 m12 m20 m21 m22].
  assert (Hr0 : r <> 0) by lra.
  split.
  - field_simplify_eq; [| assumption]. nra.
  - ring.
Qed.

(** C5 (amended).  On a cylinder of radius [r > 0] with its outward
    normal, at every point where [Grad] returns the surface gradient of
    the normal, [ExtrinsicCurvatureSmooth] returns H = 1/(2r), K = 0, and
    the principal curvatures in decreasing order: k1 = 1/r, k2 = 0. *)
Theorem cylinder_curvatures (Mesh : Type)
  (Grad : (vec3 -> vec3) -> vec3 -> mat3) (mesh : Mesh) (r : R) (p : vec3) :
  0 < r -> on_cylinder r p ->
  surface_gradient_at cylinder_normal_field (cylinder_normal r p) p
    (Grad (cylinder_normal r) p) ->
  let res := ExtrinsicCurvatureSmooth (cylinder_normal r) Grad mesh in
  ret_H res p = 1 / (2 * r) /\ ret_K res p = 0 /\
  ret_k1 res p = 1 / r /\ ret_k2 res p = 0.
Proof.
  intros Hr Hp Hgrad res.
  assert (HG : Grad (cylinder_normal r) p = cylinder_Weingarten r p).
  { apply (surface_gradient_unique _ _ _ _ _ Hgrad).
    now apply cylinder_Weingarten_is_surface_gradient. }
  destruct (cylinder_H_K Mesh Grad mesh r p Hr Hp HG) as [HH HK].
  fold res in HH, HK.
  assert (Hk1 : ret_k1 res p
                = ret_H res p + sqrt (ret_H res p ^ 2 - ret_K res p))
    by reflexivity.
  assert (Hk2 : ret_k2 res p
                = ret_H res p - sqrt (ret_H res p ^ 2 - ret_K res p))
    by reflexivity.
  assert (Hs : sqrt (ret_H res p ^ 2 - ret_K res p) = 1 / (2 * r)).
  { rewrite HH, HK, Rminus_0_r. apply sqrt_sq_nonneg.
    apply Rlt_le, Rdiv_lt_0_compat; lra. }
  repeat split; try assumption.
  - rewrite Hk1, Hs, HH. field. lra.
  - rewrite Hk2, Hs, HH. field. lra.
Qed.

(** Witness: the notebook's cylinder, radius 2. *)
Lemma cylinder_curvatures_witness :
  let res := ExtrinsicCurvatureSmooth cyl2_normal cyl2_Grad tt in
  ret_H res cyl2_point = 1 / (2 * 2) /\ ret_K res cyl2_point = 0 /\
  ret_k1 res cyl2_point = 1 / 2 /\ ret_k2 res cyl2_point = 0.
Proof.
  assert (H2 : 0 < 2) by lra.
  assert (Hc : on_cylinder 2 cyl2_point)
    by (unfold on_cylinder, cyl2_point; simpl; lra).
  apply (cylinder_curvatures unit cyl2_Grad tt 2 cyl2_point H2 Hc).
  now apply cylinder_Weingarten_is_surface_gradient.
Defined.

(** C5 (as stated) fails on the notebook's cylinder: the first returned
    principal curvature is 1/2 there, not 0. *)
Lemma cylinder_k1_is_not_zero :
  let res := ExtrinsicCurvatureSmooth cyl2_normal cyl2_Grad tt in
  ~ (ret_k1 res cyl2_point = 0 /\ ret_k2 res cyl2_point = 1 / 2 /\
     ret_K res cyl2_point = 0 /\ ret_H res cyl2_point = 1 / (2 * 2)).
Proof.
  intros res [Hk1 _].
  assert (Hc : on_cylinder 2 cyl2_point)
    by (unfold on_cylinder, cyl2_point; simpl; lra).
  assert (H2 : 0 < 2) by lra.
  destruct (cylinder_H_K unit cyl2_Grad tt 2 cyl2_point H2 Hc eq_refl)
    as [HH HK].
  unfold res, ExtrinsicCurvatureSmooth, ret_k1 in Hk1; cbn [fst snd] in Hk1.
  unfold ExtrinsicCurvatureSmooth, ret_H, ret_K in HH, HK;
    cbn [fst snd] in HH, HK.
  unfold cyl2_normal in Hk1. rewrite HH in Hk1.
  pose proof (sqrt_pos ((1 / (2 * 2)) ^ 2
     - Det (madd (cyl2_Grad (cylinder_normal 2) cyl2_point)
         (OuterProduct (cylinder_normal 2 cyl2_point)
            (cylinder_normal 2 cyl2_point))))).
  lra.
Qed.

(** Witness for C10: the notebook's cylinder. *)
Lemma principal_curvatures_roots_witness :
  let res := ExtrinsicCurvatureSmooth cyl2_normal cyl2_Grad tt in
  ret_K res cyl2_point <= ret_H res cyl2_point * ret_H res cyl2_point /\
  ret_k2 res cyl2_point <= ret_k1 res cyl2_point /\
  ret_k1 res cyl2_point + ret_k2 res cyl2_point = 2 * ret_H res cyl2_point /\
  ret_k1 res cyl2_point * ret_k2 res cyl2_point = ret_K res cyl2_point.
Proof.
  intro res.
  assert (Hd : ret_K res cyl2_point
               <= ret_H res cyl2_point * ret_H res cyl2_point).
  { assert (Hc : on_cylinder 2 cyl2_point)
      by (unfold on_cylinder, cyl2_point; simpl; lra).
    assert (H2 : 0 < 2) by lra.
    destruct (cylinder_H_K unit cyl2_Grad tt 2 cyl2_point H2 Hc eq_refl)
      as [HH HK].
    unfold res, cyl2_normal. rewrite HH, HK. lra. }
  split; [exact Hd |].
  destruct (principal_curvatures_roots vec3 unit cyl2_normal cyl2_Grad tt
              cyl2_point Hd) as (_ & _ & _ & Hle & Hsum & Hprod).
  auto.
Defined.

(** Witness for C8: a flat end of the cylinder box. *)
Lemma GaussCurvature_flat_witness :
  Weingarten cap_Grad cap_normal cap_point = mzero /\
  GaussCurvature cap_normal cap_Grad cap_point = 0.
Proof.
  split; [reflexivity |].
  apply (GaussCurvature_flat vec3 cap_normal cap_Grad cap_point).
  reflexivity.
Defined.

End ExtrinsicFacts.

(** ** The generalized Weingarten functional: edge form and
       element-boundary form *)

Module WeingartenFacts.
Import SurfaceLift.

Section Edges.
Context {L : SurfaceFE}.
Variable mesh : Mesh.
Variable lifting_order : nat.

(** The two contributions of the element-boundary form at an interior edge
    point add up to the signed angle of the normals times sigma_mu_mu. *)
Lemma boundary_integrand_pair (sigma : Pt -> mat3) (e : EdgePoint) :
  interior_edge_point mesh lifting_order e ->
  continuous_sigma_mu_mu sigma e ->
  Weingarten_boundary_integrand mesh lifting_order sigma (eplus e)
  + Weingarten_boundary_integrand mesh lifting_order sigma (eminus e)
  = signed_normal_angle mesh lifting_order e
    * InnerProduct (OuterProduct (mu (eplus e)) (mu (eplus e)))
        (sigma (eplus e)).
Proof.
  intros (Hp & Hm & Ht & Hpt & Hmt & Htm & Hc & Hap & Ham) Hcont.
  unfold continuous_sigma_mu_mu in Hcont.
  unfold Weingarten_boundary_integrand.
  rewrite outer_inner_bilin, <- Hcont, Hap, Ham.
  unfold signed_normal_angle, normal_angle. rewrite Hap.
  set (s := bilin (sigma (eplus e)) (mu (eplus e)) (mu (eplus e))).
  unfold mu. rewrite Htm.
  destruct (fold_conormal_cosine _ _ _ Hp Hm Ht Hpt Hmt Hc)
    as (Hsame & Hsq & Hc1 & Hsign).
  cbv zeta in Hsame, Hsq, Hsign. rewrite Hsame.
  set (a := dot (Normalize (vscale (/ 2)
                   (vadd (normal3 (eplus e)) (normal3 (eminus e)))))
                (Cross (normal3 (eplus e)) (tangential3 (eplus e)))) in *.
  destruct (acos_half_angle a _ (conj Hc Hc1) Hsq) as [Hpos Hneg].
  destruct (Rle_dec 0 _) as [Hge | Hlt].
  - apply Hsign in Hge. rewrite <- (Hpos Hge). ring.
  - assert (Ha : a <= 0).
    { destruct (Rle_lt_dec 0 a) as [Ha | Ha]; [| lra].
      apply Hsign in Ha. contradiction. }
    rewrite <- (Hneg Ha). ring.
Qed.

(** On a boundary edge of the surface the element-boundary term vanishes:
    the normal is orthogonal to the co-normal. *)
Lemma boundary_integrand_outer (sigma : Pt -> mat3) (q : Pt) :
  boundary_edge_point mesh lifting_order q ->
  Weingarten_boundary_integrand mesh lifting_order sigma q = 0.
Proof.
  unfold boundary_edge_point, Weingarten_boundary_integrand. intros ->.
  unfold Normalize, mu. rewrite dot_vscale_l, dot_self_cross, Rmult_0_r.
  rewrite acos_0. ring.
Qed.

Lemma integrate_both_sides (edges : list EdgePoint) (g : Pt -> R) :
  integrate (both_sides edges) g
  = sum_list edges (fun e => ewgt e * (g (eplus e) + g (eminus e))).
Proof.
  unfold integrate, both_sides.
  induction edges as [| e edges IH]; [reflexivity |].
  cbn [flat_map app sum_list fst snd]. rewrite IH. ring.
Qed.

(** The code's sources equal the edge form with the signed angle. *)
Lemma sources_signed_edge_form (edges : list EdgePoint) (outer : Rule Pt)
  (sigma : Pt -> mat3) :
  Permutation (ds_element_boundary mesh lifting_order)
              (both_sides edges ++ outer) ->
  (forall e, In e edges ->
     interior_edge_point mesh lifting_order e /\
     continuous_sigma_mu_mu sigma e) ->
  (forall wq, In wq outer ->
     boundary_edge_point mesh lifting_order (snd wq)) ->
  Weingarten_sources mesh lifting_order sigma
  = Weingarten_signed_edge_form mesh lifting_order edges sigma.
Proof.
  intros Hperm Hedges Houter.
  unfold Weingarten_sources, Weingarten_signed_edge_form.
  f_equal.
  rewrite (integrate_perm _ _ _ Hperm), integrate_app.
  rewrite (integrate_zero outer).
  2:{ intros wq Hwq. apply boundary_integrand_outer. now apply Houter. }
  rewrite Rplus_0_r, integrate_both_sides.
  apply sum_list_ext. intros e He.
  destruct (Hedges e He) as [Hint Hcont].
  now rewrite (boundary_integrand_pair sigma e Hint Hcont).
Qed.

(** C6 (amended).  On a mesh whose element-boundary rule visits every
    interior edge point from both sides, for a test tensor with single
    valued sigma_mu_mu, the element-boundary form that
    [GeneralizedWeingarten] assembles equals the edge form with the signed
    angle of the normals; it equals the edge form of the spec, with the
    angle acos(nu_+ . nu_-), when on every edge the co-normal does not
    point against the averaged normal. *)
Theorem Weingarten_boundary_form_vs_edge_form
  (edges : list EdgePoint) (outer : Rule Pt) (sigma : Pt -> mat3) :
  Permutation (ds_element_boundary mesh lifting_order)
              (both_sides edges ++ outer) ->
  (forall e, In e edges ->
     interior_edge_point mesh lifting_order e /\
     continuous_sigma_mu_mu sigma e) ->
  (forall wq, In wq outer ->
     boundary_edge_point mesh lifting_order (snd wq)) ->
  Weingarten_sources mesh lifting_order sigma
  = Weingarten_signed_edge_form mesh lifting_order edges sigma /\
  ((forall e, In e edges -> conormal_along_average mesh lifting_order e) ->
   Weingarten_sources mesh lifting_order sigma
   = Weingarten_edge_form mesh lifting_order edges sigma).
Proof.
  intros Hperm Hedges Houter.
  pose proof (sources_signed_edge_form edges outer sigma Hperm Hedges Houter)
    as Hsigned.
  split; [exact Hsigned |].
  intro Hconv. rewrite Hsigned.
  unfold Weingarten_signed_edge_form, Weingarten_edge_form. f_equal.
  apply sum_list_ext. intros e He.
  unfold signed_normal_angle.
  destruct (Rle_dec 0 _) as [_ | Hn]; [reflexivity |].
  exfalso. apply Hn. now apply Hconv.
Qed.

End Edges.

(** The two squares meeting at a right angle, [h = 1] or [h = -1]. *)

Lemma fold_rule_split (h : R) :
  Permutation (ds_element_boundary (SurfaceFE := fold_FE h) tt 0%nat)
    (both_sides [fold_edge h] ++ fold_outer_points h).
Proof. apply Permutation_refl. Qed.

Lemma fold_edge_interior (h : R) :
  h * h = 1 ->
  forall e, In e [fold_edge h] ->
    interior_edge_point (L := fold_FE h) tt 0%nat e /\
    continuous_sigma_mu_mu (L := fold_FE h) (fold_sigma h) e.
Proof.
  intros Hh e [<- | []]. split.
  - unfold interior_edge_point; cbn.
    unfold fold_normal, fold_tangential, dot, vopp; cbn.
    repeat split; try lra; f_equal; lra.
  - unfold continuous_sigma_mu_mu, mu; cbn.
    unfold fold_sigma, fold_normal, fold_tangential, bilin, dot, mulv, Cross,
      OuterProduct; cbn.
    ring_simplify. nra.
Qed.

Lemma fold_outer_boundary (h : R) :
  forall wq, In wq (fold_outer_points h) ->
    boundary_edge_point (L := fold_FE h) tt 0%nat (snd wq).
Proof.
  intros wq Hwq. unfold boundary_edge_point.
  repeat (destruct Hwq as [<- | Hwq]; [reflexivity |]). destruct Hwq.
Qed.

Lemma fold_average_sign (h : R) :
  dot (nu_avg (L := fold_FE h) tt 0%nat (eplus (fold_edge h)))
      (mu (L := fold_FE h) (eplus (fold_edge h))) = - h / 2.
Proof.
  unfold nu_avg, mu; cbn.
  unfold fold_normal, fold_tangential, dot, vscale, vadd, Cross; cbn. lra.
Qed.

Lemma fold_edge_sigma_mu_mu (h : R) :
  InnerProduct
    (OuterProduct (mu (L := fold_FE h) (eplus (fold_edge h)))
                  (mu (L := fold_FE h) (eplus (fold_edge h))))
    (fold_sigma h (eplus (fold_edge h))) = 1.
Proof.
  unfold mu; cbn.
  unfold fold_sigma, fold_normal, fold_tangential, InnerProduct, Cross,
    OuterProduct; cbn. ring.
Qed.

Lemma fold_normal_angle (h : R) :
  normal_angle (L := fold_FE h) (fold_edge h) = PI / 2.
Proof.
  unfold normal_angle; cbn. unfold fold_normal, dot; cbn.
  replace (0 * h + 1 * 0 + 0 * 0) with 0 by ring. apply acos_0.
Qed.

Lemma fold_element_part (h : R) :
  integrate (ds (SurfaceFE := fold_FE h) tt 0%nat)
    (fun q => InnerProduct (Grad (SurfaceFE := fold_FE h)
                              (normal3 (SurfaceFE := fold_FE h)) q)
                           (fold_sigma h q)) = 0.
Proof.
  apply integrate_zero. intros wq _. cbn.
  unfold InnerProduct, mzero; cbn. ring.
Qed.

(** Witness for C6 (amended): the wall hanging down from the floor. *)
Lemma Weingarten_boundary_form_vs_edge_form_witness :
  (forall e, In e [fold_edge (-1)] ->
     conormal_along_average (L := fold_FE (-1)) tt 0%nat e) /\
  Weingarten_sources (L := fold_FE (-1)) tt 0%nat (fold_sigma (-1))
  = Weingarten_edge_form (L := fold_FE (-1)) tt 0%nat [fold_edge (-1)]
      (fold_sigma (-1)).
Proof.
  assert (Hh : -1 * -1 = 1) by lra.
  assert (Hconv : forall e, In e [fold_edge (-1)] ->
            conormal_along_average (L := fold_FE (-1)) tt 0%nat e).
  { intros e [<- | []]. unfold conormal_along_average.
    rewrite fold_average_sign. lra. }
  split; [exact Hconv |].
  apply (Weingarten_boundary_form_vs_edge_form (L := fold_FE (-1)) tt 0%nat
           [fold_edge (-1)] (fold_outer_points (-1)) (fold_sigma (-1))
           (fold_rule_split (-1)) (fold_edge_interior (-1) Hh)
           (fold_outer_boundary (-1))).
  exact Hconv.
Defined.

(** C6 (as stated) fails where the wall stands up from the floor: the
    element-boundary form gives - pi/2 on the common edge, the edge form
    with the angle acos(nu_+ . nu_-) gives pi/2. *)
Lemma Weingarten_forms_differ_on_valley :
  Weingarten_sources (L := fold_FE 1) tt 0%nat (fold_sigma 1) = - (PI / 2) /\
  Weingarten_edge_form (L := fold_FE 1) tt 0%nat [fold_edge 1] (fold_sigma 1)
  = PI / 2 /\
  Weingarten_sources (L := fold_FE 1) tt 0%nat (fold_sigma 1)
  <> Weingarten_edge_form (L := fold_FE 1) tt 0%nat [fold_edge 1]
       (fold_sigma 1).
Proof.
  assert (Hh : 1 * 1 = 1) by lra.
  pose proof PI_RGT_0 as Hpi.
  assert (Hcode : Weingarten_sources (L := fold_FE 1) tt 0%nat (fold_sigma 1)
                  = - (PI / 2)).
  { rewrite (sources_signed_edge_form (L := fold_FE 1) tt 0%nat
               [fold_edge 1] (fold_outer_points 1) (fold_sigma 1)
               (fold_rule_split 1) (fold_edge_interior 1 Hh)
               (fold_outer_boundary 1)).
    unfold Weingarten_signed_edge_form. rewrite fold_element_part.
    cbn [sum_list]. rewrite fold_edge_sigma_mu_mu.
    unfold signed_normal_angle. rewrite fold_average_sign, fold_normal_angle.
    destruct (Rle_dec 0 _) as [Hge | _]; [lra |].
    unfold fold_edge; cbn [ewgt]; lra. }
  assert (Hspec : Weingarten_edge_form (L := fold_FE 1) tt 0%nat
                    [fold_edge 1] (fold_sigma 1) = PI / 2).
  { unfold Weingarten_edge_form. rewrite fold_element_part.
    cbn [sum_list]. rewrite fold_edge_sigma_mu_mu, fold_normal_angle.
    unfold fold_edge; cbn [ewgt]; lra. }
  repeat split; [exact Hcode | exact Hspec |].
  rewrite Hcode, Hspec. lra.
Qed.

End WeingartenFacts.

(** ** Angles of a triangle *)

Lemma ratio_bound (n a b : R) :
  0 < a -> 0 < b -> n * n <= a * b -> -1 <= n / sqrt a / sqrt b <= 1.
Proof.
  intros Ha Hb Hn.
  assert (Hsa : 0 < sqrt a) by now apply sqrt_lt_R0.
  assert (Hsb : 0 < sqrt b) by now apply sqrt_lt_R0.
  assert (Haa : sqrt a * sqrt a = a) by (apply sqrt_sqrt; lra).
  assert (Hbb : sqrt b * sqrt b = b) by (apply sqrt_sqrt; lra).
  set (s := sqrt a * sqrt b).
  assert (Hs : 0 < s) by (unfold s; now apply Rmult_lt_0_compat).
  assert (Hss : s * s = a * b) by (unfold s; nra).
  replace (n / sqrt a / sqrt b) with (n / s) by (unfold s; field; lra).
  assert (Hns : - s <= n <= s) by (split; nra).
  split.
  - apply Rmult_le_reg_r with s; [exact Hs |].
    replace (n / s * s) with n by (field; lra). lra.
  - apply Rmult_le_reg_r with s; [exact Hs |].
    replace (n / s * s) with n by (field; lra). lra.
Qed.

Lemma sin_acos_ratio (n a b d : R) :
  0 < a -> 0 < b -> 0 <= d -> d * d = a * b - n * n ->
  sin (acos (n / sqrt a / sqrt b)) = d / sqrt a / sqrt b.
Proof.
  intros Ha Hb Hd Hdd.
  assert (Hsa : 0 < sqrt a) by now apply sqrt_lt_R0.
  assert (Hsb : 0 < sqrt b) by now apply sqrt_lt_R0.
  assert (Haa : sqrt a * sqrt a = a) by (apply sqrt_sqrt; lra).
  assert (Hbb : sqrt b * sqrt b = b) by (apply sqrt_sqrt; lra).
  assert (Hn : n * n <= a * b) by nra.
  rewrite sin_acos by now apply ratio_bound.
  replace (1 - (n / sqrt a / sqrt b)²)
    with ((d / sqrt a / sqrt b) * (d / sqrt a / sqrt b)).
  - apply sqrt_square.
    apply Rmult_le_pos; [apply Rmult_le_pos; [exact Hd |] |];
      left; now apply Rinv_0_lt_compat.
  - unfold Rsqr.
    replace (d / sqrt a / sqrt b * (d / sqrt a / sqrt b))
      with (d * d / ((sqrt a * sqrt a) * (sqrt b * sqrt b))) by (field; lra).
    replace (n / sqrt a / sqrt b * (n / sqrt a / sqrt b))
      with (n * n / ((sqrt a * sqrt a) * (sqrt b * sqrt b))) by (field; lra).
    rewrite Haa, Hbb, Hdd. field. lra.
Qed.

(** The angles of a triangle with the sides u, v and v - u add up to pi;
    a = u.u and b = v.v are the squares of two sides and p = u.v. *)
Lemma triangle_angle_sum (a b p : R) :
  0 < a -> 0 < b -> p * p < a * b ->
  let c := a + b - 2 * p in
  acos (p / sqrt a / sqrt b)
  + acos ((a - p) / sqrt c / sqrt a)
  + acos ((b - p) / sqrt b / sqrt c) = PI.
Proof.
  intros Ha Hb Hp c.
  assert (Hc : 0 < c).
  { unfold c. destruct (Rle_lt_dec p 0) as [Hneg | Hpos]; [lra |].
    assert (Hsq : 0 <= (a - b) * (a - b)) by apply Rle_0_sqr.
    assert (H4 : 4 * (p * p) < (a + b) * (a + b)) by nra.
    nra. }
  set (d := sqrt (a * b - p * p)).
  assert (Hd : 0 < d) by (apply sqrt_lt_R0; lra).
  assert (Hdd : d * d = a * b - p * p) by (apply sqrt_sqrt; lra).
  assert (Hsa : 0 < sqrt a) by now apply sqrt_lt_R0.
  assert (Hsb : 0 < sqrt b) by now apply sqrt_lt_R0.
  assert (Hsc : 0 < sqrt c) by now apply sqrt_lt_R0.
  assert (Haa : sqrt a * sqrt a = a) by (apply sqrt_sqrt; lra).
  assert (Hbb : sqrt b * sqrt b = b) by (apply sqrt_sqrt; lra).
  assert (Hcc : sqrt c * sqrt c = c) by (apply sqrt_sqrt; lra).
  assert (Hdb : d * d = c * a - (a - p) * (a - p)) by (unfold c; lra).
  assert (Hdc : d * d = b * c - (b - p) * (b - p)) by (unfold c; lra).
  assert (Hba : -1 <= p / sqrt a / sqrt b <= 1)
    by (apply ratio_bound; lra).
  assert (Hbb' : -1 <= (a - p) / sqrt c / sqrt a <= 1)
    by (apply ratio_bound; nra).
  assert (Hbc : -1 <= (b - p) / sqrt b / sqrt c <= 1)
    by (apply ratio_bound; nra).
  pose proof (sin_acos_ratio p a b d Ha Hb (Rlt_le _ _ Hd) Hdd) as Hsin_a.
  pose proof (sin_acos_ratio (a - p) c a d Hc Ha (Rlt_le _ _ Hd) Hdb)
    as Hsin_b.
  pose proof (sin_acos_ratio (b - p) b c d Hb Hc (Rlt_le _ _ Hd) Hdc)
    as Hsin_c.
  pose proof (cos_acos _ Hba) as Hcos_a.
  pose proof (cos_acos _ Hbb') as Hcos_b.
  pose proof (cos_acos _ Hbc) as Hcos_c.
  pose proof (acos_bound (p / sqrt a / sqrt b)) as Bal.
  pose proof (acos_bound ((a - p) / sqrt c / sqrt a)) as Bbe.
  pose proof (acos_bound ((b - p) / sqrt b / sqrt c)) as Bga.
  set (al := acos (p / sqrt a / sqrt b)) in *.
  set (be := acos ((a - p) / sqrt c / sqrt a)) in *.
  set (ga := acos ((b - p) / sqrt b / sqrt c)) in *.
  assert (Hcos : cos (al + be) = - cos ga).
  { rewrite cos_plus, Hcos_a, Hcos_b, Hsin_a, Hsin_b, Hcos_c.
    replace (p / sqrt a / sqrt b * ((a - p) / sqrt c / sqrt a)
             - d / sqrt a / sqrt b * (d / sqrt c / sqrt a))
      with ((p * (a - p) - d * d) / ((sqrt a * sqrt a) * sqrt b * sqrt c))
      by (field; lra).
    rewrite Haa, Hdd. field. lra. }
  assert (Hsin : sin (al + be) = d / sqrt b / sqrt c).
  { rewrite sin_plus, Hcos_a, Hcos_b, Hsin_a, Hsin_b.
    replace (d / sqrt a / sqrt b * ((a - p) / sqrt c / sqrt a)
             + p / sqrt a / sqrt b * (d / sqrt c / sqrt a))
      with (d * a / ((sqrt a * sqrt a) * sqrt b * sqrt c))
      by (field; lra).
    rewrite Haa. field. lra. }
  assert (Hspos : 0 < sin (al + be)).
  { rewrite Hsin. unfold Rdiv.
    repeat apply Rmult_lt_0_compat; try assumption;
      now apply Rinv_0_lt_compat. }
  pose proof PI_RGT_0 as Hpi.
  assert (Hle : al + be <= PI).
  { destruct (Rle_lt_dec (al + be) PI) as [H | H]; [exact H |].
    assert (sin (al + be) <= 0) by (apply sin_le_0; lra). lra. }
  assert (Heq : al + be = PI - ga).
  { rewrite <- (acos_cos (al + be)) by lra.
    rewrite <- (acos_cos (PI - ga)) by lra.
    f_equal. rewrite Hcos.
    replace (PI - ga) with (- ga + PI) by ring.
    rewrite neg_cos, cos_neg. reflexivity. }
  lra.
Qed.

(** ** The lifting and the Gauss-Bonnet formula *)

Module GaussBonnetFacts.
Import SurfaceLift PiecewiseSmooth Spectrum.

(** The interior angles of a triangle in space that is not degenerate. *)
Lemma triangle_angles (A B C : vec3) :
  Cross (vsub B A) (vsub C A) <> V3 0 0 0 ->
  angle (vsub B A) (vsub C A) + angle (vsub C B) (vsub A B)
  + angle (vsub A C) (vsub B C) = PI.
Proof.
  intro Hne.
  set (a := dot (vsub B A) (vsub B A)).
  set (b := dot (vsub C A) (vsub C A)).
  set (p := dot (vsub B A) (vsub C A)).
  assert (Hlag : a * b - p * p
                 = dot (Cross (vsub B A) (vsub C A))
                       (Cross (vsub B A) (vsub C A)))
    by (unfold a, b, p, dot, Cross; cbn [vx vy vz]; ring).
  assert (Hpos : 0 < dot (Cross (vsub B A) (vsub C A))
                         (Cross (vsub B A) (vsub C A))).
  { destruct (Cross (vsub B A) (vsub C A)) as [x y z].
    unfold dot; cbn [vx vy vz].
    destruct (Req_dec x 0) as [Hx | Hx];
      [destruct (Req_dec y 0) as [Hy | Hy];
         [destruct (Req_dec z 0) as [Hz | Hz] |] |].
    - exfalso. apply Hne. now rewrite Hx, Hy, Hz.
    - pose proof (Rle_0_sqr x). pose proof (Rle_0_sqr y).
      pose proof (Rsqr_pos_lt z Hz). unfold Rsqr in *. lra.
    - pose proof (Rle_0_sqr x). pose proof (Rle_0_sqr z).
      pose proof (Rsqr_pos_lt y Hy). unfold Rsqr in *. lra.
    - pose proof (Rle_0_sqr y). pose proof (Rle_0_sqr z).
      pose proof (Rsqr_pos_lt x Hx). unfold Rsqr in *. lra. }
  assert (Ha0 : 0 <= a).
  { unfold a, dot. pose proof (Rle_0_sqr (vx (vsub B A))).
    pose proof (Rle_0_sqr (vy (vsub B A))).
    pose proof (Rle_0_sqr (vz (vsub B A))). unfold Rsqr in *. lra. }
  assert (Hb0 : 0 <= b).
  { unfold b, dot. pose proof (Rle_0_sqr (vx (vsub C A))).
    pose proof (Rle_0_sqr (vy (vsub C A))).
    pose proof (Rle_0_sqr (vz (vsub C A))). unfold Rsqr in *. lra. }
  assert (Hab : 0 < a * b).
  { pose proof (Rle_0_sqr p) as Hp2. unfold Rsqr in Hp2. lra. }
  assert (Ha : 0 < a).
  { destruct Ha0 as [H | H]; [exact H |]. rewrite <- H in Hab. lra. }
  assert (Hb : 0 < b).
  { destruct Hb0 as [H | H]; [exact H |]. rewrite <- H in Hab. lra. }
  pose proof (triangle_angle_sum a b p Ha Hb ltac:(lra)) as Hsum.
  cbv zeta in Hsum.
  unfold angle, norm.
  replace (dot (vsub C B) (vsub A B)) with (a - p)
    by (unfold a, p, dot, vsub, vadd, vopp; cbn [vx vy vz]; ring).
  replace (dot (vsub C B) (vsub C B)) with (a + b - 2 * p)
    by (unfold a, b, p, dot, vsub, vadd, vopp; cbn [vx vy vz]; ring).
  replace (dot (vsub A B) (vsub A B)) with a
    by (unfold a, dot, vsub, vadd, vopp; cbn [vx vy vz]; ring).
  replace (dot (vsub A C) (vsub B C)) with (b - p)
    by (unfold b, p, dot, vsub, vadd, vopp; cbn [vx vy vz]; ring).
  replace (dot (vsub A C) (vsub A C)) with b
    by (unfold b, dot, vsub, vadd, vopp; cbn [vx vy vz]; ring).
  replace (dot (vsub B C) (vsub B C)) with (a + b - 2 * p)
    by (unfold a, b, p, dot, vsub, vadd, vopp; cbn [vx vy vz]; ring).
  fold a b p. exact Hsum.
Qed.

(** The determinant in [GaussCurvature] applied to a shape operator is the
    product of the principal curvatures. *)
Lemma Det_shape_operator (k1 k2 : R) (e1 e2 nu : vec3) :
  orthonormal e1 e2 nu ->
  Det (madd (shape_operator k1 k2 e1 e2) (OuterProduct nu nu)) = k1 * k2.
Proof.
  intros (H11 & H22 & Hnn & H12 & H1n & H2n).
  transitivity (k1 * k2 * (dot e1 (Cross e2 nu) * dot e1 (Cross e2 nu))).
  - unfold shape_operator, Det, madd, mscale, OuterProduct, dot, Cross;
      cbn [vx vy vz m00 m01 m02 m10 m11 m12 m20 m21 m22]. ring.
  - rewrite triple_square.
    replace (dot nu e1) with (dot e1 nu) by (unfold dot; ring).
    rewrite H11, H22, Hnn, H12, H1n, H2n. ring.
Qed.

(** Summing the formulas of the elements: if on every element the
    integral of [k], the integral of [g] and the exterior angles [pi - a]
    add up to 2 pi, the totals are 2 pi for each element less pi for each
    corner. *)
Lemma elements_total {A : Type} (r1 r2 : Rule A) (l : list A)
  (elem : A -> nat) (m : nat) (k g a : A -> R) :
  (forall wq, In wq r1 -> (elem (snd wq) < m)%nat) ->
  (forall wq, In wq r2 -> (elem (snd wq) < m)%nat) ->
  (forall q, In q l -> (elem q < m)%nat) ->
  (forall e, (e < m)%nat ->
     integrate (filter (fun wq => Nat.eqb (elem (snd wq)) e) r1) k
     + integrate (filter (fun wq => Nat.eqb (elem (snd wq)) e) r2) g
     + sum_list (filter (fun q => Nat.eqb (elem q) e) l)
         (fun q => PI - a q)
     = 2 * PI) ->
  integrate r1 k + integrate r2 g - sum_list l a
  = 2 * PI * INR m - PI * INR (List.length l).
Proof.
  intros Hel Hbd Hvt Hgb.
  assert (Hsum :
    integrate r1 k + integrate r2 g + sum_list l (fun q => PI - a q)
    = 2 * PI * INR m).
  { rewrite (integrate_filter_by_element r1 elem m _ Hel).
    rewrite (integrate_filter_by_element r2 elem m _ Hbd).
    rewrite (sum_list_by_element l elem m _ Hvt).
    rewrite <- !sum_range_plus.
    rewrite (sum_range_ext _ _ (fun _ => 2 * PI)).
    - rewrite sum_range_const. ring.
    - intros e He. apply (Hgb e He). }
  assert (Hsplit :
    sum_list l (fun q => PI - a q)
    = PI * INR (List.length l) - sum_list l a).
  { rewrite (sum_list_ext _ _ (fun q => PI + -1 * a q)) by (intros; ring).
    rewrite sum_list_plus, sum_list_const, sum_list_scal. ring. }
  lra.
Qed.

Section GaussBonnet.
Context {L : SurfaceFE}.
Variable mesh : Mesh.
Variables lift_order order : nat.
Variable elem : Pt -> nat.

Let V := H1 mesh lift_order.

(** Testing the sources with the constant one. *)
Lemma sources_of_one :
  partition_of_unity mesh lift_order ->
  sum_range (nv mesh) (assembled_sources mesh lift_order)
  = total_sources mesh lift_order.
Proof.
  intros (Hel & Hbd & Hvt & _).
  unfold total_sources, assembled_sources, element_source, edge_source,
    vertex_source.
  rewrite !sum_range_plus.
  rewrite <- !integrate_range_swap, <- sum_list_range_swap.
  f_equal; [f_equal |].
  - apply integrate_ext. intros wq Hwq. rewrite sum_range_scal.
    now rewrite (Hel wq Hwq).
  - apply integrate_ext. intros wq Hwq. rewrite sum_range_scal.
    now rewrite (Hbd wq Hwq).
  - apply sum_list_ext. intros q Hq.
    rewrite (sum_range_ext _ _
      (fun j => - acos (dot (vt1 q) (vt2 q))
                * shape (H1 mesh lift_order) j q))
      by (intros; ring).
    rewrite sum_range_scal. rewrite (Hvt q Hq). ring.
Qed.

(** The total of the sources: the integral of [GaussCurvature], the
    integral of the edge term and the sum of the angles. *)
Lemma total_sources_terms :
  total_sources mesh lift_order
  = integrate (ds mesh (lift_order + 12)) GaussCurvature
    + integrate (ds_element_boundary mesh (lift_order + 12))
        (fun q => dot (vopp (mu q)) (EdgeCurvature3 q))
    - sum_list (ds_BBND mesh) (fun q => acos (dot (vt1 q) (vt2 q))).
Proof.
  unfold total_sources, element_source, edge_source, vertex_source.
  unfold Rminus. f_equal; [f_equal |].
  - apply integrate_ext. intros wq _. ring.
  - apply integrate_ext. intros wq _. ring.
  - transitivity (sum_list (ds_BBND mesh)
                    (fun q => -1 * acos (dot (vt1 q) (vt2 q)))).
    + apply sum_list_ext. intros q _. ring.
    + rewrite sum_list_scal. ring.
Qed.

(** The integral of a finite element function through the mass matrix. *)
Lemma Integrate_through_mass (vec : BaseVector) :
  partition_of_unity mesh lift_order ->
  rules_agree mesh lift_order order ->
  Integrate (GridFunction_H1 mesh lift_order vec) mesh order
  = sum_range (nv mesh) (fun i =>
      mat_vec (ndof V) (mass_matrix mesh lift_order) vec i).
Proof.
  intros (_ & _ & _ & Hms) Hag.
  unfold Integrate, GridFunction_H1, gf_eval, mat_vec. fold V.
  rewrite integrate_range_swap.
  rewrite sum_range_swap.
  apply sum_range_ext. intros j Hj.
  rewrite integrate_scal.
  rewrite (sum_range_ext _ _
    (fun i => vec j * mass_matrix mesh lift_order i j))
    by (intros; ring).
  rewrite sum_range_scal. f_equal.
  unfold V in *. rewrite (Hag j Hj).
  unfold mass_matrix. rewrite <- integrate_range_swap.
  apply integrate_ext. intros wq Hwq.
  rewrite sum_range_scal. rewrite (Hms wq Hwq). ring.
Qed.

(** The function returned by [GeneralizedGaussCurvatureExtrinsic]
    integrates to the total of the sources plus 2 pi for every vertex. *)
Lemma lifted_total :
  (nv mesh <= ndof V)%nat ->
  exact_solve mesh lift_order ->
  partition_of_unity mesh lift_order ->
  rules_agree mesh lift_order order ->
  exists Kh,
    GeneralizedGaussCurvatureExtrinsic mesh lift_order = Some Kh /\
    Integrate (GridFunction_H1 mesh lift_order Kh) mesh order
    = total_sources mesh lift_order + 2 * PI * INR (nv mesh).
Proof.
  intros Hnv Hsolve Hpou Hag.
  unfold GeneralizedGaussCurvatureExtrinsic. fold V.
  destruct (add_range_spec (ndof V) (nv mesh) (2 * PI)
              (assembled_sources mesh lift_order) Hnv) as (fvec & Hf & Hspec).
  rewrite Hf. eexists. split; [reflexivity |].
  rewrite (Integrate_through_mass _ Hpou Hag).
  rewrite (sum_range_ext _ _
    (fun i => assembled_sources mesh lift_order i + 2 * PI)).
  2:{ intros i Hi. unfold exact_solve in Hsolve. fold V in Hsolve.
      cbv zeta in Hsolve.
      rewrite (Inverse_solves _ _ _ _ fvec i Hsolve);
        [| lia | apply FreeDofs_none].
      rewrite Hspec. destruct (Nat.ltb_spec i (nv mesh)); [reflexivity | lia]. }
  rewrite sum_range_plus, sum_range_const.
  rewrite (sources_of_one Hpou). ring.
Qed.

(** The three integrands of the code are the three quantities of the
    Gauss-Bonnet theorem. *)
Lemma GaussCurvature_is_Gauss_curvature (G : Geometry) (q : Pt) :
  orthonormal (direction1 G q) (direction2 G q) (normal3 q) ->
  Grad normal3 q
  = shape_operator (principal1 G q) (principal2 G q)
      (direction1 G q) (direction2 G q) ->
  GaussCurvature q = Gauss_curvature G q.
Proof.
  intros Hframe HW. unfold GaussCurvature, Extrinsic.GaussCurvature.
  cbv zeta. rewrite HW. now apply Det_shape_operator.
Qed.

Lemma edge_term_is_geodesic_curvature (G : Geometry) (q : Pt) :
  EdgeCurvature3 q = curvature_vector G q ->
  Cross (normal3 q) (tangential3 q) = outward_conormal G q ->
  dot (vopp (mu q)) (EdgeCurvature3 q) = geodesic_curvature G q.
Proof.
  intros Hc Hmu. unfold mu, geodesic_curvature. rewrite Hmu, Hc.
  unfold dot, vopp; cbn [vx vy vz]. ring.
Qed.

Lemma vertex_term_is_angle (d1 d2 : vec3) (q : Pt) :
  VertexTangentialVectors3 q = (Normalize d1, Normalize d2) ->
  acos (dot (vt1 q) (vt2 q)) = angle d1 d2.
Proof.
  intro Hvt. unfold vt1, vt2, angle. rewrite Hvt. cbn [fst snd].
  rewrite dot_Normalize. f_equal. unfold Rdiv. ring.
Qed.

(** On elements with the geometry [G] that satisfy the Gauss-Bonnet
    theorem, the sources add up to 2 pi for each element less pi for each
    corner. *)
Lemma smooth_elements_total (G : Geometry) :
  library_on_elements mesh lift_order G ->
  points_of_elements mesh lift_order elem ->
  (forall e, (e < nface mesh)%nat ->
     classical_Gauss_Bonnet mesh lift_order elem G e) ->
  total_sources mesh lift_order
  = 2 * PI * INR (nface mesh) - PI * INR (List.length (ds_BBND mesh)).
Proof.
  intros (Hel & Hbd & Hvt) (Rel & Rbd & Rvt) Hgb. rewrite total_sources_terms.
  rewrite (integrate_ext _ GaussCurvature (Gauss_curvature G)).
  2:{ intros wq Hwq. destruct (Hel wq Hwq) as [Hframe HW].
      now apply GaussCurvature_is_Gauss_curvature. }
  rewrite (integrate_ext _ (fun q => dot (vopp (mu q)) (EdgeCurvature3 q))
             (geodesic_curvature G)).
  2:{ intros wq Hwq. destruct (Hbd wq Hwq) as [Hc Hmu].
      now apply edge_term_is_geodesic_curvature. }
  rewrite (sum_list_ext _ (fun q => acos (dot (vt1 q) (vt2 q)))
             (interior_angle G)).
  2:{ intros q Hq. unfold interior_angle.
      apply vertex_term_is_angle. now apply Hvt. }
  apply (elements_total _ _ _ elem); assumption.
Qed.

(** On flat triangles the first two sources vanish and the angles of each
    triangle add up to pi. *)
Lemma flat_triangles_total (vertex : nat -> nat -> vec3) :
  flat_triangles mesh lift_order elem vertex ->
  total_sources mesh lift_order
  = 2 * PI * INR (nface mesh) - PI * INR (List.length (ds_BBND mesh)).
Proof.
  intros (Hflat & Hstraight & Rvt & Htri). rewrite total_sources_terms.
  rewrite (integrate_zero _ GaussCurvature).
  2:{ intros wq Hwq. unfold GaussCurvature, Extrinsic.GaussCurvature.
      cbv zeta. rewrite (Hflat wq Hwq), madd_mzero_l. apply Det_outer_self. }
  rewrite integrate_zero.
  2:{ intros wq Hwq. rewrite (Hstraight wq Hwq).
      unfold dot; cbn [vx vy vz]. ring. }
  pose proof (elements_total (A := Pt) [] [] (ds_BBND mesh) elem
                (nface mesh) (fun _ => 0) (fun _ => 0)
                (fun q => acos (dot (vt1 q) (vt2 q)))) as Htot.
  cbn [filter integrate sum_list] in Htot. apply Htot; clear Htot.
  - intros wq [].
  - intros wq [].
  - exact Rvt.
  - intros e He.
    destruct (Htri e He) as (Hne & qa & qb & qc & Hperm & Ha & Hb & Hc).
    rewrite (sum_list_perm _ _ _ Hperm). cbn [sum_list].
    rewrite (vertex_term_is_angle _ _ qa Ha),
      (vertex_term_is_angle _ _ qb Hb), (vertex_term_is_angle _ _ qc Hc).
    pose proof (triangle_angles _ _ _ Hne) as Hsum. lra.
Qed.

(** From the total of the sources to the Euler characteristic. *)
Lemma lifted_Euler (nb : nat) :
  (nv mesh <= ndof V)%nat ->
  exact_solve mesh lift_order ->
  partition_of_unity mesh lift_order ->
  rules_agree mesh lift_order order ->
  total_sources mesh lift_order
  = 2 * PI * INR (nface mesh) - PI * INR (List.length (ds_BBND mesh)) ->
  (List.length (ds_BBND mesh) + nb = 2 * nedge mesh)%nat ->
  exists Kh,
    GeneralizedGaussCurvatureExtrinsic mesh lift_order = Some Kh /\
    Integrate (GridFunction_H1 mesh lift_order Kh) mesh order
    = 2 * PI * IZR (EulerChar mesh) + PI * INR nb.
Proof.
  intros Hnv Hsolve Hpou Hag Htot Hcount.
  destruct (lifted_total Hnv Hsolve Hpou Hag) as (Kh & HKh & Hint).
  exists Kh. split; [exact HKh |]. rewrite Hint, Htot.
  assert (Hlen : INR (List.length (ds_BBND mesh))
                 = 2 * INR (nedge mesh) - INR nb).
  { apply (f_equal INR) in Hcount. rewrite plus_INR, mult_INR in Hcount.
    simpl INR in Hcount. lra. }
  rewrite Hlen. unfold EulerChar.
  rewrite plus_IZR, minus_IZR, <- !INR_IZR_INZ. ring.
Qed.

End GaussBonnet.

(** ** The cube *)











(** ** The cylindrical box *)

(** The naive Gauss curvature on a cylindrical box. *)
Lemma cylinder_box_flat {L : SurfaceFE} (mesh : Mesh) (order : nat) (r : R)
  (pos : Pt -> vec3) :
  cylinder_box mesh order r pos ->
  Integrate GaussCurvature mesh order = 0.
Proof.
  intros [Hr Hpts]. unfold Integrate. apply integrate_zero.
  intros wq Hwq. unfold GaussCurvature, Extrinsic.GaussCurvature.
  destruct (Hpts wq Hwq) as [(Hon & Hnu & HW) | HW]; rewrite HW.
  - rewrite Hnu.
    unfold Extrinsic.cylinder_Weingarten, Extrinsic.cylinder_normal, Det,
      madd, OuterProduct; cbn [vx vy vz m00 m01 m02 m10 m11 m12 m20 m21 m22].
    ring.
  - rewrite madd_mzero_l. apply Det_outer_self.
Qed.

Lemma cylbox_is_cylinder_box :
  cylinder_box (L := cylbox_FE) tt 0%nat 2 cylbox_pos.
Proof.
  split; [lra |]. intros wq Hwq. cbn [ds cylbox_FE] in Hwq.
  unfold cylbox_rule in Hwq. cbn in Hwq.
  repeat (destruct Hwq as [<- | Hwq];
          [first [ right; reflexivity
                 | left; repeat split;
                   unfold Extrinsic.on_cylinder; cbn; lra ] |]).
  contradiction.
Qed.

Lemma cylbox_EulerChar : EulerChar (L := cylbox_FE) tt = 2%Z.
Proof. reflexivity. Qed.

(** ** The octahedron and the sphere in octants *)

Import Octahedron.

Ltac each_oct_point Hq tac :=
  unfold oct_points in Hq; cbn in Hq;
  repeat (destruct Hq as [<- | Hq]; [tac |]); try contradiction.

Lemma oct_point_face (q : nat * nat) :
  In q oct_points -> (fst q < 8)%nat.
Proof.
  unfold oct_points. destruct q as [f k]. intro H.
  apply in_prod_iff in H. destruct H as [Hf _].
  apply in_seq in Hf. cbn. lia.
Qed.

(** Four faces meet at every vertex of the octahedron. *)
Lemma oct_four_faces (i : nat) :
  (i < 6)%nat ->
  sum_list oct_points (fun q => shape oct_H1 i q) = 4.
Proof.
  intro Hi.
  do 6 (destruct i as [| i]; [cbn; lra |]). lia.
Qed.

Lemma oct_shape_product (i j : nat) (q : nat * nat) :
  shape oct_H1 j q * shape oct_H1 i q
  = if Nat.eqb i j then shape oct_H1 i q else 0.
Proof.
  cbn [shape oct_H1].
  destruct (Nat.eqb_spec (oct_corner (fst q) (snd q)) j) as [Hj | Hj],
           (Nat.eqb_spec (oct_corner (fst q) (snd q)) i) as [Hi | Hi],
           (Nat.eqb_spec i j) as [Hij | Hij]; try ring; congruence.
Qed.

(** The mass matrix of the vertex rule with the weight [w] is diagonal. *)
Lemma oct_mass_rule (w : R) (i j : nat) :
  (i < 6)%nat ->
  integrate (map (fun q => (w, q)) oct_points)
    (fun q => shape oct_H1 j q * shape oct_H1 i q)
  = if Nat.eqb i j then w * 4 else 0.
Proof.
  intro Hi. rewrite integrate_weighted.
  rewrite (sum_list_ext _ _ (fun q => if Nat.eqb i j
                                      then shape oct_H1 i q else 0))
    by (intros; apply oct_shape_product).
  destruct (Nat.eqb i j).
  - now rewrite oct_four_faces.
  - rewrite sum_list_zero by reflexivity. ring.
Qed.

Lemma oct_diagonal_solve (w : R) (M : BaseMatrix) :
  w <> 0 ->
  (forall i j, (i < 6)%nat -> M i j = if Nat.eqb i j then w * 4 else 0) ->
  Inverse_spec 6 M (FreeDofs oct_H1 dirichlet_none)
    (diagonal_inverse 6 M (FreeDofs oct_H1 dirichlet_none)).
Proof.
  intros Hw HM. apply diagonal_inverse_spec.
  - intros i j Hi Hj Hne. rewrite HM by exact Hi.
    destruct (Nat.eqb_spec i j); [contradiction | reflexivity].
  - intros i Hi. rewrite HM by exact Hi. rewrite Nat.eqb_refl. lra.
Qed.

Lemma oct_vertex_shapes (q : nat * nat) :
  In q oct_points -> sum_range 6 (fun i => shape oct_H1 i q) = 1.
Proof.
  intro Hq. each_oct_point Hq ltac:(cbn; lra).
Qed.

(** The points of one face. *)
Lemma oct_face_points (e : nat) :
  (e < 8)%nat ->
  filter (fun q : nat * nat => Nat.eqb (fst q) e) oct_points
  = [(e, 0%nat); (e, 1%nat); (e, 2%nat)].
Proof.
  intro He. do 8 (destruct e as [| e]; [reflexivity |]). lia.
Qed.

Lemma oct_face_rule (w : nat * nat -> R) (e : nat) :
  (e < 8)%nat ->
  filter (fun wq : R * (nat * nat) => Nat.eqb (fst (snd wq)) e)
    (map (fun q => (w q, q)) oct_points)
  = [(w (e, 0%nat), (e, 0%nat)); (w (e, 1%nat), (e, 1%nat));
     (w (e, 2%nat), (e, 2%nat))].
Proof.
  intro He. do 8 (destruct e as [| e]; [reflexivity |]). lia.
Qed.

Lemma oct_face_point_in (e k : nat) :
  (e < 8)%nat -> (k < 3)%nat -> In (e, k) oct_points.
Proof.
  intros He Hk. unfold oct_points. apply in_prod; apply in_seq; lia.
Qed.

(** *** The flat octahedron *)

Lemma octahedron_exact_solve : exact_solve (L := octahedron_FE) tt 1.
Proof.
  unfold exact_solve. cbn [H1 Inverse octahedron_FE].
  apply (oct_diagonal_solve (sqrt 3 / 6)).
  - pose proof sqrt_3_pos. lra.
  - intros i j Hi. unfold mass_matrix. cbn [ds H1 octahedron_FE].
    now apply oct_mass_rule.
Qed.

Lemma octahedron_partition_of_unity :
  partition_of_unity (L := octahedron_FE) tt 1.
Proof.
  repeat split.
  - intros wq Hwq. apply oct_vertex_shapes. now apply in_map_snd in Hwq.
  - intros wq Hwq. apply oct_vertex_shapes. now apply in_map_snd in Hwq.
  - intros q Hq. now apply oct_vertex_shapes.
  - intros wq Hwq. apply oct_vertex_shapes. now apply in_map_snd in Hwq.
Qed.

Lemma octahedron_not_degenerate (e : nat) :
  (e < 8)%nat ->
  Cross (vsub (oct_position e 1) (oct_position e 0))
        (vsub (oct_position e 2) (oct_position e 0)) <> V3 0 0 0.
Proof.
  intro He.
  do 8 (destruct e as [| e];
        [intro H; apply (f_equal vx) in H; cbn in H; lra |]).
  lia.
Qed.

Lemma octahedron_flat_triangles :
  flat_triangles (L := octahedron_FE) tt 1 fst oct_position.
Proof.
  split; [| split; [| split]].
  - intros wq _. reflexivity.
  - intros wq _. reflexivity.
  - intros q Hq. now apply oct_point_face.
  - intros e He. change (e < 8)%nat in He. cbv zeta. split.
    + now apply octahedron_not_degenerate.
    + exists (e, 0%nat), (e, 1%nat), (e, 2%nat).
      cbn [ds_BBND octahedron_FE]. rewrite oct_face_points by exact He.
      split; [apply Permutation_refl |].
      split; [| split]; reflexivity.
Qed.

Lemma octahedron_closed : closed_surface (L := octahedron_FE) tt.
Proof. reflexivity. Qed.

(** *** The sphere in octants *)

Lemma round_sphere_exact_solve : exact_solve (L := round_sphere_FE) tt 1.
Proof.
  unfold exact_solve. cbn [H1 Inverse round_sphere_FE].
  apply (oct_diagonal_solve (PI / 6)).
  - pose proof PI_RGT_0. lra.
  - intros i j Hi. unfold mass_matrix. cbn [ds H1 round_sphere_FE].
    now apply oct_mass_rule.
Qed.

Lemma round_sphere_partition_of_unity :
  partition_of_unity (L := round_sphere_FE) tt 1.
Proof.
  repeat split.
  - intros wq Hwq. apply oct_vertex_shapes. now apply in_map_snd in Hwq.
  - intros wq Hwq. apply oct_vertex_shapes. now apply in_map_snd in Hwq.
  - intros q Hq. now apply oct_vertex_shapes.
  - intros wq Hwq. apply oct_vertex_shapes. now apply in_map_snd in Hwq.
Qed.

(** At every corner the positions of the three corners of the octant are
    an orthonormal frame. *)
Lemma round_frame (q : nat * nat) :
  In q oct_points ->
  orthonormal (oct_position (fst q) (next3 (snd q)))
    (oct_position (fst q) (prev3 (snd q))) (round_normal q).
Proof.
  intro Hq. unfold orthonormal, round_normal, Sphere.sphere_normal, dot.
  each_oct_point Hq ltac:(cbn; repeat split; lra).
Qed.

Lemma round_shape_operator (q : nat * nat) :
  In q oct_points ->
  round_Grad round_normal q
  = shape_operator 1 1 (oct_position (fst q) (next3 (snd q)))
      (oct_position (fst q) (prev3 (snd q))).
Proof.
  intro Hq.
  unfold round_Grad, Sphere.sphere_Weingarten, Sphere.sphere_normal,
    Extrinsic.projection, shape_operator, mscale, madd, OuterProduct.
  each_oct_point Hq ltac:(cbn; f_equal; field).
Qed.

Lemma round_conormal (q : nat * nat) :
  In q oct_points ->
  Cross (round_normal q) (oct_position (fst q) (next3 (snd q)))
  = vopp (oct_position (fst q) (prev3 (snd q))).
Proof.
  intro Hq. unfold round_normal, Sphere.sphere_normal, Cross, vopp.
  each_oct_point Hq ltac:(cbn; f_equal; field).
Qed.

(** Great circles are geodesics: their curvature vector is normal to the
    sphere. *)
Lemma round_curvature_normal (q : nat * nat) :
  In q oct_points ->
  dot (vopp (oct_position (fst q) (snd q)))
      (vopp (oct_position (fst q) (prev3 (snd q)))) = 0.
Proof.
  intro Hq. unfold dot, vopp. each_oct_point Hq ltac:(cbn; ring).
Qed.

Lemma round_geodesic (L : SurfaceFE) (pos : @Pt L -> nat * nat) (q : @Pt L) :
  In (pos q) oct_points ->
  geodesic_curvature (round_geometry L pos) q = 0.
Proof.
  intro Hq. unfold geodesic_curvature, round_geometry.
  cbn [curvature_vector outward_conormal].
  rewrite (round_curvature_normal (pos q) Hq). ring.
Qed.

(** The octants have right angles. *)
Lemma round_leaving_orthogonal (q : nat * nat) :
  In q oct_points ->
  dot (oct_position (fst q) (next3 (snd q)))
      (oct_position (fst q) (prev3 (snd q))) = 0.
Proof.
  intro Hq. unfold dot. each_oct_point Hq ltac:(cbn; ring).
Qed.

Lemma round_right_angle (L : SurfaceFE) (pos : @Pt L -> nat * nat)
  (q : @Pt L) :
  In (pos q) oct_points ->
  interior_angle (round_geometry L pos) q = PI / 2.
Proof.
  intro Hq. unfold interior_angle, round_geometry, angle.
  cbn [leaving1 leaving2].
  rewrite (round_leaving_orthogonal (pos q) Hq).
  unfold Rdiv. rewrite !Rmult_0_l. apply acos_0.
Qed.

Lemma round_sphere_library :
  library_on_elements (L := round_sphere_FE) tt 1
    (round_geometry round_sphere_FE (fun q => q)).
Proof.
  split; [| split].
  - intros wq Hwq. apply in_map_snd in Hwq.
    split; [now apply round_frame | now apply round_shape_operator].
  - intros wq Hwq. apply in_map_snd in Hwq.
    split; [reflexivity | now apply round_conormal].
  - intros q Hq. reflexivity.
Qed.

Lemma round_sphere_points :
  points_of_elements (L := round_sphere_FE) tt 1 fst.
Proof.
  repeat split.
  - intros wq Hwq. apply oct_point_face. now apply in_map_snd in Hwq.
  - intros wq Hwq. apply oct_point_face. now apply in_map_snd in Hwq.
  - intros q Hq. now apply oct_point_face.
Qed.

(** The octant e: area pi / 2 of curvature 1, geodesic edges and three
    right angles. *)
Lemma round_sphere_Gauss_Bonnet (e : nat) :
  (e < 8)%nat ->
  classical_Gauss_Bonnet (L := round_sphere_FE) tt 1 fst
    (round_geometry round_sphere_FE (fun q => q)) e.
Proof.
  intro He. unfold classical_Gauss_Bonnet.
  cbn [ds ds_element_boundary ds_BBND round_sphere_FE]. unfold on_element.
  rewrite (oct_face_rule (fun _ => PI / 6)), (oct_face_rule (fun _ => PI / 2)),
    oct_face_points by exact He.
  unfold integrate. cbn [sum_list fst snd].
  rewrite !(round_geodesic round_sphere_FE (fun q => q))
    by (apply oct_face_point_in; [exact He | lia]).
  rewrite !(round_right_angle round_sphere_FE (fun q => q))
    by (apply oct_face_point_in; [exact He | lia]).
  unfold Gauss_curvature, round_geometry. cbn [principal1 principal2].
  lra.
Qed.

Lemma round_sphere_closed : closed_surface (L := round_sphere_FE) tt.
Proof. reflexivity. Qed.

(** *** The hemisphere with a lid *)

Lemma dome_mass (i j : nat) :
  (i < 6)%nat ->
  mass_matrix (L := dome_FE) tt 1 i j
  = if Nat.eqb i j
    then if Nat.eqb i 4 then 4 * (PI / 6)
         else if Nat.eqb i 5 then 4 * (PI / 12)
         else 2 * (PI / 6) + 2 * (PI / 12)
    else 0.
Proof.
  intro Hi. unfold mass_matrix. cbn [ds H1 dome_FE].
  rewrite (integrate_ext _ _
    (fun q => if Nat.eqb i j then shape oct_H1 i q else 0))
    by (intros; apply oct_shape_product).
  destruct (Nat.eqb i j).
  - unfold integrate, dome_area_weight.
    do 6 (destruct i as [| i]; [cbn; lra |]). lia.
  - apply integrate_zero. reflexivity.
Qed.

Lemma dome_exact_solve : exact_solve (L := dome_FE) tt 1.
Proof.
  unfold exact_solve. cbn [H1 Inverse dome_FE].
  apply diagonal_inverse_spec.
  - intros i j Hi Hj Hne. change (i < 6)%nat in Hi.
    rewrite dome_mass by exact Hi.
    destruct (Nat.eqb_spec i j); [contradiction | reflexivity].
  - intros i Hi. change (i < 6)%nat in Hi.
    rewrite dome_mass by exact Hi. rewrite Nat.eqb_refl.
    pose proof PI_RGT_0.
    do 6 (destruct i as [| i]; [cbn; lra |]). lia.
Qed.

Lemma dome_partition_of_unity : partition_of_unity (L := dome_FE) tt 1.
Proof.
  repeat split.
  - intros wq Hwq. apply oct_vertex_shapes.
    apply in_map_iff in Hwq. now destruct Hwq as (q & <- & Hq).
  - intros wq Hwq. apply oct_vertex_shapes.
    apply in_map_iff in Hwq. now destruct Hwq as (q & <- & Hq).
  - intros q Hq. now apply oct_vertex_shapes.
  - intros wq Hwq. apply oct_vertex_shapes.
    apply in_map_iff in Hwq. now destruct Hwq as (q & <- & Hq).
Qed.

Lemma dome_frame (q : nat * nat) :
  In q oct_points ->
  orthonormal (direction1 dome_geometry q) (direction2 dome_geometry q)
    (dome_normal q).
Proof.
  intro Hq.
  unfold orthonormal, dome_geometry, dome_normal, round_normal,
    Sphere.sphere_normal, dot.
  cbn [direction1 direction2].
  each_oct_point Hq ltac:(cbn; repeat split; lra).
Qed.

Lemma dome_shape_operator (q : nat * nat) :
  In q oct_points ->
  dome_Grad dome_normal q
  = shape_operator (principal1 dome_geometry q) (principal2 dome_geometry q)
      (direction1 dome_geometry q) (direction2 dome_geometry q).
Proof.
  intro Hq.
  unfold dome_Grad, round_Grad, Sphere.sphere_Weingarten,
    Sphere.sphere_normal, Extrinsic.projection, shape_operator, mscale,
    madd, OuterProduct, mzero, dome_geometry.
  cbn [principal1 principal2 direction1 direction2].
  each_oct_point Hq ltac:(cbn; f_equal; field).
Qed.

Lemma dome_conormal (q : nat * nat) :
  In q oct_points ->
  Cross (dome_normal q) (dome_tangential q)
  = outward_conormal dome_geometry q.
Proof.
  intro Hq.
  unfold dome_normal, dome_tangential, lid_tangential, round_normal,
    Sphere.sphere_normal, dome_geometry, lid_conormal, Cross, vopp.
  cbn [outward_conormal].
  each_oct_point Hq ltac:(cbn; f_equal; field).
Qed.

Lemma dome_library :
  library_on_elements (L := dome_FE) tt 1 dome_geometry.
Proof.
  split; [| split].
  - intros wq Hwq. apply in_map_iff in Hwq.
    destruct Hwq as (q & <- & Hq).
    split; [now apply dome_frame | now apply dome_shape_operator].
  - intros wq Hwq. apply in_map_iff in Hwq.
    destruct Hwq as (q & <- & Hq).
    split; [reflexivity | now apply dome_conormal].
  - intros q Hq. reflexivity.
Qed.

Lemma dome_points : points_of_elements (L := dome_FE) tt 1 fst.
Proof.
  repeat split.
  - intros wq Hwq. apply oct_point_face.
    apply in_map_iff in Hwq. now destruct Hwq as (q & <- & Hq).
  - intros wq Hwq. apply oct_point_face.
    apply in_map_iff in Hwq. now destruct Hwq as (q & <- & Hq).
  - intros q Hq. now apply oct_point_face.
Qed.

(** All the corners of the dome are right angles. *)
Lemma dome_right_angle (q : nat * nat) :
  In q oct_points -> interior_angle dome_geometry q = PI / 2.
Proof.
  intro Hq. unfold interior_angle, dome_geometry, angle.
  cbn [leaving1 leaving2].
  replace (dot (fst (dome_leaving q)) (snd (dome_leaving q))) with 0.
  - unfold Rdiv. rewrite !Rmult_0_l. apply acos_0.
  - unfold dome_leaving, lid_leaving, dot, vopp.
    each_oct_point Hq ltac:(cbn; ring).
Qed.

(** The geodesic curvature is 1 on the rim of the lid and vanishes on all
    the other edges. *)
Lemma dome_geodesic (q : nat * nat) :
  In q oct_points ->
  geodesic_curvature dome_geometry q
  = if on_lid (fst q) && Nat.eqb (snd q) 0 then 1 else 0.
Proof.
  intro Hq. unfold geodesic_curvature, dome_geometry.
  cbn [curvature_vector outward_conormal].
  unfold dome_curvature, lid_curvature, lid_conormal, dot, vopp.
  each_oct_point Hq ltac:(cbn; ring).
Qed.

(** An octant: pi / 2 + 0 + 3 pi / 2; a quarter of the lid:
    0 + pi / 2 + 3 pi / 2. *)
Lemma dome_Gauss_Bonnet (e : nat) :
  (e < 8)%nat ->
  classical_Gauss_Bonnet (L := dome_FE) tt 1 fst dome_geometry e.
Proof.
  intro He. unfold classical_Gauss_Bonnet.
  cbn [ds ds_element_boundary ds_BBND dome_FE]. unfold on_element.
  rewrite (oct_face_rule dome_area_weight),
    (oct_face_rule dome_length_weight), oct_face_points by exact He.
  unfold integrate. cbn [sum_list fst snd].
  rewrite !dome_geodesic by (apply oct_face_point_in; [exact He | lia]).
  rewrite !dome_right_angle by (apply oct_face_point_in; [exact He | lia]).
  unfold Gauss_curvature, dome_geometry, dome_area_weight,
    dome_length_weight.
  cbn [principal1 principal2 fst snd].
  do 8 (destruct e as [| e]; [cbn; lra |]). lia.
Qed.

Lemma dome_closed : closed_surface (L := dome_FE) tt.
Proof. reflexivity. Qed.

(** C1.  Gauss-Bonnet for the lifted generalized Gauss curvature, with an
    exact solve and exact integration.  On every closed piecewise smooth
    surface mesh, where the library returns the geometry of the elements
    (unit normal, shape operator, curvature vector and outward co-normal of
    the edges, unit tangents at the corners) and every element satisfies
    the Gauss-Bonnet theorem of a smooth surface with corners, the integral
    of the function returned by [GeneralizedGaussCurvatureExtrinsic] is
    2 pi chi, chi = [EulerChar] = #faces - #edges + #vertices.  On every
    closed surface of flat triangles this holds without a condition on the
    elements, whose angles add up to pi.  The elementwise [GaussCurvature]
    violates the identity on a nonsmooth mesh: on a closed cylindrical box
    its integral is 0, not 2 pi 2. *)
Theorem Gauss_Bonnet :
  (forall (L : SurfaceFE) (mesh : Mesh) (lift_order order : nat)
          (elem : Pt -> nat) (G : Geometry),
      (nv mesh <= ndof (H1 mesh lift_order))%nat ->
      exact_solve mesh lift_order ->
      partition_of_unity mesh lift_order ->
      rules_agree mesh lift_order order ->
      library_on_elements mesh lift_order G ->
      points_of_elements mesh lift_order elem ->
      (forall e, (e < nface mesh)%nat ->
         classical_Gauss_Bonnet mesh lift_order elem G e) ->
      closed_surface mesh ->
      exists Kh,
        GeneralizedGaussCurvatureExtrinsic mesh lift_order = Some Kh /\
        Integrate (GridFunction_H1 mesh lift_order Kh) mesh order
        = 2 * PI * IZR (EulerChar mesh)) /\
  (forall (L : SurfaceFE) (mesh : Mesh) (lift_order order : nat)
          (elem : Pt -> nat) (vertex : nat -> nat -> vec3),
      (nv mesh <= ndof (H1 mesh lift_order))%nat ->
      exact_solve mesh lift_order ->
      partition_of_unity mesh lift_order ->
      rules_agree mesh lift_order order ->
      flat_triangles mesh lift_order elem vertex ->
      closed_surface mesh ->
      exists Kh,
        GeneralizedGaussCurvatureExtrinsic mesh lift_order = Some Kh /\
        Integrate (GridFunction_H1 mesh lift_order Kh) mesh order
        = 2 * PI * IZR (EulerChar mesh)) /\
  (forall (L : SurfaceFE) (mesh : Mesh) (order : nat) (r : R)
          (pos : Pt -> vec3),
      cylinder_box mesh order r pos ->
      EulerChar mesh = 2%Z ->
      Integrate GaussCurvature mesh order = 0 /\
      2 * PI * IZR (EulerChar mesh) = 2 * PI * 2 /\
      Integrate GaussCurvature mesh order <> 2 * PI * IZR (EulerChar mesh)).
Proof.
  split; [| split].
  - intros L mesh lift_order order elem G Hnv Hsolve Hpou Hag Hlib Hpts Hgb
      Hclosed.
    destruct (lifted_Euler mesh lift_order order 0 Hnv Hsolve Hpou Hag
                (smooth_elements_total mesh lift_order elem G Hlib Hpts Hgb))
      as (Kh & HKh & Hint).
    + unfold closed_surface in Hclosed. lia.
    + exists Kh. split; [exact HKh |]. rewrite Hint. simpl INR. ring.
  - intros L mesh lift_order order elem vertex Hnv Hsolve Hpou Hag Hflat
      Hclosed.
    destruct (lifted_Euler mesh lift_order order 0 Hnv Hsolve Hpou Hag
                (flat_triangles_total mesh lift_order elem vertex Hflat))
      as (Kh & HKh & Hint).
    + unfold closed_surface in Hclosed. lia.
    + exists Kh. split; [exact HKh |]. rewrite Hint. simpl INR. ring.
  - intros L mesh order r pos Hbox Hchi.
    rewrite (cylinder_box_flat mesh order r pos Hbox), Hchi.
    pose proof PI_RGT_0. repeat split; lra.
Qed.

(** Witness for C1: for curved elements the sphere in octants and the
    hemisphere closed by a flat lid, whose rim carries geodesic curvature;
    the octahedron for flat triangles; the cylindrical box for the
    elementwise Gauss curvature. *)
Lemma Gauss_Bonnet_witness :
  (exists Kh,
     GeneralizedGaussCurvatureExtrinsic (L := round_sphere_FE) tt 1%nat
     = Some Kh /\
     Integrate (L := round_sphere_FE)
       (GridFunction_H1 (L := round_sphere_FE) tt 1%nat Kh) tt 15%nat
     = 2 * PI * IZR (EulerChar (L := round_sphere_FE) tt)) /\
  (exists Kh,
     GeneralizedGaussCurvatureExtrinsic (L := dome_FE) tt 1%nat = Some Kh /\
     Integrate (L := dome_FE)
       (GridFunction_H1 (L := dome_FE) tt 1%nat Kh) tt 15%nat
     = 2 * PI * IZR (EulerChar (L := dome_FE) tt)) /\
  (exists Kh,
     GeneralizedGaussCurvatureExtrinsic (L := octahedron_FE) tt 1%nat
     = Some Kh /\
     Integrate (L := octahedron_FE)
       (GridFunction_H1 (L := octahedron_FE) tt 1%nat Kh) tt 15%nat
     = 2 * PI * IZR (EulerChar (L := octahedron_FE) tt)) /\
  (Integrate (L := cylbox_FE) GaussCurvature tt 0%nat = 0 /\
   2 * PI * IZR (EulerChar (L := cylbox_FE) tt) = 2 * PI * 2 /\
   Integrate (L := cylbox_FE) GaussCurvature tt 0%nat
   <> 2 * PI * IZR (EulerChar (L := cylbox_FE) tt)).
Proof.
  destruct Gauss_Bonnet as (Hsmooth & Hflat & Hnaive).
  split; [| split; [| split]].
  - apply (Hsmooth round_sphere_FE tt 1%nat 15%nat fst
             (round_geometry round_sphere_FE (fun q => q))).
    + apply Nat.le_refl.
    + exact round_sphere_exact_solve.
    + exact round_sphere_partition_of_unity.
    + intros j _. reflexivity.
    + exact round_sphere_library.
    + exact round_sphere_points.
    + exact round_sphere_Gauss_Bonnet.
    + exact round_sphere_closed.
  - apply (Hsmooth dome_FE tt 1%nat 15%nat fst dome_geometry).
    + apply Nat.le_refl.
    + exact dome_exact_solve.
    + exact dome_partition_of_unity.
    + intros j _. reflexivity.
    + exact dome_library.
    + exact dome_points.
    + exact dome_Gauss_Bonnet.
    + exact dome_closed.
  - apply (Hflat octahedron_FE tt 1%nat 15%nat fst oct_position).
    + apply Nat.le_refl.
    + exact octahedron_exact_solve.
    + exact octahedron_partition_of_unity.
    + intros j _. reflexivity.
    + exact octahedron_flat_triangles.
    + exact octahedron_closed.
  - apply (Hnaive cylbox_FE tt 0%nat 2 cylbox_pos).
    + exact cylbox_is_cylinder_box.
    + exact cylbox_EulerChar.
Defined.


End GaussBonnetFacts.

(** ** The intrinsic lifting with Dirichlet conditions *)

Module IntrinsicFacts.
Import Intrinsic GaussBonnetFacts.

Section Lifting.
Context {L : PlanarFE}.
Variable mesh : Mesh.
Variable gh : Pt -> mat2.
Variable lift_order : nat.

Lemma lifted_form_mass (vec : BaseVector) (i : nat) :
  lifted_form mesh gh lift_order vec
    (shape (lift_space mesh lift_order) i)
  = mat_vec (ndof (lift_space mesh lift_order))
      (mass_matrix mesh gh lift_order) vec i.
Proof.
  unfold lifted_form, GridFunction_H1, gf_eval, mat_vec, mass_matrix.
  set (V := lift_space mesh lift_order).
  set (r := dx mesh (lift_order + lift_order)).
  rewrite (sum_range_ext _ _
    (fun j => integrate r
       (fun q => vec j * (sqrt (Det2 (gh q)) * shape V j q * shape V i q)))).
  2:{ intros j _. rewrite integrate_scal. ring. }
  rewrite <- (integrate_range_swap r (ndof V)
    (fun q j => vec j * (sqrt (Det2 (gh q)) * shape V j q * shape V i q))).
  apply integrate_ext. intros wq _.
  rewrite <- sum_range_scal.
  rewrite Rmult_comm, <- sum_range_scal.
  apply sum_range_ext. intros j _. ring.
Qed.

Lemma mass_symmetric (i j : nat) :
  mass_matrix mesh gh lift_order i j = mass_matrix mesh gh lift_order j i.
Proof.
  unfold mass_matrix. apply integrate_ext. intros wq _. ring.
Qed.

(** What the solve on the free dofs gives. *)
Lemma Dirichlet_solve :
  exact_solve mesh gh lift_order ->
  let V := lift_space mesh lift_order in
  let liftK := GeneralizedGaussCurvature mesh gh lift_order in
  (forall i, dof_boundaries V i <> [] -> liftK i = 0) /\
  (forall i, (i < ndof V)%nat -> dof_boundaries V i = [] ->
     lifted_form mesh gh lift_order liftK (shape V i)
     = sources mesh gh lift_order (shape V i)).
Proof.
  intros Hsolve V liftK. unfold exact_solve in Hsolve. cbv zeta in Hsolve.
  split.
  - intros i Hi. unfold liftK, GeneralizedGaussCurvature.
    apply (Inverse_zero_rows _ _ _ _ _ _ Hsolve).
    unfold lift_FreeDofs.
    destruct (FreeDofs _ dirichlet_all i) eqn:Hf; [| reflexivity].
    apply FreeDofs_all in Hf. contradiction.
  - intros i Hi Hint. unfold V. rewrite lifted_form_mass.
    unfold liftK, GeneralizedGaussCurvature.
    rewrite (Inverse_solves _ _ _ _ _ i Hsolve Hi).
    + reflexivity.
    + unfold lift_FreeDofs. now apply FreeDofs_all.
Qed.

(** The element term is the integral of K_T u in the metric. *)
Lemma element_term (u : Pt -> R) (q : Pt) :
  0 < Det2 (gh q) ->
  u q * elementcurv gh q = sqrt (Det2 (gh q)) * (Intrinsic.Kh gh q * u q).
Proof.
  intro Hd. unfold elementcurv, Intrinsic.Kh.
  assert (Hs : 0 < sqrt (Det2 (gh q))) by now apply sqrt_lt_R0.
  assert (Hss : sqrt (Det2 (gh q)) * sqrt (Det2 (gh q)) = Det2 (gh q))
    by (apply sqrt_sqrt; lra).
  set (d := Det2 (gh q)) in *. set (s := sqrt d) in *.
  rewrite <- Hss. field. lra.
Qed.

(** The edge term is the integral of kappa u in the metric. *)
Lemma edge_term (u : Pt -> R) (q : Pt) :
  g01 (gh q) = g10 (gh q) -> 0 < Det2 (gh q) ->
  0 < dot2 (t q) (mulv2 (gh q) (t q)) ->
  (n q = rot90 (t q) \/ n q = vopp2 (rot90 (t q))) ->
  u q * geodesicurv gh q
  = sqrt (dot2 (t q) (mulv2 (gh q) (t q)))
    * (geodesic_curvature gh q * u q).
Proof.
  intros Hsym Hd HT Hn. unfold geodesicurv, geodesic_curvature. cbv zeta.
  set (acc := dot2 (EdgeCurvature2 q) (n q)
              + contract3 (Operator_christoffel2 gh q) (t q) (t q) (n q)).
  assert (HN : dot2 (n q) (mulv2 (Inv2 (gh q)) (n q))
               = dot2 (t q) (mulv2 (gh q) (t q)) / Det2 (gh q)).
  { destruct Hn as [-> | ->];
      unfold dot2, mulv2, Inv2, rot90, vopp2; cbn [ux uy g00 g01 g10 g11];
      rewrite Hsym; field; lra. }
  rewrite HN.
  set (T := dot2 (t q) (mulv2 (gh q) (t q))) in *.
  set (d := Det2 (gh q)) in *.
  rewrite sqrt_div_alt by exact Hd.
  assert (HsT : 0 < sqrt T) by now apply sqrt_lt_R0.
  assert (Hsd : 0 < sqrt d) by now apply sqrt_lt_R0.
  assert (HTT : sqrt T * sqrt T = T) by (apply sqrt_sqrt; lra).
  rewrite <- HTT at 1 4. field. split; lra.
Qed.

(** The vertex term is the sum of the angle deficits times the values at
    the vertices. *)
Lemma vertex_term (vertex_of : Pt -> nat) (on_boundary : nat -> bool)
  (uV : nat -> R) (u : Pt -> R) :
  vertex_data mesh vertex_of on_boundary uV u ->
  sum_list (dx_BBND mesh) (fun q => u q * angldeficit gh q)
  = sum_range (nv mesh)
      (fun v => angle_deficit_at mesh gh vertex_of v * uV v).
Proof.
  intros (Hpts & Hflat & Hbnd).
  rewrite (sum_list_by_element _ vertex_of (nv mesh))
    by (intros q Hq; apply (Hpts q Hq)).
  apply sum_range_ext. intros v Hv.
  change (filter (fun a => Nat.eqb (vertex_of a) v) (dx_BBND mesh))
    with (filter (at_vertex vertex_of v) (dx_BBND mesh)).
  unfold angle_deficit_at.
  set (pts := filter (at_vertex vertex_of v) (dx_BBND mesh)).
  assert (Hsum : sum_list pts (fun q => u q * angldeficit gh q)
                 = uV v * (sum_list pts flat_angle
                           - sum_list pts (metric_angle gh))).
  { transitivity (sum_list pts
      (fun q => uV v * (flat_angle q + -1 * metric_angle gh q))).
    - apply sum_list_ext. intros q Hq. apply filter_In in Hq.
      destruct Hq as [Hq Hv']. apply Nat.eqb_eq in Hv'.
      destruct (Hpts q Hq) as [_ ->]. rewrite Hv'.
      unfold angldeficit, flat_angle, metric_angle. ring.
    - rewrite sum_list_scal, sum_list_plus, sum_list_scal.
      change (sum_list pts (fun a => flat_angle a))
        with (sum_list pts flat_angle).
      change (sum_list pts (fun a => metric_angle gh a))
        with (sum_list pts (metric_angle gh)).
      ring. }
  rewrite Hsum.
  destruct (on_boundary v) eqn:Hb.
  - rewrite (Hbnd v Hv Hb). ring.
  - unfold pts. rewrite (Hflat v Hv Hb). ring.
Qed.

Lemma sources_are_the_functional (vertex_of : Pt -> nat)
  (on_boundary : nat -> bool) (uV : nat -> R) (u : Pt -> R) :
  regular_metric mesh gh lift_order ->
  vertex_data mesh vertex_of on_boundary uV u ->
  sources mesh gh lift_order u
  = generalized_curvature_functional mesh gh lift_order vertex_of uV u.
Proof.
  intros [Hvol Hedge] Hvd.
  unfold sources, generalized_curvature_functional.
  rewrite (vertex_term vertex_of on_boundary uV u Hvd).
  rewrite Rplus_assoc. f_equal. rewrite Rplus_comm. f_equal.
  - apply integrate_ext. intros wq Hwq. apply element_term.
    now apply Hvol.
  - apply integrate_ext. intros wq Hwq.
    destruct (Hedge wq Hwq) as (Hsym & Hd & HT & Hn).
    now apply edge_term.
Qed.

End Lifting.

(** *** The cone *)

Ltac each_star_point Hq tac :=
  unfold star_points in Hq; cbn in Hq;
  repeat (destruct Hq as [<- | Hq]; [tac |]); try contradiction.

Lemma star_det (p : StarPt) :
  (star_tri p < 4)%nat -> Det2 (star_metric p) = 3.
Proof.
  destruct p as [[kd tr] k]. unfold star_metric, star_tri; cbn [fst snd].
  intro H. do 4 (destruct tr as [| tr]; [unfold Det2; cbn; ring |]). lia.
Qed.

Lemma star_point_tri (kd : nat) (p : StarPt) :
  In p (star_points kd) -> (star_tri p < 4)%nat.
Proof.
  unfold star_points. intro H. apply in_map_iff in H.
  destruct H as ([tr k] & <- & Hin). apply in_prod_iff in Hin.
  destruct Hin as [Htr _]. apply in_seq in Htr.
  unfold star_tri; cbn. lia.
Qed.

Ltac star_angle :=
  first [ apply acos_ratio_right; ring
        | apply acos_ratio_quarter; [ring | lra | lra | ring]
        | apply acos_ratio_third; [ring | lra | lra | ring] ].

(** Flat and metric angles at the corners. *)
Lemma star_flat_angle (p : StarPt) :
  In p (star_points 0) ->
  flat_angle (L := star_FE) p
  = match star_loc p with O => PI / 2 | _ => PI / 4 end.
Proof.
  intro Hp. unfold flat_angle, vt1, vt2.
  cbn [VertexTangentialVectors2 star_FE].
  each_star_point Hp
    ltac:(unfold star_corner_tangents, star_loc, star_tri, dot2, vsub2;
          cbn; star_angle).
Qed.

Lemma star_metric_angle (p : StarPt) :
  In p (star_points 0) ->
  metric_angle (L := star_FE) star_metric p = PI / 3.
Proof.
  intro Hp. unfold metric_angle, vt1, vt2.
  cbn [VertexTangentialVectors2 star_FE].
  each_star_point Hp
    ltac:(unfold star_corner_tangents, star_metric, star_loc, star_tri,
            dot2, mulv2, vsub2;
          cbn; star_angle).
Qed.

Lemma star_angldeficit (p : StarPt) :
  In p (star_points 0) ->
  angldeficit (L := star_FE) star_metric p
  = match star_loc p with O => PI / 6 | _ => - (PI / 12) end.
Proof.
  intro Hp.
  change (angldeficit (L := star_FE) star_metric p)
    with (flat_angle (L := star_FE) p
          - metric_angle (L := star_FE) star_metric p).
  rewrite star_flat_angle, star_metric_angle by exact Hp.
  destruct (star_loc p); lra.
Qed.

Lemma star_geodesicurv (p : StarPt) :
  geodesicurv (L := star_FE) star_metric p = 0.
Proof.
  unfold geodesicurv. cbn [EdgeCurvature2 Operator_christoffel2 star_FE].
  unfold contract3, dot2; cbn [sum_range ux uy]. ring.
Qed.

Lemma star_elementcurv (p : StarPt) :
  elementcurv (L := star_FE) star_metric p = 0.
Proof. unfold elementcurv. cbn [Operator_Riemann star_FE]. ring. Qed.

Lemma star_sources (v : StarPt -> R) :
  sources (L := star_FE) tt star_metric 1%nat v
  = sum_list (star_points 0)
      (fun p => v p * match star_loc p with
                      | O => PI / 6
                      | _ => - (PI / 12)
                      end).
Proof.
  unfold sources.
  rewrite (integrate_zero _ (fun q => v q * geodesicurv (L := star_FE) star_metric q))
    by (intros; rewrite star_geodesicurv; ring).
  rewrite (integrate_zero _ (fun q => v q * elementcurv (L := star_FE) star_metric q))
    by (intros; rewrite star_elementcurv; ring).
  rewrite !Rplus_0_r. cbn [dx_BBND star_FE].
  apply sum_list_ext. intros p Hp. now rewrite star_angldeficit.
Qed.

Lemma star_sources_centre :
  sources (L := star_FE) tt star_metric 1%nat (star_shape 0%nat) = 2 * PI / 3.
Proof. rewrite star_sources. cbn. lra. Qed.

Lemma star_sources_corner :
  sources (L := star_FE) tt star_metric 1%nat (star_shape 2%nat) = - (PI / 6).
Proof. rewrite star_sources. cbn. lra. Qed.

Lemma star_mass (i j : nat) :
  mass_matrix (L := star_FE) tt star_metric 1%nat i j
  = sqrt 3 / 3
    * sum_list (star_points 2) (fun p => star_shape j p * star_shape i p).
Proof.
  unfold mass_matrix. cbn [dx H1 lift_space star_FE shape star_H1].
  rewrite integrate_weighted, <- sum_list_scal.
  rewrite <- sum_list_scal. apply sum_list_ext. intros p Hp.
  rewrite star_det by (now apply (star_point_tri 2)). field.
Qed.

Lemma star_mass_centre :
  mass_matrix (L := star_FE) tt star_metric 1%nat 0%nat 0%nat = 2 * sqrt 3 / 3.
Proof. rewrite star_mass. cbn. lra. Qed.

Lemma star_mass_corner_centre :
  mass_matrix (L := star_FE) tt star_metric 1%nat 2%nat 0%nat = sqrt 3 / 6.
Proof. rewrite star_mass. cbn. lra. Qed.

Lemma star_free (i : nat) :
  lift_FreeDofs (L := star_FE) tt 1%nat i = true <-> i = 0%nat.
Proof.
  unfold lift_FreeDofs, lift_space. cbn [H1 star_FE].
  rewrite FreeDofs_all. cbn [dof_boundaries star_H1].
  destruct i; split; intro H; try reflexivity; discriminate.
Qed.

Lemma star_exact_solve : exact_solve (L := star_FE) tt star_metric 1%nat.
Proof.
  unfold exact_solve. cbn [Inverse star_FE].
  apply (diagonal_inverse_single _ _ _ 0%nat).
  - intros i Hi. now apply star_free.
  - rewrite star_mass_centre. pose proof sqrt_3_pos. lra.
Qed.

Lemma star_liftK (i : nat) :
  GeneralizedGaussCurvature (L := star_FE) tt star_metric 1%nat i
  = match i with O => PI / sqrt 3 | _ => 0 end.
Proof.
  unfold GeneralizedGaussCurvature, mat_vec.
  cbn [Inverse star_FE lift_space H1 ndof star_H1].
  unfold diagonal_inverse.
  destruct i as [| i].
  - assert (Hf : lift_FreeDofs (L := star_FE) tt 1%nat 0%nat = true)
      by now apply star_free.
    cbn [sum_range]. rewrite Hf. cbn [andb Nat.eqb].
    unfold assembled_sources.
    cbn [lift_space H1 star_FE shape star_H1].
    rewrite star_sources_centre, star_mass_centre.
    pose proof sqrt_3_pos. field. lra.
  - assert (Hf : lift_FreeDofs (L := star_FE) tt 1%nat (S i) = false).
    { destruct (lift_FreeDofs (L := star_FE) tt 1%nat (S i)) eqn:H;
        [apply star_free in H; discriminate | reflexivity]. }
    cbn [sum_range]. rewrite Hf. cbn [andb]. ring.
Qed.

(** On the cone the lifting equation fails for the basis function of a
    boundary vertex. *)
Lemma star_boundary_equation_fails :
  lifted_form (L := star_FE) tt star_metric 1%nat
    (GeneralizedGaussCurvature (L := star_FE) tt star_metric 1)
    (star_shape 2%nat) = PI / 6 /\
  sources (L := star_FE) tt star_metric 1%nat (star_shape 2%nat) = - (PI / 6).
Proof.
  split; [| exact star_sources_corner].
  change (star_shape 2%nat)
    with (shape (lift_space (L := star_FE) tt 1%nat) 2).
  rewrite lifted_form_mass. unfold mat_vec.
  cbn [lift_space H1 star_FE ndof star_H1 sum_range].
  rewrite !star_liftK, star_mass_corner_centre.
  pose proof sqrt_3_pos. field. lra.
Qed.

(** C9.  For every parameter mesh, metric and lift order, with an exact
    solve: the space of [GeneralizedGaussCurvature] has all boundaries
    marked Dirichlet, so its free dofs are exactly the dofs that lie on no
    boundary; every boundary dof of the returned function is zero; and the
    lifting equation sum_T int_T K_h w = K(w) holds for the basis function
    w of every interior dof.  It is not enforced for all basis functions:
    on the four-triangle cone it fails for the basis function of a
    boundary vertex. *)
Theorem Dirichlet_lifting :
  (forall (L : PlanarFE) (mesh : Mesh) (gh : Pt -> mat2) (lift_order : nat),
     exact_solve mesh gh lift_order ->
     let V := lift_space mesh lift_order in
     let liftK := GeneralizedGaussCurvature mesh gh lift_order in
     (forall i, lift_FreeDofs mesh lift_order i = true
                <-> dof_boundaries V i = []) /\
     (forall i, dof_boundaries V i <> [] -> liftK i = 0) /\
     (forall i, (i < ndof V)%nat -> dof_boundaries V i = [] ->
        lifted_form mesh gh lift_order liftK (shape V i)
        = sources mesh gh lift_order (shape V i))) /\
  (exists (L : PlanarFE) (mesh : Mesh) (gh : Pt -> mat2) (lift_order : nat)
          (i : nat),
     exact_solve mesh gh lift_order /\
     (i < ndof (lift_space mesh lift_order))%nat /\
     dof_boundaries (lift_space mesh lift_order) i <> [] /\
     lifted_form mesh gh lift_order
       (GeneralizedGaussCurvature mesh gh lift_order)
       (shape (lift_space mesh lift_order) i)
     <> sources mesh gh lift_order (shape (lift_space mesh lift_order) i)).
Proof.
  split.
  - intros L mesh gh lift_order Hsolve V liftK.
    destruct (Dirichlet_solve mesh gh lift_order Hsolve) as [Hzero Heq].
    split; [| split; [exact Hzero | exact Heq]].
    intro i. apply FreeDofs_all.
  - exists star_FE, tt, star_metric, 1%nat, 2%nat.
    split; [exact star_exact_solve |].
    split; [cbn; lia |].
    split; [cbn; discriminate |].
    destruct star_boundary_equation_fails as [Hl Hr].
    cbn [lift_space H1 star_FE shape star_H1].
    rewrite Hl, Hr. pose proof PI_RGT_0. lra.
Qed.

Lemma Dirichlet_lifting_witness :
  let V := lift_space (L := star_FE) tt 1%nat in
  let liftK := GeneralizedGaussCurvature (L := star_FE) tt star_metric 1%nat in
  exact_solve (L := star_FE) tt star_metric 1%nat /\
  (forall i, dof_boundaries V i <> [] -> liftK i = 0) /\
  (forall i, (i < ndof V)%nat -> dof_boundaries V i = [] ->
     lifted_form (L := star_FE) tt star_metric 1%nat liftK (shape V i)
     = sources (L := star_FE) tt star_metric 1%nat (shape V i)).
Proof.
  destruct Dirichlet_lifting as [Hgen _].
  destruct (Hgen star_FE tt star_metric 1%nat star_exact_solve)
    as (_ & Hzero & Heq).
  split; [exact star_exact_solve |]. split; [exact Hzero | exact Heq].
Defined.

(** C2 (amended).  [GeneralizedGaussCurvature] assembles, from the metric
    alone, the functional
      K(u) = sum_V Theta_V u(V) + sum_T (int_T K_T u + int_dT kappa u)
    (angle deficits at the vertices, Gauss curvature R_0110 / det g of the
    elements, geodesic curvature of the element boundaries) for the test
    functions u that vanish at the boundary vertices; its mass matrix is
    symmetric; the function it returns vanishes on the boundary dofs and
    satisfies sum_T int_T K_h w = K(w) for the basis function w of every
    interior dof. *)
Theorem lifting_of_the_functional (L : PlanarFE) (mesh : Mesh)
  (gh : Pt -> mat2) (lift_order : nat) (vertex_of : Pt -> nat)
  (on_boundary : nat -> bool) :
  exact_solve mesh gh lift_order ->
  regular_metric mesh gh lift_order ->
  let V := lift_space mesh lift_order in
  let liftK := GeneralizedGaussCurvature mesh gh lift_order in
  let M := mass_matrix mesh gh lift_order in
  (forall u uV, vertex_data mesh vertex_of on_boundary uV u ->
     sources mesh gh lift_order u
     = generalized_curvature_functional mesh gh lift_order vertex_of uV u) /\
  (forall i j, M i j = M j i) /\
  (forall i uV, (i < ndof V)%nat -> dof_boundaries V i = [] ->
     vertex_data mesh vertex_of on_boundary uV (shape V i) ->
     lifted_form mesh gh lift_order liftK (shape V i)
     = generalized_curvature_functional mesh gh lift_order vertex_of uV
         (shape V i)) /\
  (forall i, dof_boundaries V i <> [] -> liftK i = 0).
Proof.
  intros Hsolve Hreg V liftK M.
  destruct (Dirichlet_solve mesh gh lift_order Hsolve) as [Hzero Heq].
  split; [| split; [| split]].
  - intros u uV Hvd.
    now apply (sources_are_the_functional mesh gh lift_order vertex_of
                 on_boundary).
  - intros i j. apply mass_symmetric.
  - intros i uV Hi Hint Hvd. unfold V, liftK. rewrite (Heq i Hi Hint).
    now apply (sources_are_the_functional mesh gh lift_order vertex_of
                 on_boundary).
  - exact Hzero.
Qed.

(** *** The cone: the conditions of the theorem *)

Lemma star_edge_vector (p : StarPt) :
  In p (star_points 1) ->
  let d := vsub2 (star_vertex (star_dof (star_tri p) (prev3 (star_loc p))))
                 (star_vertex (star_dof (star_tri p) (next3 (star_loc p)))) in
  0 < dot2 d d /\ 0 < dot2 d (mulv2 (star_metric p) d).
Proof.
  intro Hp.
  each_star_point Hp
    ltac:(unfold star_metric, star_tri, star_loc, dot2, mulv2, vsub2;
          cbn; split; lra).
Qed.

Lemma star_metric_symmetric (p : StarPt) :
  g01 (star_metric p) = g10 (star_metric p).
Proof.
  unfold star_metric. destruct (star_tri p) as [| [| [| tr]]]; reflexivity.
Qed.

Lemma star_regular_metric :
  regular_metric (L := star_FE) tt star_metric 1%nat.
Proof.
  split.
  - intros wq Hwq. cbn [dx star_FE] in Hwq. apply in_map_snd in Hwq.
    rewrite star_det by (now apply (star_point_tri 2)). lra.
  - intros wq Hwq. cbn [dx_element_boundary star_FE] in Hwq.
    apply in_map_iff in Hwq. destruct Hwq as (p & <- & Hp).
    cbn [snd]. cbv zeta.
    split; [apply star_metric_symmetric |].
    split; [rewrite star_det by (now apply (star_point_tri 1)); lra |].
    destruct (star_edge_vector p Hp) as [Hd Hg].
    split.
    + unfold t. cbn [tangential2 star_FE]. unfold star_tangential.
      rewrite Normalize2_form by exact Hd.
      now apply Rdiv_lt_0_compat.
    + left. unfold n, t. cbn [normal2 tangential2 star_FE].
      unfold star_normal, vopp2, rot90; cbn [ux uy]. f_equal; lra.
Qed.

Lemma star_vertex_data_centre :
  vertex_data (L := star_FE) tt star_vertex_of star_on_boundary
    star_centre_values (star_shape 0%nat).
Proof.
  split; [| split].
  - intros q Hq. cbn [dx_BBND star_FE] in Hq.
    each_star_point Hq ltac:(cbn; split; [lia | lra]).
  - intros v Hv Hb. unfold star_on_boundary in Hb.
    apply negb_false_iff, Nat.eqb_eq in Hb. subst v.
    cbn [dx_BBND star_FE].
    rewrite (sum_list_ext _ _ (fun _ => PI / 2)).
    + rewrite sum_list_const.
      replace (List.length (filter (at_vertex (L := star_FE) star_vertex_of 0)
                              (star_points 0))) with 4%nat by reflexivity.
      simpl INR. lra.
    + intros q Hq. apply filter_In in Hq. destruct Hq as [Hq Hat].
      rewrite star_flat_angle by exact Hq.
      unfold at_vertex, star_vertex_of in Hat.
      destruct q as [[kd tr] k]. unfold star_loc, star_tri in *.
      cbn [fst snd] in *.
      destruct k as [| k]; [reflexivity |].
      exfalso. destruct k as [| k]; cbn in Hat.
      * discriminate.
      * destruct tr as [| [| [| [| tr]]]]; discriminate.
  - intros v Hv Hb. unfold star_on_boundary in Hb.
    apply negb_true_iff in Hb. unfold star_centre_values. now rewrite Hb.
Qed.

(** Witness for C2 (amended): the cone, tested with the basis function of
    its centre. *)
Lemma lifting_of_the_functional_witness :
  lifted_form (L := star_FE) tt star_metric 1%nat
    (GeneralizedGaussCurvature (L := star_FE) tt star_metric 1%nat)
    (star_shape 0%nat)
  = generalized_curvature_functional (L := star_FE) tt star_metric 1%nat
      star_vertex_of star_centre_values (star_shape 0%nat).
Proof.
  destruct (lifting_of_the_functional star_FE tt star_metric 1%nat
              star_vertex_of star_on_boundary star_exact_solve
              star_regular_metric) as (_ & _ & Heq & _).
  apply (Heq 0%nat star_centre_values).
  - cbn. lia.
  - reflexivity.
  - exact star_vertex_data_centre.
Defined.

(** C2 (as stated) fails on the cone: for the basis function of the
    boundary vertex (1,1) the left side of the lifting equation is pi/6,
    the sources tested with it are - pi/6, and the functional of the spec
    is the angle deficit 2 pi - 2 pi/3 of that vertex. *)

Lemma lifting_equation_fails_on_boundary :
  let liftK := GeneralizedGaussCurvature (L := star_FE) tt star_metric 1%nat in
  let w := shape (lift_space (L := star_FE) tt 1%nat) 2%nat in
  let lhs := lifted_form (L := star_FE) tt star_metric 1%nat liftK w in
  dof_boundaries (lift_space (L := star_FE) tt 1%nat) 2%nat <> [] /\
  lhs = PI / 6 /\
  sources (L := star_FE) tt star_metric 1%nat w = - (PI / 6) /\
  generalized_curvature_functional (L := star_FE) tt star_metric 1%nat
    star_vertex_of star_corner_values w = 4 * PI / 3 /\
  lhs <> sources (L := star_FE) tt star_metric 1%nat w /\
  lhs <> generalized_curvature_functional (L := star_FE) tt star_metric 1%nat
           star_vertex_of star_corner_values w.
Proof.
  intros liftK w lhs.
  destruct star_boundary_equation_fails as [Hl Hr].
  assert (Hf : generalized_curvature_functional (L := star_FE) tt star_metric
                 1%nat star_vertex_of star_corner_values w = 4 * PI / 3).
  { unfold generalized_curvature_functional.
    rewrite integrate_zero.
    2:{ intros wq _. unfold Intrinsic.Kh. cbn [Operator_Riemann star_FE].
        unfold Rdiv. ring. }
    rewrite integrate_zero.
    2:{ intros wq _. unfold geodesic_curvature. cbv zeta.
        cbn [EdgeCurvature2 Operator_christoffel2 star_FE].
        unfold contract3, dot2 at 2; cbn [sum_range ux uy].
        unfold Rdiv. ring. }
    cbn [nv star_FE sum_range].
    unfold star_corner_values; cbn [Nat.eqb].
    unfold angle_deficit_at. cbn [dx_BBND star_FE].
    assert (Hang : sum_list (filter (at_vertex (L := star_FE) star_vertex_of 2)
                               (star_points 0))
                     (metric_angle (L := star_FE) star_metric)
                   = 2 * (PI / 3)).
    { rewrite (sum_list_ext _ _ (fun _ => PI / 3)).
      - rewrite sum_list_const.
        replace (List.length (filter (at_vertex (L := star_FE) star_vertex_of 2)
                                (star_points 0))) with 2%nat by reflexivity.
        simpl INR. lra.
      - intros q Hq. apply filter_In in Hq. destruct Hq as [Hq _].
        now apply star_metric_angle. }
    rewrite Hang. lra. }
  pose proof PI_RGT_0 as Hpi.
  split; [cbn; discriminate |].
  split; [exact Hl |]. split; [exact Hr |]. split; [exact Hf |].
  split.
  - unfold lhs, w, liftK. cbn [lift_space H1 star_FE shape star_H1].
    rewrite Hl, Hr. lra.
  - unfold lhs. rewrite Hf. unfold w, liftK.
    cbn [lift_space H1 star_FE shape star_H1]. rewrite Hl. lra.
Qed.

Lemma same_metric {L : PlanarFE} (F1 F2 : Pt -> mat32) :
  (forall p, trans_mul (F1 p) = trans_mul (F2 p)) ->
  metric_of_embedding F1 = metric_of_embedding F2.
Proof.
  intro H. apply functional_extensionality. intro p.
  unfold metric_of_embedding. apply H.
Qed.

(** C4.  The intrinsic Gauss curvature is K = R_0110 / det(g), with R the
    Riemann operator of the library applied to the metric function; it
    consumes the metric only: two embeddings with the same metric
    F^t F give the same [Kh], and the same function returned by
    [GeneralizedGaussCurvature], whose arguments are the parameter mesh,
    the metric and the lift order. *)
Theorem intrinsic_Gauss_curvature :
  (forall (L : PlanarFE) (gh : Pt -> mat2) (p : Pt),
     Intrinsic.Kh gh p
     = Operator_Riemann gh p 0%nat 1%nat 1%nat 0%nat / Det2 (gh p)) /\
  (forall (L : PlanarFE) (mesh : Mesh) (order : nat) (F1 F2 : Pt -> mat32),
     (forall p, trans_mul (F1 p) = trans_mul (F2 p)) ->
     forall p,
       Intrinsic.Kh (HCurlCurl_Set mesh order (metric_of_embedding F1)) p
       = Intrinsic.Kh (HCurlCurl_Set mesh order (metric_of_embedding F2)) p) /\
  (forall (L : PlanarFE) (mesh : Mesh) (order lift_order : nat)
          (F1 F2 : Pt -> mat32),
     (forall p, trans_mul (F1 p) = trans_mul (F2 p)) ->
     forall i,
       GeneralizedGaussCurvature mesh
         (HCurlCurl_Set mesh order (metric_of_embedding F1)) lift_order i
       = GeneralizedGaussCurvature mesh
           (HCurlCurl_Set mesh order (metric_of_embedding F2)) lift_order i).
Proof.
  split; [| split].
  - intros L gh p. reflexivity.
  - intros L mesh order F1 F2 H p. now rewrite (same_metric F1 F2 H).
  - intros L mesh order lift_order F1 F2 H i.
    now rewrite (same_metric F1 F2 H).
Qed.

Lemma intrinsic_Gauss_curvature_witness :
  (forall p, trans_mul (flat_embedding_xy p) = trans_mul (flat_embedding_yz p))
  /\
  (forall p,
     Intrinsic.Kh (L := star_FE)
       (HCurlCurl_Set (PlanarFE := star_FE) tt 0%nat
          (metric_of_embedding (L := star_FE) flat_embedding_xy)) p
     = Intrinsic.Kh (L := star_FE)
         (HCurlCurl_Set (PlanarFE := star_FE) tt 0%nat
            (metric_of_embedding (L := star_FE) flat_embedding_yz)) p) /\
  (forall i,
     GeneralizedGaussCurvature (L := star_FE) tt
       (HCurlCurl_Set (PlanarFE := star_FE) tt 0%nat
          (metric_of_embedding (L := star_FE) flat_embedding_xy)) 1%nat i
     = GeneralizedGaussCurvature (L := star_FE) tt
         (HCurlCurl_Set (PlanarFE := star_FE) tt 0%nat
            (metric_of_embedding (L := star_FE) flat_embedding_yz)) 1%nat i).
Proof.
  assert (Hsame : forall p, trans_mul (flat_embedding_xy p)
                            = trans_mul (flat_embedding_yz p)).
  { intro p. unfold trans_mul, flat_embedding_xy, flat_embedding_yz; cbn.
    f_equal; ring. }
  destruct intrinsic_Gauss_curvature as (_ & HK & HG).
  split; [exact Hsame |]. split.
  - exact (HK star_FE tt 0%nat flat_embedding_xy flat_embedding_yz Hsame).
  - exact (HG star_FE tt 0%nat 1%nat flat_embedding_xy flat_embedding_yz
             Hsame).
Defined.

End IntrinsicFacts.

(** * Further properties of the notebooks' code *)

(** ** Derivatives of quotients by a norm *)

Lemma derivable_ratio_norm_sum (a e b m : R) :
  0 <= m -> 0 < b * b + m ->
  derivable_pt_lim
    (fun s => (a + e * s) / sqrt ((b + s) * (b + s) + m)) 0
    ((e * (b * b + m) - a * b) / ((b * b + m) * sqrt (b * b + m))).
Proof.
  intros Hm Hpos.
  assert (Hc : sqrt m * sqrt m = m) by (now apply sqrt_sqrt).
  rewrite <- Hc in Hpos |- *.
  apply (derivable_pt_lim_ext
           (fun s => (a + e * s) / sqrt ((b + s) * (b + s) + sqrt m * sqrt m))).
  - intro s. reflexivity.
  - now apply derivable_ratio_norm.
Qed.

Lemma derivable_pt_lim_unshift (h : R -> R) (t0 l : R) :
  derivable_pt_lim (fun s => h (t0 + s)) 0 l -> derivable_pt_lim h t0 l.
Proof.
  unfold derivable_pt_lim. intros H eps Heps.
  destruct (H eps Heps) as [delta Hd]. exists delta. intros k Hk Hkd.
  specialize (Hd k Hk Hkd). rewrite Rplus_0_l, Rplus_0_r in Hd. exact Hd.
Qed.

Lemma derivable_pt_lim_shift (h : R -> R) (t0 l : R) :
  derivable_pt_lim h t0 l -> derivable_pt_lim (fun s => h (t0 + s)) 0 l.
Proof.
  unfold derivable_pt_lim. intros H eps Heps.
  destruct (H eps Heps) as [delta Hd]. exists delta. intros k Hk Hkd.
  specialize (Hd k Hk Hkd). rewrite Rplus_0_l, Rplus_0_r. exact Hd.
Qed.

Lemma derivable_ratio_comp (A : R -> R) (x0 alpha c e m : R) :
  derivable_pt_lim A x0 alpha ->
  0 <= m -> 0 < A x0 * A x0 + m ->
  derivable_pt_lim (fun x => (c + e * A x) / sqrt (A x * A x + m)) x0
    (alpha * ((e * m - c * A x0)
              / ((A x0 * A x0 + m) * sqrt (A x0 * A x0 + m)))).
Proof.
  intros HA Hm Hpos.
  set (phi := fun t => (c + e * t) / sqrt (t * t + m)).
  assert (Hphi : derivable_pt_lim phi (A x0)
            ((e * m - c * A x0)
             / ((A x0 * A x0 + m) * sqrt (A x0 * A x0 + m)))).
  { apply derivable_pt_lim_unshift.
    apply (derivable_pt_lim_ext
             (fun s => ((c + e * A x0) + e * s)
                       / sqrt ((A x0 + s) * (A x0 + s) + m))).
    - intro s. unfold phi. f_equal. ring.
    - eapply derivable_pt_lim_value;
        [| apply (derivable_ratio_norm_sum (c + e * A x0) e (A x0) m Hm Hpos)].
      f_equal. ring. }
  apply (derivable_pt_lim_ext (comp phi A)).
  - intro x. reflexivity.
  - eapply derivable_pt_lim_value;
      [| apply (derivable_pt_lim_comp A phi x0 _ _ HA Hphi)].
    ring.
Qed.

(** The derivative at 0 of s |-> sqrt (1 - T) (c + e s) / sqrt T and of
    s |-> - sqrt T, where T = (b + s)^2 + m. *)
Lemma derivable_quadratic_shift (b m : R) :
  derivable_pt_lim (fun s => (b + s) * (b + s) + m) 0 (2 * b).
Proof.
  apply (derivable_pt_lim_ext
           ((fct_cte b + id) * (fct_cte b + id) + fct_cte m)%F).
  - intro s. reflexivity.
  - assert (Hlin : derivable_pt_lim (fct_cte b + id)%F 0 (0 + 1)).
    { apply derivable_pt_lim_plus;
        [apply derivable_pt_lim_const | apply derivable_pt_lim_id]. }
    eapply derivable_pt_lim_value;
      [| apply derivable_pt_lim_plus;
         [ apply (derivable_pt_lim_mult _ _ 0 _ _ Hlin Hlin)
         | apply derivable_pt_lim_const ]].
    unfold plus_fct, fct_cte, id. ring.
Qed.

Lemma derivable_sqrt_quadratic (b m : R) :
  0 < b * b + m ->
  derivable_pt_lim (fun s => sqrt ((b + s) * (b + s) + m)) 0
    (b / sqrt (b * b + m)).
Proof.
  intro Hpos.
  apply (derivable_pt_lim_ext (comp sqrt (fun s => (b + s) * (b + s) + m))).
  - intro s. reflexivity.
  - eapply derivable_pt_lim_value;
      [| apply derivable_pt_lim_comp;
         [ apply derivable_quadratic_shift
         | apply derivable_pt_lim_sqrt ]].
    + replace ((b + 0) * (b + 0) + m) with (b * b + m) by ring.
      field. apply Rgt_not_eq, sqrt_lt_R0. exact Hpos.
    + replace ((b + 0) * (b + 0) + m) with (b * b + m) by ring. exact Hpos.
Qed.

Lemma derivable_sqrt_one_minus_quadratic (b m : R) :
  b * b + m < 1 ->
  derivable_pt_lim (fun s => sqrt (1 - ((b + s) * (b + s) + m))) 0
    (- b / sqrt (1 - (b * b + m))).
Proof.
  intro Hlt.
  apply (derivable_pt_lim_ext
           (comp sqrt (minus_fct (fct_cte 1)
                         (fun s => (b + s) * (b + s) + m)))).
  - intro s. reflexivity.
  - eapply derivable_pt_lim_value;
      [| apply derivable_pt_lim_comp;
         [ apply derivable_pt_lim_minus;
           [ apply derivable_pt_lim_const | apply derivable_quadratic_shift ]
         | apply derivable_pt_lim_sqrt ]].
    + unfold minus_fct, fct_cte.
      replace (1 - ((b + 0) * (b + 0) + m)) with (1 - (b * b + m)) by ring.
      field. apply Rgt_not_eq, sqrt_lt_R0. lra.
    + unfold minus_fct, fct_cte.
      replace (1 - ((b + 0) * (b + 0) + m)) with (1 - (b * b + m)) by ring.
      lra.
Qed.

Lemma derivable_pseudosphere_component (c e b m : R) :
  0 <= m -> 0 < b * b + m -> b * b + m < 1 ->
  derivable_pt_lim
    (fun s => sqrt (1 - ((b + s) * (b + s) + m)) * (c + e * s)
              / sqrt ((b + s) * (b + s) + m)) 0
    (- b / sqrt (1 - (b * b + m)) * (c / sqrt (b * b + m))
     + sqrt (1 - (b * b + m))
       * ((e * (b * b + m) - c * b) / ((b * b + m) * sqrt (b * b + m)))).
Proof.
  intros Hm Hpos Hlt.
  apply (derivable_pt_lim_ext
           (mult_fct
              (fun s => sqrt (1 - ((b + s) * (b + s) + m)))
              (fun s => (c + e * s) / sqrt ((b + s) * (b + s) + m)))).
  - intro s. unfold mult_fct, Rdiv. ring.
  - eapply derivable_pt_lim_value;
      [| apply derivable_pt_lim_mult;
         [ apply (derivable_sqrt_one_minus_quadratic b m Hlt)
         | apply (derivable_ratio_norm_sum c e b m Hm Hpos) ]].
    cbn beta.
    replace ((b + 0) * (b + 0) + m) with (b * b + m) by ring.
    replace (c + e * 0) with c by ring. reflexivity.
Qed.

(** ** The Frobenius product and quadrature sums *)

Lemma InnerProduct_Cauchy_Schwarz (A B : mat3) :
  InnerProduct A B * InnerProduct A B
  <= InnerProduct A A * InnerProduct B B.
Proof.
  destruct A as [a0 a1 a2 a3 a4 a5 a6 a7 a8],
           B as [b0 b1 b2 b3 b4 b5 b6 b7 b8].
  unfold InnerProduct; cbn [m00 m01 m02 m10 m11 m12 m20 m21 m22].
  apply Rge_le, Rminus_ge, Rle_ge.
  match goal with |- 0 <= ?e =>
    replace e with
      ((a0*b1-a1*b0)^2 + (a0*b2-a2*b0)^2 + (a0*b3-a3*b0)^2 + (a0*b4-a4*b0)^2
       + (a0*b5-a5*b0)^2 + (a0*b6-a6*b0)^2 + (a0*b7-a7*b0)^2 + (a0*b8-a8*b0)^2
       + (a1*b2-a2*b1)^2 + (a1*b3-a3*b1)^2 + (a1*b4-a4*b1)^2 + (a1*b5-a5*b1)^2
       + (a1*b6-a6*b1)^2 + (a1*b7-a7*b1)^2 + (a1*b8-a8*b1)^2
       + (a2*b3-a3*b2)^2 + (a2*b4-a4*b2)^2 + (a2*b5-a5*b2)^2 + (a2*b6-a6*b2)^2
       + (a2*b7-a7*b2)^2 + (a2*b8-a8*b2)^2
       + (a3*b4-a4*b3)^2 + (a3*b5-a5*b3)^2 + (a3*b6-a6*b3)^2 + (a3*b7-a7*b3)^2
       + (a3*b8-a8*b3)^2
       + (a4*b5-a5*b4)^2 + (a4*b6-a6*b4)^2 + (a4*b7-a7*b4)^2 + (a4*b8-a8*b4)^2
       + (a5*b6-a6*b5)^2 + (a5*b7-a7*b5)^2 + (a5*b8-a8*b5)^2
       + (a6*b7-a7*b6)^2 + (a6*b8-a8*b6)^2
       + (a7*b8-a8*b7)^2) by ring
  end.
  repeat apply Rplus_le_le_0_compat; apply pow2_ge_0.
Qed.

Lemma InnerProduct_msum_range (n : nat) (g : nat -> mat3) (B : mat3) :
  InnerProduct (WeingartenLift.msum_range n g) B
  = sum_range n (fun j => InnerProduct (g j) B).
Proof.
  induction n as [| n IH]; cbn [WeingartenLift.msum_range sum_range].
  - unfold InnerProduct, mzero; cbn. ring.
  - rewrite <- IH. unfold InnerProduct, madd;
      cbn [m00 m01 m02 m10 m11 m12 m20 m21 m22]. ring.
Qed.

Lemma InnerProduct_mscale (c : R) (A B : mat3) :
  InnerProduct (Spectrum.mscale c A) B = c * InnerProduct A B.
Proof.
  unfold InnerProduct, Spectrum.mscale;
    cbn [m00 m01 m02 m10 m11 m12 m20 m21 m22]. ring.
Qed.

Lemma InnerProduct_comm (A B : mat3) : InnerProduct A B = InnerProduct B A.
Proof. unfold InnerProduct. ring. Qed.

Lemma InnerProduct_self_nonneg (A : mat3) : 0 <= InnerProduct A A.
Proof.
  unfold InnerProduct.
  pose proof (Rle_0_sqr (m00 A)). pose proof (Rle_0_sqr (m01 A)).
  pose proof (Rle_0_sqr (m02 A)). pose proof (Rle_0_sqr (m10 A)).
  pose proof (Rle_0_sqr (m11 A)). pose proof (Rle_0_sqr (m12 A)).
  pose proof (Rle_0_sqr (m20 A)). pose proof (Rle_0_sqr (m21 A)).
  pose proof (Rle_0_sqr (m22 A)). unfold Rsqr in *. lra.
Qed.

Lemma integrate_nonneg {Pt : Type} (r : Rule Pt) (g : Pt -> R) :
  (forall wq, In wq r -> 0 <= fst wq) ->
  (forall wq, In wq r -> 0 <= g (snd wq)) ->
  0 <= integrate r g.
Proof.
  unfold integrate. induction r as [| a r IH]; intros Hw Hg.
  - cbn. lra.
  - cbn [sum_list].
    assert (0 <= fst a * g (snd a)).
    { apply Rmult_le_pos; [apply Hw | apply Hg]; now left. }
    assert (0 <= sum_list r (fun wq => fst wq * g (snd wq))).
    { apply IH; intros wq Hwq; [apply Hw | apply Hg]; now right. }
    lra.
Qed.

(** A quotient N / sqrt D1 / sqrt D2 with N^2 <= D1 D2 is a cosine. *)
Lemma ratio_in_range (N D1 D2 : R) :
  0 < D1 -> 0 < D2 -> N * N <= D1 * D2 ->
  -1 <= N / sqrt D1 / sqrt D2 <= 1.
Proof.
  intros H1 H2 HN.
  assert (Hs1 : 0 < sqrt D1) by (now apply sqrt_lt_R0).
  assert (Hs2 : 0 < sqrt D2) by (now apply sqrt_lt_R0).
  assert (Hq1 : sqrt D1 * sqrt D1 = D1) by (apply sqrt_sqrt; lra).
  assert (Hq2 : sqrt D2 * sqrt D2 = D2) by (apply sqrt_sqrt; lra).
  set (s := sqrt D1 * sqrt D2).
  assert (Hs : 0 < s) by (unfold s; now apply Rmult_lt_0_compat).
  assert (Hss : s * s = D1 * D2) by (unfold s; nra).
  replace (N / sqrt D1 / sqrt D2) with (N / s) by (unfold s; field; lra).
  assert (Habs : - s <= N <= s) by (split; nra).
  split.
  - apply (Rmult_le_reg_r s); [exact Hs |].
    unfold Rdiv. rewrite Rmult_assoc, Rinv_l by lra. lra.
  - apply (Rmult_le_reg_r s); [exact Hs |].
    unfold Rdiv. rewrite Rmult_assoc, Rinv_l by lra. lra.
Qed.

(** ** The principal curvatures as eigenvalues *)

Module SpectrumFacts.
Import Extrinsic Spectrum ExtrinsicFacts.

(** For a symmetric tensor that annihilates the unit vector nu:
    det (W + nu nu^t) is the sum of the principal 2 x 2 minors of W, and
    det W = 0. *)
Lemma Det_plus_outer (W : mat3) (nu : vec3) :
  symmetric3 W -> mulv W nu = V3 0 0 0 -> dot nu nu = 1 ->
  Det (madd W (OuterProduct nu nu))
  = (m00 W * m11 W - m01 W * m10 W) + (m00 W * m22 W - m02 W * m20 W)
    + (m11 W * m22 W - m12 W * m21 W)
  /\ Det W = 0.
Proof.
  destruct W as [a b c b' d e c' e' f], nu as [x y z].
  unfold symmetric3, mulv, dot, Det, madd, OuterProduct;
    cbn [vx vy vz m00 m01 m02 m10 m11 m12 m20 m21 m22].
  intros (<- & <- & <-) Hk Hn. injection Hk as H1 H2 H3.
  split; nsatz.
Qed.

Lemma discriminant_nonneg (W : mat3) (nu : vec3) :
  symmetric3 W -> mulv W nu = V3 0 0 0 -> dot nu nu = 1 ->
  4 * ((m00 W * m11 W - m01 W * m10 W) + (m00 W * m22 W - m02 W * m20 W)
       + (m11 W * m22 W - m12 W * m21 W))
  <= Trace W * Trace W.
Proof.
  intros Hs Hk Hn.
  pose proof (InnerProduct_Cauchy_Schwarz W (projection nu)) as Hcs.
  assert (HWP : InnerProduct W (projection nu) = Trace W).
  { destruct W as [a b c b' d e c' e' f], nu as [x y z].
    unfold symmetric3, mulv, dot, InnerProduct, projection, Trace in *;
      cbn [vx vy vz m00 m01 m02 m10 m11 m12 m20 m21 m22] in *.
    destruct Hs as (<- & <- & <-). injection Hk as H1 H2 H3. nsatz. }
  assert (HPP : InnerProduct (projection nu) (projection nu) = 2).
  { destruct nu as [x y z].
    unfold dot, InnerProduct, projection in *;
      cbn [vx vy vz m00 m01 m02 m10 m11 m12 m20 m21 m22] in *. nsatz. }
  rewrite HWP, HPP in Hcs.
  destruct W as [a b c b' d e c' e' f].
  unfold symmetric3, InnerProduct, Trace in *;
    cbn [m00 m01 m02 m10 m11 m12 m20 m21 m22] in *.
  destruct Hs as (<- & <- & <-). nra.
Qed.

Section Surface.
Variables (Pt Mesh : Type).
Variable normal3 : Pt -> vec3.
Variable Grad : (Pt -> vec3) -> Pt -> mat3.

(** X14.  Where the Weingarten tensor W = Grad(nu) is symmetric and
    annihilates the unit normal, the fields of [ExtrinsicCurvatureSmooth]
    satisfy K <= H^2, so that the square root in k1 and k2 is taken of a
    number that is not negative, and det(W - lam I) = - lam (lam - k1) (lam
    - k2): the eigenvalues of W are exactly 0, k1 and k2. *)
Theorem principal_curvatures_eigenvalues (mesh : Mesh) (p : Pt) :
  let res := ExtrinsicCurvatureSmooth normal3 Grad mesh in
  let W := Grad normal3 p in
  symmetric3 W -> mulv W (normal3 p) = V3 0 0 0 ->
  dot (normal3 p) (normal3 p) = 1 ->
  ret_K res p <= ret_H res p ^ 2 /\
  (forall lam,
     charpoly W lam = - lam * (lam - ret_k1 res p) * (lam - ret_k2 res p)) /\
  (forall lam,
     charpoly W lam = 0
     <-> lam = 0 \/ lam = ret_k1 res p \/ lam = ret_k2 res p).
Proof.
  intros res W Hs Hk Hn.
  destruct (Det_plus_outer W (normal3 p) Hs Hk Hn) as [HK HD].
  pose proof (discriminant_nonneg W (normal3 p) Hs Hk Hn) as Hdisc.
  unfold res, ExtrinsicCurvatureSmooth, ret_H, ret_K, ret_k1, ret_k2;
    cbn [fst snd]. fold W.
  set (H := 0.5 * Trace W).
  set (K := Det (madd W (OuterProduct (normal3 p) (normal3 p)))) in *.
  assert (HHK : K <= H ^ 2).
  { unfold H. rewrite HK. nra. }
  assert (Hss : sqrt (H ^ 2 - K) * sqrt (H ^ 2 - K) = H ^ 2 - K)
    by (apply sqrt_sqrt; lra).
  set (s := sqrt (H ^ 2 - K)) in *.
  assert (Hchar : forall lam,
            charpoly W lam = - lam * (lam - (H + s)) * (lam - (H - s))).
  { intro lam.
    transitivity (- lam * (lam * lam - 2 * H * lam + K)); [| nra].
    rewrite HK. unfold H. clear - HD Hs.
    destruct W as [a b c b' d e c' e' f].
    unfold charpoly, symmetric3, Det, madd, mscale, Id3, Trace in *;
      cbn [m00 m01 m02 m10 m11 m12 m20 m21 m22] in *.
    destruct Hs as (<- & <- & <-). nra. }
  split; [exact HHK |]. split; [exact Hchar |].
  intro lam. rewrite Hchar. split.
  - intro Hz. apply Rmult_integral in Hz. destruct Hz as [Hz | Hz].
    + apply Rmult_integral in Hz. destruct Hz as [Hz | Hz].
      * left. lra.
      * right. left. lra.
    + right. right. lra.
  - intros [-> | [-> | ->]]; ring.
Qed.

End Surface.

Lemma cylinder_Weingarten_symmetric (r : R) (p : vec3) :
  0 < r -> on_cylinder r p ->
  symmetric3 (cylinder_Weingarten r p) /\
  mulv (cylinder_Weingarten r p) (cylinder_normal r p) = V3 0 0 0 /\
  dot (cylinder_normal r p) (cylinder_normal r p) = 1.
Proof.
  intros Hr Hp. unfold on_cylinder in Hp. destruct p as [x y z].
  unfold symmetric3, cylinder_Weingarten, cylinder_normal, mulv, dot;
    cbn [vx vy vz m00 m01 m02 m10 m11 m12 m20 m21 m22] in *.
  repeat split.
  - f_equal. ring.
  - f_equal; field_simplify_eq; try lra.
    + replace (r ^ 2) with (r * r) by ring. rewrite <- Hp. ring.
    + replace (r ^ 2) with (r * r) by ring. rewrite <- Hp. ring.
  - field_simplify_eq; lra.
Qed.

Lemma principal_curvatures_eigenvalues_witness :
  let res := ExtrinsicCurvatureSmooth cyl2_normal cyl2_Grad tt in
  let W := cyl2_Grad cyl2_normal cyl2_point in
  ret_K res cyl2_point <= ret_H res cyl2_point ^ 2 /\
  (forall lam,
     charpoly W lam
     = - lam * (lam - ret_k1 res cyl2_point) * (lam - ret_k2 res cyl2_point)) /\
  (forall lam,
     charpoly W lam = 0
     <-> lam = 0 \/ lam = ret_k1 res cyl2_point \/ lam = ret_k2 res cyl2_point).
Proof.
  assert (H2 : 0 < 2) by lra.
  assert (Hc : on_cylinder 2 cyl2_point)
    by (unfold on_cylinder, cyl2_point; simpl; lra).
  destruct (cylinder_Weingarten_symmetric 2 cyl2_point H2 Hc)
    as (Hs & Hk & Hn).
  exact (principal_curvatures_eigenvalues vec3 unit cyl2_normal cyl2_Grad tt
           cyl2_point Hs Hk Hn).
Defined.

End SpectrumFacts.

Module OrientationFacts.
Import Extrinsic Spectrum Orientation ExtrinsicFacts SpectrumFacts.

Section Surface.
Variables (Pt Mesh : Type).
Variable normal3 : Pt -> vec3.
Variable Grad : (Pt -> vec3) -> Pt -> mat3.

(** X15.  Reversing the orientation of the surface, that is passing from the
    normal nu with Weingarten tensor W to - nu with - W, leaves the Gauss
    curvature that [ExtrinsicCurvatureSmooth] returns unchanged, changes the
    sign of the mean curvature and exchanges the principal curvatures with a
    change of sign: k1 becomes - k2 and k2 becomes - k1. *)
Theorem orientation_reversal (mesh : Mesh) (p : Pt) :
  let res := ExtrinsicCurvatureSmooth normal3 Grad mesh in
  let res' := ExtrinsicCurvatureSmooth (fun q => vopp (normal3 q)) Grad mesh in
  Grad (fun q => vopp (normal3 q)) p = mscale (-1) (Grad normal3 p) ->
  symmetric3 (Grad normal3 p) ->
  mulv (Grad normal3 p) (normal3 p) = V3 0 0 0 ->
  dot (normal3 p) (normal3 p) = 1 ->
  ret_K res' p = ret_K res p /\
  ret_H res' p = - ret_H res p /\
  ret_k1 res' p = - ret_k2 res p /\
  ret_k2 res' p = - ret_k1 res p.
Proof.
  intros res res' Hlin Hs Hk Hn.
  destruct (Det_plus_outer _ _ Hs Hk Hn) as [HK _].
  assert (Hs' : symmetric3 (mscale (-1) (Grad normal3 p))).
  { destruct Hs as (H1 & H2 & H3). unfold symmetric3, mscale;
      cbn [m00 m01 m02 m10 m11 m12 m20 m21 m22].
    rewrite H1, H2, H3. repeat split. }
  assert (Hk' : mulv (mscale (-1) (Grad normal3 p)) (vopp (normal3 p))
                = V3 0 0 0).
  { injection Hk as H1 H2 H3.
    unfold mulv, mscale, vopp; cbn [vx vy vz m00 m01 m02 m10 m11 m12 m20 m21 m22].
    f_equal; nra. }
  assert (Hn' : dot (vopp (normal3 p)) (vopp (normal3 p)) = 1).
  { rewrite <- Hn. unfold dot, vopp; cbn [vx vy vz]. ring. }
  destruct (Det_plus_outer _ _ Hs' Hk' Hn') as [HK' _].
  assert (HKK : ret_K res' p = ret_K res p).
  { unfold res, res', ExtrinsicCurvatureSmooth, ret_K; cbn [fst snd].
    rewrite Hlin, HK, HK'. unfold mscale;
      cbn [m00 m01 m02 m10 m11 m12 m20 m21 m22]. ring. }
  assert (HHH : ret_H res' p = - ret_H res p).
  { unfold res, res', ExtrinsicCurvatureSmooth, ret_H; cbn [fst snd].
    rewrite Hlin. unfold Trace, mscale;
      cbn [m00 m01 m02 m10 m11 m12 m20 m21 m22]. lra. }
  assert (Hk1 : ret_k1 res' p
                = ret_H res' p + sqrt (ret_H res' p ^ 2 - ret_K res' p))
    by reflexivity.
  assert (Hk2 : ret_k2 res' p
                = ret_H res' p - sqrt (ret_H res' p ^ 2 - ret_K res' p))
    by reflexivity.
  assert (Hl1 : ret_k1 res p
                = ret_H res p + sqrt (ret_H res p ^ 2 - ret_K res p))
    by reflexivity.
  assert (Hl2 : ret_k2 res p
                = ret_H res p - sqrt (ret_H res p ^ 2 - ret_K res p))
    by reflexivity.
  assert (Hsq : ret_H res' p ^ 2 - ret_K res' p
                = ret_H res p ^ 2 - ret_K res p).
  { rewrite HKK, HHH. ring. }
  split; [exact HKK |]. split; [exact HHH |].
  rewrite Hk1, Hk2, Hl1, Hl2, Hsq, HHH. split; ring.
Qed.

End Surface.

Lemma orientation_reversal_witness :
  let res := ExtrinsicCurvatureSmooth cyl2_normal cyl2_Grad_linear tt in
  let res' := ExtrinsicCurvatureSmooth (fun q => vopp (cyl2_normal q))
                cyl2_Grad_linear tt in
  ret_K res' cyl2_point = ret_K res cyl2_point /\
  ret_H res' cyl2_point = - ret_H res cyl2_point /\
  ret_k1 res' cyl2_point = - ret_k2 res cyl2_point /\
  ret_k2 res' cyl2_point = - ret_k1 res cyl2_point.
Proof.
  assert (H2 : 0 < 2) by lra.
  assert (Hc : on_cylinder 2 cyl2_point)
    by (unfold on_cylinder, cyl2_point; simpl; lra).
  destruct (cylinder_Weingarten_symmetric 2 cyl2_point H2 Hc)
    as (Hs & Hk & Hn).
  assert (Hone : cyl2_Grad_linear cyl2_normal cyl2_point
                 = cylinder_Weingarten 2 cyl2_point).
  { unfold cyl2_Grad_linear, cyl2_normal. rewrite Hn.
    unfold mscale. destruct (cylinder_Weingarten 2 cyl2_point); cbn.
    f_equal; ring. }
  apply (orientation_reversal vec3 unit cyl2_normal cyl2_Grad_linear tt
           cyl2_point).
  - rewrite Hone. unfold cyl2_Grad_linear, cyl2_normal.
    replace (dot (vopp (cylinder_normal 2 cyl2_point))
                 (cylinder_normal 2 cyl2_point)) with (-1).
    + reflexivity.
    + transitivity (- dot (cylinder_normal 2 cyl2_point)
                        (cylinder_normal 2 cyl2_point)).
      * rewrite Hn. ring.
      * unfold dot, vopp; cbn [vx vy vz]. ring.
  - rewrite Hone. exact Hs.
  - rewrite Hone. exact Hk.
  - exact Hn.
Defined.

End OrientationFacts.

(** ** The sphere *)

Module SphereFacts.
Import Extrinsic Spectrum Sphere ExtrinsicFacts.

Lemma Normalize_component (a : R) (q : vec3) :
  / norm q * a = a / sqrt (vx q * vx q + vy q * vy q + vz q * vz q).
Proof. unfold norm, dot, Rdiv. apply Rmult_comm. Qed.

Lemma sphere_Weingarten_is_surface_gradient (r : R) (p : vec3) :
  0 < r -> on_sphere r p ->
  sphere_normal_field p = sphere_normal r p /\
  surface_gradient_at sphere_normal_field (sphere_normal r p) p
    (sphere_Weingarten r p).
Proof.
  intros Hr Hp. unfold on_sphere in Hp.
  destruct p as [x y z]. cbn [vx vy vz] in Hp.
  assert (Hx : 0 < x * x + (y * y + z * z)) by nra.
  assert (Hy : 0 < y * y + (x * x + z * z)) by nra.
  assert (Hz : 0 < z * z + (x * x + y * y)) by nra.
  assert (Hxx : 0 <= y * y + z * z) by nra.
  assert (Hyy : 0 <= x * x + z * z) by nra.
  assert (Hzz : 0 <= x * x + y * y) by nra.
  assert (Hrx : sqrt (x * x + (y * y + z * z)) = r).
  { replace (x * x + (y * y + z * z)) with (r * r) by lra.
    apply sqrt_square. lra. }
  assert (Hry : sqrt (y * y + (x * x + z * z)) = r).
  { replace (y * y + (x * x + z * z)) with (r * r) by lra.
    apply sqrt_square. lra. }
  assert (Hrz : sqrt (z * z + (x * x + y * y)) = r).
  { replace (z * z + (x * x + y * y)) with (r * r) by lra.
    apply sqrt_square. lra. }
  assert (Hn : norm (V3 x y z) = r).
  { unfold norm, dot; cbn [vx vy vz]. rewrite Hp. apply sqrt_square. lra. }
  split.
  { unfold sphere_normal_field, Normalize, sphere_normal, vscale;
      cbn [vx vy vz]. rewrite Hn. f_equal; unfold Rdiv; ring. }
  exists
    (V3 ((1 * (x * x + (y * y + z * z)) - x * x)
         / ((x * x + (y * y + z * z)) * sqrt (x * x + (y * y + z * z))))
        ((0 * (y * y + (x * x + z * z)) - x * y)
         / ((y * y + (x * x + z * z)) * sqrt (y * y + (x * x + z * z))))
        ((0 * (z * z + (x * x + y * y)) - x * z)
         / ((z * z + (x * x + y * y)) * sqrt (z * z + (x * x + y * y))))),
    (V3 ((0 * (x * x + (y * y + z * z)) - y * x)
         / ((x * x + (y * y + z * z)) * sqrt (x * x + (y * y + z * z))))
        ((1 * (y * y + (x * x + z * z)) - y * y)
         / ((y * y + (x * x + z * z)) * sqrt (y * y + (x * x + z * z))))
        ((0 * (z * z + (x * x + y * y)) - y * z)
         / ((z * z + (x * x + y * y)) * sqrt (z * z + (x * x + y * y))))),
    (V3 ((0 * (x * x + (y * y + z * z)) - z * x)
         / ((x * x + (y * y + z * z)) * sqrt (x * x + (y * y + z * z))))
        ((0 * (y * y + (x * x + z * z)) - z * y)
         / ((y * y + (x * x + z * z)) * sqrt (y * y + (x * x + z * z))))
        ((1 * (z * z + (x * x + y * y)) - z * z)
         / ((z * z + (x * x + y * y)) * sqrt (z * z + (x * x + y * y))))).
  assert (Hd : forall (a e : R) (j : nat) (b m : R) (comp : vec3 -> R),
            0 <= m -> 0 < b * b + m ->
            (forall s, comp (sphere_normal_field (shift (V3 x y z) j s))
                       = (a + e * s) / sqrt ((b + s) * (b + s) + m)) ->
            derivable_pt_lim
              (fun s => comp (sphere_normal_field (shift (V3 x y z) j s))) 0
              ((e * (b * b + m) - a * b)
               / ((b * b + m) * sqrt (b * b + m)))).
  { intros a e j b m comp Hm Hpos Hext.
    apply (derivable_pt_lim_ext
             (fun s => (a + e * s) / sqrt ((b + s) * (b + s) + m))).
    - intro s. symmetry. apply Hext.
    - now apply derivable_ratio_norm_sum. }
  split; [| split; [| split]].
  - repeat split; cbn [vx vy vz].
    + apply (Hd x 1 0%nat x (y * y + z * z) vx Hxx Hx).
      intro s. unfold sphere_normal_field, Normalize, vscale, shift;
        cbn [vx vy vz]. rewrite Normalize_component; cbn [vx vy vz].
      f_equal; [ring | f_equal; ring].
    + apply (Hd x 0 1%nat y (x * x + z * z) vx Hyy Hy).
      intro s. unfold sphere_normal_field, Normalize, vscale, shift;
        cbn [vx vy vz]. rewrite Normalize_component; cbn [vx vy vz].
      f_equal; [ring | f_equal; ring].
    + apply (Hd x 0 2%nat z (x * x + y * y) vx Hzz Hz).
      intro s. unfold sphere_normal_field, Normalize, vscale, shift;
        cbn [vx vy vz]. rewrite Normalize_component; cbn [vx vy vz].
      f_equal; [ring | f_equal; ring].
  - repeat split; cbn [vx vy vz].
    + apply (Hd y 0 0%nat x (y * y + z * z) vy Hxx Hx).
      intro s. unfold sphere_normal_field, Normalize, vscale, shift;
        cbn [vx vy vz]. rewrite Normalize_component; cbn [vx vy vz].
      f_equal; [ring | f_equal; ring].
    + apply (Hd y 1 1%nat y (x * x + z * z) vy Hyy Hy).
      intro s. unfold sphere_normal_field, Normalize, vscale, shift;
        cbn [vx vy vz]. rewrite Normalize_component; cbn [vx vy vz].
      f_equal; [ring | f_equal; ring].
    + apply (Hd y 0 2%nat z (x * x + y * y) vy Hzz Hz).
      intro s. unfold sphere_normal_field, Normalize, vscale, shift;
        cbn [vx vy vz]. rewrite Normalize_component; cbn [vx vy vz].
      f_equal; [ring | f_equal; ring].
  - repeat split; cbn [vx vy vz].
    + apply (Hd z 0 0%nat x (y * y + z * z) vz Hxx Hx).
      intro s. unfold sphere_normal_field, Normalize, vscale, shift;
        cbn [vx vy vz]. rewrite Normalize_component; cbn [vx vy vz].
      f_equal; [ring | f_equal; ring].
    + apply (Hd z 0 1%nat y (x * x + z * z) vz Hyy Hy).
      intro s. unfold sphere_normal_field, Normalize, vscale, shift;
        cbn [vx vy vz]. rewrite Normalize_component; cbn [vx vy vz].
      f_equal; [ring | f_equal; ring].
    + apply (Hd z 1 2%nat z (x * x + y * y) vz Hzz Hz).
      intro s. unfold sphere_normal_field, Normalize, vscale, shift;
        cbn [vx vy vz]. rewrite Normalize_component; cbn [vx vy vz].
      f_equal; [ring | f_equal; ring].
  - rewrite Hrx, Hry, Hrz.
    replace (x * x + (y * y + z * z)) with (r * r) by lra.
    replace (y * y + (x * x + z * z)) with (r * r) by lra.
    replace (z * z + (x * x + y * y)) with (r * r) by lra.
    unfold sphere_Weingarten, sphere_normal, mscale, rows, mulv, projection;
      cbn [vx vy vz m00 m01 m02 m10 m11 m12 m20 m21 m22].
    assert (Hr0 : r <> 0) by lra. clear - Hp Hr0.
    f_equal; field_simplify_eq; try assumption; cbn [pow]; nsatz.
Qed.

Lemma sphere_H_K (Mesh : Type) (Grad : (vec3 -> vec3) -> vec3 -> mat3)
  (mesh : Mesh) (r : R) (p : vec3) :
  0 < r -> on_sphere r p ->
  Grad (sphere_normal r) p = sphere_Weingarten r p ->
  let res := ExtrinsicCurvatureSmooth (sphere_normal r) Grad mesh in
  ret_H res p = 1 / r /\ ret_K res p = 1 / (r * r).
Proof.
  intros Hr Hp HG.
  unfold ExtrinsicCurvatureSmooth, ret_H, ret_K; cbn [fst snd].
  rewrite HG. unfold on_sphere in Hp. destruct p as [x y z].
  unfold sphere_Weingarten, sphere_normal, mscale, projection, Trace, Det,
    madd, OuterProduct; cbn [vx vy vz m00 m01 m02 m10 m11 m12 m20 m21 m22] in *.
  assert (Hr0 : r <> 0) by lra. clear Hr HG.
  replace 0.5 with (/ 2) by lra.
  split; field_simplify_eq; try assumption; cbn [pow]; nsatz.
Qed.

(** X13.  On a sphere of radius r > 0 around the origin with its outward
    normal, at every point where [Grad] returns the surface gradient of the
    normal, [ExtrinsicCurvatureSmooth] returns H = 1/r, K = 1/r^2 and k1 =
    k2 = 1/r. *)
Theorem sphere_curvatures (Mesh : Type)
  (Grad : (vec3 -> vec3) -> vec3 -> mat3) (mesh : Mesh) (r : R) (p : vec3) :
  0 < r -> on_sphere r p ->
  surface_gradient_at sphere_normal_field (sphere_normal r p) p
    (Grad (sphere_normal r) p) ->
  let res := ExtrinsicCurvatureSmooth (sphere_normal r) Grad mesh in
  ret_H res p = 1 / r /\ ret_K res p = 1 / (r * r) /\
  ret_k1 res p = 1 / r /\ ret_k2 res p = 1 / r.
Proof.
  intros Hr Hp Hgrad res.
  assert (HG : Grad (sphere_normal r) p = sphere_Weingarten r p).
  { apply (surface_gradient_unique _ _ _ _ _ Hgrad).
    now apply sphere_Weingarten_is_surface_gradient. }
  destruct (sphere_H_K Mesh Grad mesh r p Hr Hp HG) as [HH HK].
  fold res in HH, HK.
  assert (Hk1 : ret_k1 res p
                = ret_H res p + sqrt (ret_H res p ^ 2 - ret_K res p))
    by reflexivity.
  assert (Hk2 : ret_k2 res p
                = ret_H res p - sqrt (ret_H res p ^ 2 - ret_K res p))
    by reflexivity.
  assert (Hs : sqrt (ret_H res p ^ 2 - ret_K res p) = 0).
  { rewrite HH, HK.
    replace ((1 / r) ^ 2 - 1 / (r * r)) with 0 by (field; lra).
    apply sqrt_0. }
  repeat split; try assumption.
  - rewrite Hk1, Hs, HH. ring.
  - rewrite Hk2, Hs, HH. ring.
Qed.

Lemma sphere_curvatures_witness :
  let res := ExtrinsicCurvatureSmooth sph2_normal sph2_Grad tt in
  ret_H res sph2_point = 1 / 2 /\ ret_K res sph2_point = 1 / (2 * 2) /\
  ret_k1 res sph2_point = 1 / 2 /\ ret_k2 res sph2_point = 1 / 2.
Proof.
  assert (H2 : 0 < 2) by lra.
  assert (Hc : on_sphere 2 sph2_point)
    by (unfold on_sphere, sph2_point; simpl; lra).
  apply (sphere_curvatures unit sph2_Grad tt 2 sph2_point H2 Hc).
  now apply sphere_Weingarten_is_surface_gradient.
Defined.

End SphereFacts.

(** ** The pseudosphere *)

Module PseudosphereFacts.
Import Extrinsic Pseudosphere ExtrinsicFacts.

(** X16.  The [mapping] of the pseudosphere has period 1 in its second
    argument, so the lines y = 0 and y = 1 of the parameter square are sewn
    together into a surface of revolution; its third argument plays no role. *)
Theorem mapping_periodic (x y z : R) :
  mapping x (y + 1) z = mapping x y z /\
  (forall z', mapping x y z' = mapping x y z).
Proof.
  split; [| reflexivity].
  unfold mapping.
  replace ((y + 1) * 2 * PI) with (y * 2 * PI + 2 * PI) by ring.
  rewrite (cos_plus (y * 2 * PI) (2 * PI)), (sin_plus (y * 2 * PI) (2 * PI)),
    cos_2PI, sin_2PI.
  f_equal; ring.
Qed.

Lemma derivable_pt_lim_tan (x : R) :
  cos x <> 0 -> derivable_pt_lim tan x (1 / (cos x * cos x)).
Proof.
  intro Hc.
  apply (derivable_pt_lim_ext (sin / cos)%F).
  - intro t. reflexivity.
  - eapply derivable_pt_lim_value;
      [| apply (derivable_pt_lim_div sin cos x _ _
                  (derivable_pt_lim_sin x) (derivable_pt_lim_cos x) Hc)].
    pose proof (sin2_cos2 x) as H. unfold Rsqr in *. field_simplify_eq; [| exact Hc].
    nra.
Qed.

(** The tractrix equation: gu'(u) = cos(u)^2 / sin(u). *)
Lemma gu_derivative (u : R) :
  0 < u < PI -> derivable_pt_lim gu u (cos u * cos u / sin u).
Proof.
  intros [H0 Hpi].
  assert (Hc : 0 < cos (u / 2)) by (apply cos_gt_0; lra).
  assert (Hs : 0 < sin (u / 2)) by (apply sin_gt_0; lra).
  assert (Hsu : sin u = 2 * sin (u / 2) * cos (u / 2)).
  { replace u with (2 * (u / 2)) at 1 by field. apply sin_2a. }
  assert (Ht : 0 < tan (u / 2)) by (unfold tan; now apply Rdiv_lt_0_compat).
  assert (Hhalf : derivable_pt_lim (fun t => t / 2) u (/ 2)).
  { apply (derivable_pt_lim_ext (mult_real_fct (/ 2) id)).
    - intro t. unfold mult_real_fct, id. field.
    - eapply derivable_pt_lim_value;
        [| apply derivable_pt_lim_scal, derivable_pt_lim_id]. ring. }
  assert (Hlt : derivable_pt_lim (fun t => ln (tan (t / 2))) u (/ sin u)).
  { apply (derivable_pt_lim_ext (comp ln (comp tan (fun t => t / 2)))).
    - intro t. reflexivity.
    - eapply derivable_pt_lim_value;
        [| apply derivable_pt_lim_comp;
           [ apply derivable_pt_lim_comp;
             [ exact Hhalf | apply derivable_pt_lim_tan; lra ]
           | apply derivable_pt_lim_ln; exact Ht ]].
      unfold comp. rewrite Hsu. unfold tan. field. split; lra. }
  unfold gu.
  apply (derivable_pt_lim_ext ((fun t => ln (tan (t / 2))) + cos)%F).
  - intro t. reflexivity.
  - eapply derivable_pt_lim_value;
      [| apply derivable_pt_lim_plus;
         [exact Hlt | apply derivable_pt_lim_cos]].
    pose proof (sin2_cos2 u) as H. unfold Rsqr in H.
    assert (Hsu0 : sin u <> 0) by (rewrite Hsu; nra).
    field_simplify_eq; [| exact Hsu0]. nra.
Qed.

Lemma pseudosphere_Weingarten_is_surface_gradient (q : vec3) :
  0 < vx q * vx q + vy q * vy q < 1 ->
  surface_gradient_at pseudosphere_normal_field
    (pseudosphere_normal_field q) q (pseudosphere_Weingarten q).
Proof.
  destruct q as [X Y Z]; cbn [vx vy]. intros [Hpos Hlt].
  assert (HX : 0 <= X * X) by nra.
  assert (HY : 0 <= Y * Y) by nra.
  assert (Hyx : Y * Y + X * X = X * X + Y * Y) by ring.
  unfold surface_gradient_at, pseudosphere_Weingarten. cbv zeta.
  cbn [vx vy vz].
  eexists _, _, _.
  split; [| split; [| split; [| reflexivity]]].
  - repeat split; cbn [vx vy vz].
    + apply (derivable_pt_lim_ext
               (fun s => sqrt (1 - ((X + s) * (X + s) + Y * Y)) * (X + 1 * s)
                         / sqrt ((X + s) * (X + s) + Y * Y))).
      * intro s. unfold pseudosphere_normal_field, shift; cbn [vx vy vz].
        now rewrite Rmult_1_l.
      * apply (derivable_pseudosphere_component X 1 X (Y * Y)); lra.
    + apply (derivable_pt_lim_ext
               (fun s => sqrt (1 - ((Y + s) * (Y + s) + X * X)) * (X + 0 * s)
                         / sqrt ((Y + s) * (Y + s) + X * X))).
      * intro s. unfold pseudosphere_normal_field, shift; cbn [vx vy vz].
        rewrite Rmult_0_l, Rplus_0_r.
        replace (X * X + (Y + s) * (Y + s)) with ((Y + s) * (Y + s) + X * X)
          by ring. reflexivity.
      * eapply derivable_pt_lim_value;
          [| apply (derivable_pseudosphere_component X 0 Y (X * X)); lra].
        rewrite Hyx. reflexivity.
    + apply (derivable_pt_lim_ext
               (fct_cte (vx (pseudosphere_normal_field (V3 X Y Z))))).
      * intro s. reflexivity.
      * apply derivable_pt_lim_const.
  - repeat split; cbn [vx vy vz].
    + apply (derivable_pt_lim_ext
               (fun s => sqrt (1 - ((X + s) * (X + s) + Y * Y)) * (Y + 0 * s)
                         / sqrt ((X + s) * (X + s) + Y * Y))).
      * intro s. unfold pseudosphere_normal_field, shift; cbn [vx vy vz].
        now rewrite Rmult_0_l, Rplus_0_r.
      * eapply derivable_pt_lim_value;
          [| apply (derivable_pseudosphere_component Y 0 X (Y * Y)); lra].
        reflexivity.
    + apply (derivable_pt_lim_ext
               (fun s => sqrt (1 - ((Y + s) * (Y + s) + X * X)) * (Y + 1 * s)
                         / sqrt ((Y + s) * (Y + s) + X * X))).
      * intro s. unfold pseudosphere_normal_field, shift; cbn [vx vy vz].
        rewrite Rmult_1_l.
        replace (X * X + (Y + s) * (Y + s)) with ((Y + s) * (Y + s) + X * X)
          by ring. reflexivity.
      * eapply derivable_pt_lim_value;
          [| apply (derivable_pseudosphere_component Y 1 Y (X * X)); lra].
        rewrite Hyx. reflexivity.
    + apply (derivable_pt_lim_ext
               (fct_cte (vy (pseudosphere_normal_field (V3 X Y Z))))).
      * intro s. reflexivity.
      * apply derivable_pt_lim_const.
  - repeat split; cbn [vx vy vz].
    + apply (derivable_pt_lim_ext
               (opp_fct (fun s => sqrt ((X + s) * (X + s) + Y * Y)))).
      * intro s. reflexivity.
      * eapply derivable_pt_lim_value;
          [| apply derivable_pt_lim_opp,
               (derivable_sqrt_quadratic X (Y * Y)); lra].
        unfold Rdiv. ring.
    + apply (derivable_pt_lim_ext
               (opp_fct (fun s => sqrt ((Y + s) * (Y + s) + X * X)))).
      * intro s. unfold pseudosphere_normal_field, shift, opp_fct;
          cbn [vx vy vz].
        replace (X * X + (Y + s) * (Y + s)) with ((Y + s) * (Y + s) + X * X)
          by ring. reflexivity.
      * eapply derivable_pt_lim_value;
          [| apply derivable_pt_lim_opp,
               (derivable_sqrt_quadratic Y (X * X)); lra].
        rewrite Hyx. unfold Rdiv. ring.
    + apply (derivable_pt_lim_ext
               (fct_cte (vz (pseudosphere_normal_field (V3 X Y Z))))).
      * intro s. reflexivity.
      * apply derivable_pt_lim_const.
Qed.

Lemma mapping_radius (x y z : R) :
  let U := PI / 9 / 2 + x * PI / 9 in
  vx (mapping x y z) * vx (mapping x y z)
  + vy (mapping x y z) * vy (mapping x y z) = sin U * sin U.
Proof.
  intro U. unfold mapping; cbn [vx vy]. fold U.
  pose proof (sin2_cos2 (y * 2 * PI)) as H. unfold Rsqr in H. nra.
Qed.

Lemma mapping_normal (x y z : R) :
  let U := PI / 9 / 2 + x * PI / 9 in
  0 < U < PI / 2 ->
  sqrt (vx (mapping x y z) * vx (mapping x y z)
        + vy (mapping x y z) * vy (mapping x y z)) = sin U /\
  sqrt (1 - (vx (mapping x y z) * vx (mapping x y z)
             + vy (mapping x y z) * vy (mapping x y z))) = cos U /\
  pseudosphere_normal_field (mapping x y z)
  = V3 (cos U * cos (y * 2 * PI)) (cos U * sin (y * 2 * PI)) (- sin U).
Proof.
  intros U [H0 H2].
  assert (Hs : 0 < sin U) by (apply sin_gt_0; lra).
  assert (Hc : 0 < cos U) by (apply cos_gt_0; lra).
  pose proof (mapping_radius x y z) as Hr. cbv zeta in Hr. fold U in Hr.
  assert (Hrho : sqrt (vx (mapping x y z) * vx (mapping x y z)
                       + vy (mapping x y z) * vy (mapping x y z)) = sin U).
  { rewrite Hr. apply sqrt_square. lra. }
  assert (Hkap : sqrt (1 - (vx (mapping x y z) * vx (mapping x y z)
                            + vy (mapping x y z) * vy (mapping x y z)))
                 = cos U).
  { rewrite Hr. pose proof (sin2_cos2 U) as H. unfold Rsqr in H.
    replace (1 - sin U * sin U) with (cos U * cos U) by lra.
    apply sqrt_square. lra. }
  split; [exact Hrho |]. split; [exact Hkap |].
  unfold pseudosphere_normal_field. cbv zeta. rewrite Hrho, Hkap.
  unfold mapping; cbn [vx vy vz]. fold U. f_equal; field; lra.
Qed.

(** X17.  For an angle U = pi/9/2 + x pi/9 in (0, pi/2), [mapping] is
    differentiable in x and y with linearly independent partial derivatives
    (gu is the height of a tractrix, gu' = cos^2 / sin), and the field
    (sqrt(1 - rho^2) e_rho, - rho) is a unit vector orthogonal to both: it
    is the unit normal of the surface. *)
Theorem pseudosphere_normal_is_normal (x y z : R) :
  let U := PI / 9 / 2 + x * PI / 9 in
  let nu := pseudosphere_normal_field (mapping x y z) in
  0 < U < PI / 2 ->
  exists tx ty,
    tangent_x mapping x y z tx /\ tangent_y mapping x y z ty /\
    dot nu tx = 0 /\ dot nu ty = 0 /\ dot nu nu = 1 /\
    Cross tx ty <> V3 0 0 0.
Proof.
  intros U nu HU.
  destruct (mapping_normal x y z HU) as (_ & _ & Hnu). fold U in Hnu.
  destruct HU as [H0 H2].
  assert (Hs : 0 < sin U) by (apply sin_gt_0; lra).
  assert (Hc : 0 < cos U) by (apply cos_gt_0; lra).
  pose proof PI_RGT_0 as Hpi.
  set (V := y * 2 * PI) in *.
  assert (HUs : derivable_pt_lim (fun s => PI / 9 / 2 + (x + s) * PI / 9) 0
                  (PI / 9)).
  { apply (derivable_pt_lim_ext
             (plus_fct (fct_cte (PI / 9 / 2 + x * PI / 9))
                       (mult_real_fct (PI / 9) id))).
    - intro s. unfold plus_fct, fct_cte, mult_real_fct, id. field.
    - eapply derivable_pt_lim_value;
        [| apply derivable_pt_lim_plus;
           [ apply derivable_pt_lim_const
           | apply derivable_pt_lim_scal, derivable_pt_lim_id ]].
      ring. }
  assert (HVs : derivable_pt_lim (fun s => (y + s) * 2 * PI) 0 (2 * PI)).
  { apply (derivable_pt_lim_ext
             (plus_fct (fct_cte (y * 2 * PI)) (mult_real_fct (2 * PI) id))).
    - intro s. unfold plus_fct, fct_cte, mult_real_fct, id. ring.
    - eapply derivable_pt_lim_value;
        [| apply derivable_pt_lim_plus;
           [ apply derivable_pt_lim_const
           | apply derivable_pt_lim_scal, derivable_pt_lim_id ]].
      ring. }
  assert (HU0 : PI / 9 / 2 + (x + 0) * PI / 9 = U) by (unfold U; field).
  assert (HV0 : (y + 0) * 2 * PI = V) by (unfold V; ring).
  exists (V3 (PI / 9 * (cos U * cos V)) (PI / 9 * (cos U * sin V))
             (PI / 9 * (cos U * cos U / sin U))),
         (V3 (2 * PI * (sin U * - sin V)) (2 * PI * (sin U * cos V)) 0).
  split; [| split].
  - unfold tangent_x, mapping; cbn [vx vy vz]. fold V. repeat split.
    + apply (derivable_pt_lim_ext
               (mult_real_fct (cos V)
                  (comp sin (fun s => PI / 9 / 2 + (x + s) * PI / 9)))).
      * intro s. unfold mult_real_fct, comp. ring.
      * eapply derivable_pt_lim_value;
          [| apply derivable_pt_lim_scal, derivable_pt_lim_comp;
             [exact HUs | apply derivable_pt_lim_sin]].
        rewrite HU0. ring.
    + apply (derivable_pt_lim_ext
               (mult_real_fct (sin V)
                  (comp sin (fun s => PI / 9 / 2 + (x + s) * PI / 9)))).
      * intro s. unfold mult_real_fct, comp. ring.
      * eapply derivable_pt_lim_value;
          [| apply derivable_pt_lim_scal, derivable_pt_lim_comp;
             [exact HUs | apply derivable_pt_lim_sin]].
        rewrite HU0. ring.
    + apply (derivable_pt_lim_ext
               (comp gu (fun s => PI / 9 / 2 + (x + s) * PI / 9))).
      * intro s. reflexivity.
      * eapply derivable_pt_lim_value;
          [| apply derivable_pt_lim_comp;
             [exact HUs | apply gu_derivative; rewrite HU0; lra]].
        rewrite HU0. ring.
  - unfold tangent_y, mapping; cbn [vx vy vz]. fold U. repeat split.
    + apply (derivable_pt_lim_ext
               (mult_real_fct (sin U) (comp cos (fun s => (y + s) * 2 * PI)))).
      * intro s. reflexivity.
      * eapply derivable_pt_lim_value;
          [| apply derivable_pt_lim_scal, derivable_pt_lim_comp;
             [exact HVs | apply derivable_pt_lim_cos]].
        rewrite HV0. ring.
    + apply (derivable_pt_lim_ext
               (mult_real_fct (sin U) (comp sin (fun s => (y + s) * 2 * PI)))).
      * intro s. reflexivity.
      * eapply derivable_pt_lim_value;
          [| apply derivable_pt_lim_scal, derivable_pt_lim_comp;
             [exact HVs | apply derivable_pt_lim_sin]].
        rewrite HV0. ring.
    + apply (derivable_pt_lim_ext (fct_cte (gu U))).
      * intro s. reflexivity.
      * apply derivable_pt_lim_const.
  - unfold nu. rewrite Hnu. unfold dot, Cross; cbn [vx vy vz].
    pose proof (sin2_cos2 U) as HsU. pose proof (sin2_cos2 V) as HsV.
    unfold Rsqr in HsU, HsV.
    split; [| split; [| split]].
    + field_simplify_eq; [| lra]. cbn [pow]. clear - HsV. nsatz.
    + ring.
    + clear - HsU HsV. nsatz.
    + intro Heq. injection Heq as _ _ H3.
      assert (H4 : PI / 9 * (2 * PI) * (cos U * sin U)
                   * (cos V * cos V + sin V * sin V) = 0)
        by (rewrite <- H3; ring).
      rewrite Rplus_comm, HsV, Rmult_1_r in H4.
      assert (Hcs : 0 < cos U * sin U) by (apply Rmult_lt_0_compat; lra).
      assert (Hpp : 0 < PI / 9 * (2 * PI)) by nra.
      pose proof (Rmult_lt_0_compat _ _ Hpp Hcs). lra.
Qed.

Lemma pseudosphere_normal_is_normal_witness :
  let U := PI / 9 / 2 + 0 * PI / 9 in
  let nu := pseudosphere_normal_field (mapping 0 0 0) in
  0 < U < PI / 2 /\
  exists tx ty,
    tangent_x mapping 0 0 0 tx /\ tangent_y mapping 0 0 0 ty /\
    dot nu tx = 0 /\ dot nu ty = 0 /\ dot nu nu = 1 /\
    Cross tx ty <> V3 0 0 0.
Proof.
  intros U nu.
  assert (HU : 0 < U < PI / 2).
  { unfold U. pose proof PI_RGT_0. lra. }
  split; [exact HU |].
  exact (pseudosphere_normal_is_normal 0 0 0 HU).
Defined.

Lemma pseudosphere_H_K (q : vec3) (rho kap : R) :
  0 < rho -> 0 < kap ->
  sqrt (vx q * vx q + vy q * vy q) = rho ->
  sqrt (1 - (vx q * vx q + vy q * vy q)) = kap ->
  vx q * vx q + vy q * vy q = rho * rho ->
  kap * kap = 1 - rho * rho ->
  Trace (pseudosphere_Weingarten q) = kap / rho - rho / kap /\
  Det (madd (pseudosphere_Weingarten q)
         (OuterProduct (pseudosphere_normal_field q)
            (pseudosphere_normal_field q))) = -1.
Proof.
  destruct q as [X Y Z]; cbn [vx vy vz].
  intros Hrho Hkap Hr Hk Ht Hkk.
  unfold pseudosphere_Weingarten, pseudosphere_normal_field. cbv zeta.
  cbn [vx vy vz]. rewrite Hr, Hk, Ht.
  assert (Hr0 : rho <> 0) by lra. assert (Hk0 : kap <> 0) by lra.
  clear Hr Hk Hrho Hkap.
  unfold rows, mulv, projection, Trace, Det, madd, OuterProduct;
    cbn [vx vy vz m00 m01 m02 m10 m11 m12 m20 m21 m22].
  split; (field_simplify_eq; [| repeat split; assumption]); cbn [pow]; nsatz.
Qed.

(** X18.  On the pseudosphere that [mapping] parametrizes, for U = pi/9/2 +
    x pi/9 in (0, pi/2), with the normal that points away from the axis and
    [Grad] returning the surface gradient of that normal,
    [ExtrinsicCurvatureSmooth] returns the Gauss curvature K = -1, the mean
    curvature H = (cot U - tan U) / 2 and the principal curvatures k1 = cot
    U and k2 = - tan U. *)
Theorem pseudosphere_curvatures (Mesh : Type)
  (Grad : (vec3 -> vec3) -> vec3 -> mat3) (mesh : Mesh) (x y z : R) :
  let U := PI / 9 / 2 + x * PI / 9 in
  let q := mapping x y z in
  0 < U < PI / 2 ->
  surface_gradient_at pseudosphere_normal_field
    (pseudosphere_normal_field q) q (Grad pseudosphere_normal_field q) ->
  let res := ExtrinsicCurvatureSmooth pseudosphere_normal_field Grad mesh in
  ret_K res q = -1 /\
  ret_H res q = (cos U / sin U - sin U / cos U) / 2 /\
  ret_k1 res q = cos U / sin U /\
  ret_k2 res q = - (sin U / cos U).
Proof.
  intros U q HU Hgrad res.
  destruct (mapping_normal x y z HU) as (Hrho & Hkap & _).
  fold U q in Hrho, Hkap.
  pose proof (mapping_radius x y z) as Hrad. cbv zeta in Hrad.
  fold U q in Hrad.
  destruct HU as [H0 H2].
  assert (Hs : 0 < sin U) by (apply sin_gt_0; lra).
  assert (Hc : 0 < cos U) by (apply cos_gt_0; lra).
  assert (Hcc : cos U * cos U = 1 - sin U * sin U).
  { pose proof (sin2_cos2 U) as H. unfold Rsqr in H. lra. }
  assert (Hq : 0 < vx q * vx q + vy q * vy q < 1).
  { rewrite Hrad. split; nra. }
  assert (HG : Grad pseudosphere_normal_field q = pseudosphere_Weingarten q).
  { apply (surface_gradient_unique _ _ _ _ _ Hgrad).
    now apply pseudosphere_Weingarten_is_surface_gradient. }
  destruct (pseudosphere_H_K q (sin U) (cos U) Hs Hc Hrho Hkap Hrad Hcc)
    as [HT HK].
  assert (HKr : ret_K res q = -1).
  { unfold res, ExtrinsicCurvatureSmooth, ret_K; cbn [fst snd].
    rewrite HG. exact HK. }
  assert (HHr : ret_H res q = (cos U / sin U - sin U / cos U) / 2).
  { unfold res, ExtrinsicCurvatureSmooth, ret_H; cbn [fst snd].
    rewrite HG, HT. lra. }
  assert (Hk1 : ret_k1 res q
                = ret_H res q + sqrt (ret_H res q ^ 2 - ret_K res q))
    by reflexivity.
  assert (Hk2 : ret_k2 res q
                = ret_H res q - sqrt (ret_H res q ^ 2 - ret_K res q))
    by reflexivity.
  assert (Hsq : sqrt (ret_H res q ^ 2 - ret_K res q)
                = (cos U / sin U + sin U / cos U) / 2).
  { rewrite HHr, HKr.
    replace (((cos U / sin U - sin U / cos U) / 2) ^ 2 - -1)
      with (((cos U / sin U + sin U / cos U) / 2) ^ 2) by (field; lra).
    apply sqrt_sq_nonneg.
    assert (0 < cos U / sin U) by (apply Rdiv_lt_0_compat; lra).
    assert (0 < sin U / cos U) by (apply Rdiv_lt_0_compat; lra). lra. }
  split; [exact HKr |]. split; [exact HHr |]. split.
  - rewrite Hk1, Hsq, HHr. field. lra.
  - rewrite Hk2, Hsq, HHr. field. lra.
Qed.

Lemma pseudosphere_curvatures_witness :
  let U := PI / 9 / 2 + 0 * PI / 9 in
  let q := mapping 0 0 0 in
  let res := ExtrinsicCurvatureSmooth pseudosphere_normal_field
               (fun _ => pseudosphere_Weingarten) tt in
  0 < U < PI / 2 /\
  ret_K res q = -1 /\
  ret_H res q = (cos U / sin U - sin U / cos U) / 2 /\
  ret_k1 res q = cos U / sin U /\
  ret_k2 res q = - (sin U / cos U).
Proof.
  intros U q res.
  assert (HU : 0 < U < PI / 2).
  { unfold U. pose proof PI_RGT_0. lra. }
  split; [exact HU |].
  apply (pseudosphere_curvatures unit (fun _ => pseudosphere_Weingarten) tt
           0 0 0 HU).
  apply pseudosphere_Weingarten_is_surface_gradient.
  pose proof (mapping_radius 0 0 0) as Hrad. cbv zeta in Hrad.
  fold U in Hrad. rewrite Hrad.
  destruct HU as [H0 H2].
  assert (Hs : 0 < sin U) by (apply sin_gt_0; lra).
  assert (Hc : 0 < cos U) by (apply cos_gt_0; lra).
  pose proof (sin2_cos2 U) as H. unfold Rsqr in H. split; nra.
Defined.

End PseudosphereFacts.

(** ** The vertex loop, and surfaces with boundary *)

Module LiftFacts.
Import SurfaceLift SurfaceBoundary PiecewiseSmooth Octahedron GaussBonnetFacts.

Lemma add_range_closed_form (n count : nat) (c : R) (v : BaseVector) :
  add_range n count c v
  = if Nat.leb count n
    then Some (fun k => if Nat.ltb k count then v k + c else v k)
    else None.
Proof.
  destruct (Nat.leb_spec count n) as [Hle | Hlt].
  - destruct (add_range_spec n count c v Hle) as (w & Hw & Hspec).
    rewrite Hw. f_equal. apply functional_extensionality. exact Hspec.
  - now apply add_range_out_of_range.
Qed.

(** X7.  The loop [for i in range(nv): f.vec[i] += 2*pi] of
    [GeneralizedGaussCurvatureExtrinsic] in closed form: with at least as
    many dofs as vertices the function returns the solve applied to the
    assembled sources with 2 pi added to exactly the first nv entries; with
    fewer dofs than vertices the loop raises and there is no result. *)
Theorem vertex_loop_closed_form {L : SurfaceFE} (surface_mesh : Mesh)
  (lift_order : nat) :
  let V := H1 surface_mesh lift_order in
  GeneralizedGaussCurvatureExtrinsic surface_mesh lift_order
  = if Nat.leb (nv surface_mesh) (ndof V)
    then Some (mat_vec (ndof V)
                 (Inverse (ndof V) (mass_matrix surface_mesh lift_order)
                    (FreeDofs V dirichlet_none))
                 (fun i => if Nat.ltb i (nv surface_mesh)
                           then assembled_sources surface_mesh lift_order i
                                + 2 * PI
                           else assembled_sources surface_mesh lift_order i))
    else None.
Proof.
  intro V. unfold GeneralizedGaussCurvatureExtrinsic. fold V.
  rewrite add_range_closed_form.
  destruct (Nat.leb (nv surface_mesh) (ndof V)); reflexivity.
Qed.

Section Boundary.
Context {L : SurfaceFE}.
Variable mesh : Mesh.
Variables lift_order order : nat.
Variable elem : Pt -> nat.

(** X8.  On a piecewise smooth surface with nb boundary edges, under the
    conditions of the Gauss-Bonnet theorem above without the closedness
    (the library returns the geometry of the elements, every element
    satisfies the Gauss-Bonnet theorem of a smooth surface with corners,
    exact solve and integration), the integral of the function returned by
    [GeneralizedGaussCurvatureExtrinsic] is 2 pi chi + pi nb: every
    boundary edge adds pi, and the identity with 2 pi chi holds on closed
    surfaces only. *)
Theorem Gauss_Bonnet_with_boundary (G : Geometry) (nb : nat) :
  (nv mesh <= ndof (H1 mesh lift_order))%nat ->
  exact_solve mesh lift_order ->
  partition_of_unity mesh lift_order ->
  rules_agree mesh lift_order order ->
  library_on_elements mesh lift_order G ->
  points_of_elements mesh lift_order elem ->
  (forall e, (e < nface mesh)%nat ->
     classical_Gauss_Bonnet mesh lift_order elem G e) ->
  surface_with_boundary mesh nb ->
  exists Kh,
    GeneralizedGaussCurvatureExtrinsic mesh lift_order = Some Kh /\
    Integrate (GridFunction_H1 mesh lift_order Kh) mesh order
    = 2 * PI * IZR (EulerChar mesh) + PI * INR nb.
Proof.
  intros Hnv Hsolve Hpou Hag Hlib Hpts Hgb Hbnd.
  pose proof (smooth_elements_total mesh lift_order elem G Hlib Hpts Hgb)
    as Htot.
  unfold surface_with_boundary in Hbnd.
  exact (lifted_Euler mesh lift_order order nb Hnv Hsolve Hpou Hag Htot Hbnd).
Qed.

End Boundary.

(** *** One octant of the sphere *)

Lemma octant_in_sphere (q : nat * nat) :
  In q octant_points -> In q oct_points.
Proof.
  unfold octant_points. cbn. intro H.
  repeat (destruct H as [<- | H]; [cbn; tauto |]). contradiction.
Qed.

Lemma octant_mass (i j : nat) :
  (i < 3)%nat ->
  mass_matrix (L := octant_FE) tt 1 i j = if Nat.eqb i j then PI / 6 else 0.
Proof.
  intro Hi. unfold mass_matrix. cbn [ds H1 octant_FE].
  rewrite integrate_weighted.
  do 3 (destruct i as [| i];
        [do 3 (destruct j as [| j]; [cbn; lra |]); cbn; lra |]).
  lia.
Qed.

Lemma octant_exact_solve : exact_solve (L := octant_FE) tt 1.
Proof.
  unfold exact_solve. cbn [H1 Inverse octant_FE].
  apply diagonal_inverse_spec.
  - intros i j Hi Hj Hne. change (i < 3)%nat in Hi.
    rewrite octant_mass by exact Hi.
    destruct (Nat.eqb_spec i j); [contradiction | reflexivity].
  - intros i Hi. change (i < 3)%nat in Hi.
    rewrite octant_mass by exact Hi.
    rewrite Nat.eqb_refl. pose proof PI_RGT_0. lra.
Qed.

Lemma octant_vertex_shapes (q : nat * nat) :
  In q octant_points ->
  vertex_shapes_sum_to_one (L := octant_FE) tt 1 q.
Proof.
  intro Hq. unfold vertex_shapes_sum_to_one.
  cbn [nv H1 octant_FE]. unfold octant_points in Hq. cbn in Hq.
  repeat (destruct Hq as [<- | Hq]; [cbn; lra |]). contradiction.
Qed.

Lemma octant_partition_of_unity : partition_of_unity (L := octant_FE) tt 1.
Proof.
  repeat split.
  - intros wq Hwq. apply octant_vertex_shapes. now apply in_map_snd in Hwq.
  - intros wq Hwq. apply octant_vertex_shapes. now apply in_map_snd in Hwq.
  - intros q Hq. now apply octant_vertex_shapes.
  - intros wq Hwq. apply octant_vertex_shapes. now apply in_map_snd in Hwq.
Qed.

Lemma octant_library :
  library_on_elements (L := octant_FE) tt 1
    (round_geometry octant_FE (fun q => q)).
Proof.
  split; [| split].
  - intros wq Hwq. apply in_map_snd, octant_in_sphere in Hwq.
    split; [now apply round_frame | now apply round_shape_operator].
  - intros wq Hwq. apply in_map_snd, octant_in_sphere in Hwq.
    split; [reflexivity | now apply round_conormal].
  - intros q Hq. reflexivity.
Qed.

Lemma octant_point_face (q : nat * nat) :
  In q octant_points -> (fst q < 1)%nat.
Proof.
  unfold octant_points. intro H. apply in_map_iff in H.
  destruct H as (k & <- & _). cbn. lia.
Qed.

Lemma octant_points_of_elements :
  points_of_elements (L := octant_FE) tt 1 fst.
Proof.
  repeat split.
  - intros wq Hwq. apply octant_point_face. now apply in_map_snd in Hwq.
  - intros wq Hwq. apply octant_point_face. now apply in_map_snd in Hwq.
  - intros q Hq. now apply octant_point_face.
Qed.

(** The triangle with three right angles: pi / 2 + 0 + 3 (pi - pi / 2)
    = 2 pi. *)
Lemma octant_Gauss_Bonnet (e : nat) :
  (e < 1)%nat ->
  classical_Gauss_Bonnet (L := octant_FE) tt 1 fst
    (round_geometry octant_FE (fun q => q)) e.
Proof.
  intro He. replace e with 0%nat by lia.
  unfold classical_Gauss_Bonnet.
  cbn [ds ds_element_boundary ds_BBND octant_FE].
  unfold octant_points, on_element.
  cbn [seq map filter fst snd Nat.eqb].
  unfold integrate. cbn [sum_list fst snd].
  rewrite !(round_geodesic octant_FE (fun q => q))
    by (apply oct_face_point_in; lia).
  rewrite !(round_right_angle octant_FE (fun q => q))
    by (apply oct_face_point_in; lia).
  unfold Gauss_curvature, round_geometry. cbn [principal1 principal2].
  lra.
Qed.

Lemma Gauss_Bonnet_with_boundary_witness :
  exists Kh,
    GeneralizedGaussCurvatureExtrinsic (L := octant_FE) tt 1%nat = Some Kh /\
    Integrate (L := octant_FE) (GridFunction_H1 (L := octant_FE) tt 1%nat Kh)
      tt 15%nat
    = 2 * PI * IZR (EulerChar (L := octant_FE) tt) + PI * INR 3.
Proof.
  apply (Gauss_Bonnet_with_boundary (L := octant_FE) tt 1%nat 15%nat fst
           (round_geometry octant_FE (fun q => q)) 3%nat).
  - apply Nat.le_refl.
  - exact octant_exact_solve.
  - exact octant_partition_of_unity.
  - intros j _. reflexivity.
  - exact octant_library.
  - exact octant_points_of_elements.
  - exact octant_Gauss_Bonnet.
  - reflexivity.
Defined.

End LiftFacts.

(** ** The lifted Weingarten tensor *)

Module WeingartenLiftFacts.
Import SurfaceLift Spectrum WeingartenLift.

Section Lifting.
Context {L : SurfaceFE}.
Variable mesh : Mesh.
Variable lifting_order : nat.

Lemma GeneralizedWeingarten_solve :
  GeneralizedWeingarten mesh lifting_order
  = mat_vec (ndof (HDivDivSurface mesh lifting_order))
      (Inverse (ndof (HDivDivSurface mesh lifting_order))
         (Weingarten_mass mesh lifting_order)
         (FreeDofs (HDivDivSurface mesh lifting_order) dirichlet_none))
      (fun i => Weingarten_sources mesh lifting_order
                  (shape (HDivDivSurface mesh lifting_order) i)).
Proof. reflexivity. Qed.

Lemma Weingarten_form_mass (vec : BaseVector) (tau : Pt -> mat3) :
  integrate (ds mesh (lifting_order + lifting_order))
    (fun q => InnerProduct (GridFunction_HHJ mesh lifting_order vec q) (tau q))
  = sum_range (ndof (HDivDivSurface mesh lifting_order))
      (fun j => vec j
                * integrate (ds mesh (lifting_order + lifting_order))
                    (fun q => InnerProduct
                                (shape (HDivDivSurface mesh lifting_order) j q)
                                (tau q))).
Proof.
  unfold GridFunction_HHJ.
  set (S := HDivDivSurface mesh lifting_order).
  set (r := ds mesh (lifting_order + lifting_order)).
  rewrite (sum_range_ext _ _
    (fun j => integrate r
       (fun q => vec j * InnerProduct (shape S j q) (tau q)))).
  2:{ intros j _. now rewrite integrate_scal. }
  rewrite <- (integrate_range_swap r (ndof S)
    (fun q j => vec j * InnerProduct (shape S j q) (tau q))).
  apply integrate_ext. intros wq _.
  rewrite InnerProduct_msum_range.
  apply sum_range_ext. intros j _. apply InnerProduct_mscale.
Qed.

(** X19.  The tensor field that [GeneralizedWeingarten] returns represents
    the functional it assembles: with an exact solve, the integral of
    InnerProduct(liftW, tau) over the surface equals the sources tested with
    tau, for every basis function tau of the HHJ space (no dof is
    constrained). *)
Theorem Weingarten_lifting_equation (i : nat) :
  Weingarten_exact_solve mesh lifting_order ->
  (i < ndof (HDivDivSurface mesh lifting_order))%nat ->
  integrate (ds mesh (lifting_order + lifting_order))
    (fun q => InnerProduct
                (GridFunction_HHJ mesh lifting_order
                   (GeneralizedWeingarten mesh lifting_order) q)
                (shape (HDivDivSurface mesh lifting_order) i q))
  = Weingarten_sources mesh lifting_order
      (shape (HDivDivSurface mesh lifting_order) i).
Proof.
  intros Hsolve Hi. rewrite Weingarten_form_mass.
  unfold Weingarten_exact_solve in Hsolve. cbv zeta in Hsolve.
  rewrite GeneralizedWeingarten_solve.
  pose proof (Inverse_solves _ _ _ _
                (fun i => Weingarten_sources mesh lifting_order
                            (shape (HDivDivSurface mesh lifting_order) i))
                i Hsolve Hi (FreeDofs_none _ i)) as Hs.
  cbn beta in Hs. rewrite <- Hs.
  set (vec := mat_vec _ (Inverse _ _ _) _). unfold mat_vec.
  apply sum_range_ext. intros j _. unfold Weingarten_mass. ring.
Qed.

(** X20.  The matrix a = BilinearForm(InnerProduct(sigma, tau) * ds,
    symmetric=True) of [GeneralizedWeingarten] is symmetric, and positive
    semidefinite when the weights of the integration rule are not negative,
    as the flag symmetric=True and the Cholesky solver assume. *)
Theorem Weingarten_mass_symmetric_positive :
  (forall wq, In wq (ds mesh (lifting_order + lifting_order)) ->
     0 <= fst wq) ->
  (forall i j, Weingarten_mass mesh lifting_order i j
               = Weingarten_mass mesh lifting_order j i) /\
  (forall x : BaseVector,
     0 <= sum_range (ndof (HDivDivSurface mesh lifting_order))
            (fun i => x i * mat_vec (ndof (HDivDivSurface mesh lifting_order))
                              (Weingarten_mass mesh lifting_order) x i)).
Proof.
  intro Hw. split.
  - intros i j. unfold Weingarten_mass. apply integrate_ext.
    intros wq _. apply InnerProduct_comm.
  - intro x.
    set (S := HDivDivSurface mesh lifting_order).
    set (r := ds mesh (lifting_order + lifting_order)).
    assert (Hquad :
      sum_range (ndof S)
        (fun i => x i * mat_vec (ndof S) (Weingarten_mass mesh lifting_order) x i)
      = integrate r
          (fun q => InnerProduct (GridFunction_HHJ mesh lifting_order x q)
                                 (GridFunction_HHJ mesh lifting_order x q))).
    { rewrite Weingarten_form_mass. fold S r.
      apply sum_range_ext. intros i _. f_equal.
      unfold mat_vec, Weingarten_mass. fold S r.
      rewrite (integrate_ext r _
        (fun q => InnerProduct (GridFunction_HHJ mesh lifting_order x q)
                               (shape S i q)))
        by (intros; apply InnerProduct_comm).
      rewrite Weingarten_form_mass. fold S r.
      apply sum_range_ext. intros j _. ring. }
    rewrite Hquad. apply integrate_nonneg; [exact Hw |].
    intros wq _. apply InnerProduct_self_nonneg.
Qed.

End Lifting.

Lemma fold_lift_mass (h : R) :
  Weingarten_mass (L := fold_lift_FE h) tt 0%nat 0%nat 0%nat = 1 + h ^ 4.
Proof.
  unfold Weingarten_mass, integrate; cbn.
  unfold fold_sigma_const, InnerProduct, OuterProduct; cbn. ring.
Qed.

Lemma fold_lift_exact_solve (h : R) :
  Weingarten_exact_solve (L := fold_lift_FE h) tt 0%nat.
Proof.
  unfold Weingarten_exact_solve. cbn [HDivDivSurface Inverse fold_lift_FE].
  apply diagonal_inverse_spec.
  - intros i j Hi Hj Hne. cbn in Hi, Hj. lia.
  - intros i Hi. cbn in Hi. replace i with 0%nat by lia.
    rewrite fold_lift_mass. simpl. nra.
Qed.

Lemma Weingarten_lifting_equation_witness :
  integrate (ds (SurfaceFE := fold_lift_FE (-1)) tt (0 + 0)%nat)
    (fun q => InnerProduct
                (GridFunction_HHJ (L := fold_lift_FE (-1)) tt 0%nat
                   (GeneralizedWeingarten (L := fold_lift_FE (-1)) tt 0%nat) q)
                (fold_sigma_const (-1) q))
  = Weingarten_sources (L := fold_lift_FE (-1)) tt 0%nat
      (fold_sigma_const (-1)).
Proof.
  apply (Weingarten_lifting_equation (L := fold_lift_FE (-1)) tt 0%nat 0%nat
           (fold_lift_exact_solve (-1))).
  cbn. lia.
Defined.

Lemma Weingarten_mass_symmetric_positive_witness :
  (forall i j, Weingarten_mass (L := fold_lift_FE (-1)) tt 0%nat i j
               = Weingarten_mass (L := fold_lift_FE (-1)) tt 0%nat j i) /\
  (forall x : BaseVector,
     0 <= sum_range 1
            (fun i => x i * mat_vec 1
                              (Weingarten_mass (L := fold_lift_FE (-1)) tt 0%nat)
                              x i)).
Proof.
  apply (Weingarten_mass_symmetric_positive (L := fold_lift_FE (-1)) tt 0%nat).
  intros wq Hwq. cbn in Hwq. destruct Hwq as [<- | [<- | []]]; cbn; lra.
Defined.

End WeingartenLiftFacts.

(** ** The embedding of the hemisphere *)

Module HemisphereFacts.
Import Hemisphere.

Lemma sqrt_one_plus_ratio (x y : R) :
  0 < x -> sqrt (1 + (y / x)²) = sqrt (x * x + y * y) / x.
Proof.
  intro Hx.
  replace (1 + (y / x)²) with ((x * x + y * y) / (x * x))
    by (unfold Rsqr; field; lra).
  rewrite sqrt_div_alt by nra. now rewrite sqrt_square by lra.
Qed.

Lemma atan_ratio_pos (x y : R) :
  0 < x ->
  cos (atan (y / x)) = x / sqrt (x * x + y * y) /\
  sin (atan (y / x)) = y / sqrt (x * x + y * y).
Proof.
  intro Hx. rewrite cos_atan, sin_atan, sqrt_one_plus_ratio by exact Hx.
  assert (Hs : 0 < sqrt (x * x + y * y)) by (apply sqrt_lt_R0; nra).
  split; field; lra.
Qed.

Lemma atan_ratio_neg (x y : R) :
  x < 0 ->
  cos (atan (y / x)) = - x / sqrt (x * x + y * y) /\
  sin (atan (y / x)) = - y / sqrt (x * x + y * y).
Proof.
  intro Hx.
  replace (y / x) with (- y / - x) by (field; lra).
  destruct (atan_ratio_pos (- x) (- y)) as [Hc Hs]; [lra |].
  replace (- x * - x + - y * - y) with (x * x + y * y) in Hc, Hs by ring.
  now split.
Qed.

(** [atan2] returns the polar angle. *)
Lemma atan2_polar (x y : R) :
  x * x + y * y <> 0 ->
  cos (atan2 y x) = x / sqrt (x * x + y * y) /\
  sin (atan2 y x) = y / sqrt (x * x + y * y).
Proof.
  intro Hne. unfold atan2.
  destruct (Rlt_dec 0 x) as [Hx | Hx]; [now apply atan_ratio_pos |].
  destruct (Rlt_dec x 0) as [Hx' | Hx'].
  - destruct (atan_ratio_neg x y Hx') as [Hc Hs].
    destruct (Rle_dec 0 y) as [Hy | Hy].
    + rewrite neg_cos, neg_sin, Hc, Hs. split; field;
        apply Rgt_not_eq, sqrt_lt_R0; nra.
    + unfold Rminus. rewrite cos_plus, sin_plus, cos_neg, sin_neg, cos_PI,
        sin_PI, Hc, Hs. split; field; apply Rgt_not_eq, sqrt_lt_R0; nra.
  - assert (Hx0 : x = 0) by lra. subst x.
    replace (0 * 0 + y * y) with (y * y) in * by ring.
    destruct (Rlt_dec 0 y) as [Hy | Hy].
    + rewrite cos_PI2, sin_PI2, sqrt_square by lra. split; field; lra.
    + destruct (Rlt_dec y 0) as [Hy' | Hy'].
      * replace (- PI / 2) with (- (PI / 2)) by field.
        rewrite cos_neg, sin_neg, cos_PI2, sin_PI2.
        replace (y * y) with (- y * - y) by ring.
        rewrite sqrt_square by lra. split; field; lra.
      * exfalso. apply Hne. assert (y = 0) by lra. subst y. ring.
Qed.

(** X1.  The embedding theta(x, y) = (x, y, 0) + u(x, y) of the hemisphere
    example, with the displacement u that the notebook interpolates, sends
    every point of the parameter plane onto the unit sphere. *)
Theorem theta_on_unit_sphere (p : vec2) : dot (theta p) (theta p) = 1.
Proof.
  unfold theta, u, vadd, dot; cbn [vx vy vz].
  pose proof (sin2_cos2 (phi p)) as Hphi.
  pose proof (sin2_cos2 (r p * PI / 2)) as Hr.
  unfold Rsqr in Hphi, Hr.
  set (c := cos (phi p)) in *. set (s := sin (phi p)) in *.
  set (S := sin (r p * PI / 2)) in *. set (C := cos (r p * PI / 2)) in *.
  replace (ux p + (c * S - ux p)) with (c * S) by ring.
  replace (uy p + (s * S - uy p)) with (s * S) by ring.
  nra.
Qed.

Lemma r_squared (p : vec2) : r p * r p = ux p ^ 2 + uy p ^ 2.
Proof. unfold r. apply sqrt_sqrt. nra. Qed.

(** X2.  On the closed unit disk, r <= 1, the embedding theta has a height
    that is not negative; the displacement u vanishes on the unit circle r =
    1, whose points stay in place on the equator; and the centre r = 0 goes
    to the pole (0, 0, 1). *)
Theorem theta_unit_disk (p : vec2) :
  r p <= 1 ->
  0 <= vz (theta p) /\
  (r p = 1 -> u p = V3 0 0 0 /\ theta p = V3 (ux p) (uy p) 0) /\
  (r p = 0 -> theta p = V3 0 0 1).
Proof.
  intro Hle.
  assert (H0 : 0 <= r p) by (unfold r; apply sqrt_pos).
  pose proof PI_RGT_0 as Hpi.
  split; [| split].
  - unfold theta, u, vadd; cbn [vz]. rewrite Rplus_0_l.
    apply cos_ge_0; nra.
  - intro H1.
    assert (Hsq : ux p * ux p + uy p * uy p = 1).
    { pose proof (r_squared p) as Hr. rewrite H1 in Hr. lra. }
    destruct (atan2_polar (ux p) (uy p)) as [Hc Hs]; [lra |].
    assert (Hu : u p = V3 0 0 0).
    { unfold u, phi. rewrite H1, Hc, Hs, Hsq, sqrt_1.
      replace (1 * PI / 2) with (PI / 2) by field.
      rewrite sin_PI2, cos_PI2. f_equal; field. }
    split; [exact Hu |].
    unfold theta. rewrite Hu. unfold vadd; cbn [vx vy vz]. f_equal; ring.
  - intro Hz.
    assert (Hsq : ux p ^ 2 + uy p ^ 2 = 0).
    { pose proof (r_squared p) as Hr. rewrite Hz in Hr. lra. }
    assert (Hx : ux p = 0) by nra.
    assert (Hy : uy p = 0) by nra.
    unfold theta, u, vadd; cbn [vx vy vz]. rewrite Hz, Hx, Hy.
    replace (0 * PI / 2) with 0 by field.
    rewrite sin_0, cos_0. f_equal; ring.
Qed.

Lemma theta_unit_disk_witness :
  r (V2 1 0) <= 1 /\
  0 <= vz (theta (V2 1 0)) /\
  (r (V2 1 0) = 1 ->
   u (V2 1 0) = V3 0 0 0 /\ theta (V2 1 0) = V3 1 0 0).
Proof.
  assert (Hr : r (V2 1 0) = 1).
  { unfold r; cbn [ux uy]. replace (1 ^ 2 + 0 ^ 2) with 1 by ring.
    apply sqrt_1. }
  assert (Hle : r (V2 1 0) <= 1) by (rewrite Hr; lra).
  split; [exact Hle |].
  destruct (theta_unit_disk (V2 1 0) Hle) as (Hz & Hb & _).
  split; [exact Hz | exact Hb].
Defined.

End HemisphereFacts.

(** ** The metric of an embedding *)

Module MetricFacts.
Import Metric.

(** X3.  The metric g = F.trans * F of an embedding is symmetric and
    positive semidefinite: v . g v = |F v|^2 >= 0, and Det(g) is the squared
    length of the cross product of the two columns of F, so it is never
    negative and it is positive exactly when the columns are linearly
    independent. *)
Theorem trans_mul_positive (F : mat32) :
  let g := trans_mul F in
  g01 g = g10 g /\
  (forall v, dot2 v (mulv2 g v) = dot (mulv32 F v) (mulv32 F v)) /\
  (forall v, 0 <= dot2 v (mulv2 g v)) /\
  Det2 g = dot (Cross (column0 F) (column1 F)) (Cross (column0 F) (column1 F)) /\
  0 <= Det2 g /\
  (0 < Det2 g <-> Cross (column0 F) (column1 F) <> V3 0 0 0).
Proof.
  destruct F as [a b c d e f].
  unfold trans_mul, Det2, dot2, mulv2, mulv32, dot, Cross, column0, column1;
    cbn [g00 g01 g10 g11 f00 f01 f10 f11 f20 f21 ux uy vx vy vz].
  assert (Hdet : (a * a + c * c + e * e) * (b * b + d * d + f * f)
                 - (a * b + c * d + e * f) * (b * a + d * c + f * e)
                 = (c * f - e * d) * (c * f - e * d)
                   + (e * b - a * f) * (e * b - a * f)
                   + (a * d - c * b) * (a * d - c * b)) by ring.
  split; [ring |]. split; [intro v; ring |]. split.
  { intro v.
    replace (ux v * ((a * a + c * c + e * e) * ux v
                     + (a * b + c * d + e * f) * uy v)
             + uy v * ((b * a + d * c + f * e) * ux v
                       + (b * b + d * d + f * f) * uy v))
      with ((a * ux v + b * uy v) * (a * ux v + b * uy v)
            + (c * ux v + d * uy v) * (c * ux v + d * uy v)
            + (e * ux v + f * uy v) * (e * ux v + f * uy v)) by ring.
    pose proof (Rle_0_sqr (a * ux v + b * uy v)).
    pose proof (Rle_0_sqr (c * ux v + d * uy v)).
    pose proof (Rle_0_sqr (e * ux v + f * uy v)).
    unfold Rsqr in *. lra. }
  split; [exact Hdet |]. rewrite Hdet.
  pose proof (Rle_0_sqr (c * f - e * d)) as Hq1.
  pose proof (Rle_0_sqr (e * b - a * f)) as Hq2.
  pose proof (Rle_0_sqr (a * d - c * b)) as Hq3.
  unfold Rsqr in Hq1, Hq2, Hq3.
  split; [lra |]. split.
  - intros Hpos Heq. injection Heq as H1 H2 H3.
    rewrite H1, H2, H3 in Hpos. lra.
  - intro Hne.
    destruct (Req_dec (c * f - e * d) 0) as [H1 | H1];
      [destruct (Req_dec (e * b - a * f) 0) as [H2 | H2];
       [destruct (Req_dec (a * d - c * b) 0) as [H3 | H3] | ] |].
    + exfalso. apply Hne. now rewrite H1, H2, H3.
    + pose proof (Rsqr_pos_lt _ H3) as Hp. unfold Rsqr in Hp. lra.
    + pose proof (Rsqr_pos_lt _ H2) as Hp. unfold Rsqr in Hp. lra.
    + pose proof (Rsqr_pos_lt _ H1) as Hp. unfold Rsqr in Hp. lra.
Qed.

End MetricFacts.

(** ** The graph with the exact metric *)

Module GraphFacts.
Import Extrinsic Metric GraphExample ExtrinsicFacts.

Lemma derivable_graph_slope (t : R) :
  derivable_pt_lim graph_slope t (1 - t ^ 2).
Proof.
  unfold graph_slope.
  apply (derivable_pt_lim_ext (id - mult_real_fct (1 / 3) (fun y => y ^ 3))%F).
  - intro x. reflexivity.
  - eapply derivable_pt_lim_value;
      [| apply derivable_pt_lim_minus;
         [apply derivable_pt_lim_id
         | apply derivable_pt_lim_scal, (derivable_pt_lim_pow t 3)]].
    simpl. field.
Qed.

Lemma derivable_graph_primitive (t c : R) :
  derivable_pt_lim
    (fun x => 1 / 2 * (x ^ 2 + c ^ 2) - 1 / 12 * (x ^ 4 + c ^ 4)) t
    (graph_slope t).
Proof.
  apply (derivable_pt_lim_ext
           (mult_real_fct (1 / 2) ((fun y => y ^ 2) + fct_cte (c ^ 2))
            - mult_real_fct (1 / 12) ((fun y => y ^ 4) + fct_cte (c ^ 4)))%F).
  - intro x. reflexivity.
  - eapply derivable_pt_lim_value;
      [| apply derivable_pt_lim_minus; apply derivable_pt_lim_scal;
         apply derivable_pt_lim_plus;
         [ apply (derivable_pt_lim_pow t 2) | apply derivable_pt_lim_const
         | apply (derivable_pt_lim_pow t 4) | apply derivable_pt_lim_const ]].
    unfold graph_slope. simpl. field.
Qed.

Lemma graph_f_partials (p : vec2) :
  partial_at graph_f p 0 (graph_slope (ux p)) /\
  partial_at graph_f p 1 (graph_slope (uy p)).
Proof.
  unfold partial_at. split.
  - apply (derivable_pt_lim_shift
             (fun x => 1 / 2 * (x ^ 2 + uy p ^ 2) - 1 / 12 * (x ^ 4 + uy p ^ 4))).
    apply derivable_graph_primitive.
  - apply (derivable_pt_lim_ext
             (fun s => (fun x => 1 / 2 * (x ^ 2 + ux p ^ 2)
                                 - 1 / 12 * (x ^ 4 + ux p ^ 4)) (uy p + s))).
    + intro s. unfold graph_f, shift2; cbn [ux uy]. ring.
    + apply (derivable_pt_lim_shift
               (fun x => 1 / 2 * (x ^ 2 + ux p ^ 2)
                         - 1 / 12 * (x ^ 4 + ux p ^ 4))).
      apply derivable_graph_primitive.
Qed.

(** X9.  The exact metric [gexact] of the example is the metric F.trans * F
    of the embedding theta(x, y) = (x, y, f(x, y)) of the graph of f(x, y) =
    1/2 (x^2 + y^2) - 1/12 (x^4 + y^4), with F = (1,0, 0,1, 0,0) + Grad(u)
    for the displacement u = (0, 0, f), whose partial derivatives are x -
    x^3/3 and y - y^3/3. *)
Theorem gexact_is_induced (p : vec2) :
  exists Gu,
    Grad_at graph_u p Gu /\
    Gu = M32 0 0 0 0 (graph_slope (ux p)) (graph_slope (uy p)) /\
    gexact p = trans_mul (embedding_gradient Gu).
Proof.
  exists (M32 0 0 0 0 (graph_slope (ux p)) (graph_slope (uy p))).
  destruct (graph_f_partials p) as [Hx Hy].
  split; [| split; [reflexivity |]].
  - unfold Grad_at, graph_u; cbn [vx vy vz f00 f01 f10 f11 f20 f21].
    repeat split; try apply (derivable_pt_lim_const 0); assumption.
  - unfold gexact, trans_mul, embedding_gradient, graph_slope;
      cbn [f00 f01 f10 f11 f20 f21]. f_equal; ring.
Qed.

(** The determinant of the exact metric, and [Kexact] in terms of it. *)
Lemma gexact_determinant (p : vec2) :
  Det2 (gexact p)
  = 1 + graph_slope (ux p) ^ 2 + graph_slope (uy p) ^ 2 /\
  1 <= Det2 (gexact p) /\
  Kexact p = (1 - ux p ^ 2) * (1 - uy p ^ 2) / Det2 (gexact p) ^ 2.
Proof.
  assert (Hdet : Det2 (gexact p)
                 = 1 + graph_slope (ux p) ^ 2 + graph_slope (uy p) ^ 2).
  { unfold gexact, Det2, graph_slope; cbn [g00 g01 g10 g11]. ring. }
  assert (Hd1 : 1 <= Det2 (gexact p)).
  { rewrite Hdet. pose proof (pow2_ge_0 (graph_slope (ux p))).
    pose proof (pow2_ge_0 (graph_slope (uy p))). lra. }
  split; [exact Hdet |]. split; [exact Hd1 |].
  unfold Kexact.
  replace (9 + ux p ^ 2 * (ux p ^ 2 - 3) ^ 2 + uy p ^ 2 * (uy p ^ 2 - 3) ^ 2)
    with (9 * Det2 (gexact p))
    by (rewrite Hdet; unfold graph_slope; field).
  field. lra.
Qed.

(** X10.  [gexact] is symmetric positive definite at every point, with
    determinant 1 + (x - x^3/3)^2 + (y - y^3/3)^2 >= 1 and v . gexact v >=
    |v|^2 for every vector v; the denominator of [Kexact] is 81 times the
    square of that determinant, so that Kexact = (1 - x^2) (1 - y^2) /
    Det(gexact)^2. *)
Theorem gexact_positive_definite (p : vec2) :
  g01 (gexact p) = g10 (gexact p) /\
  1 <= g00 (gexact p) /\
  Det2 (gexact p)
  = 1 + graph_slope (ux p) ^ 2 + graph_slope (uy p) ^ 2 /\
  1 <= Det2 (gexact p) /\
  (forall v, dot2 v v <= dot2 v (mulv2 (gexact p) v)) /\
  Kexact p = (1 - ux p ^ 2) * (1 - uy p ^ 2) / Det2 (gexact p) ^ 2.
Proof.
  destruct (gexact_determinant p) as (Hdet & Hd1 & HK).
  split; [reflexivity |]. split.
  { unfold gexact; cbn [g00].
    pose proof (pow2_ge_0 (ux p - 1 / 3 * ux p ^ 3)). lra. }
  split; [exact Hdet |]. split; [exact Hd1 |]. split; [| exact HK].
  intro v. unfold gexact, dot2, mulv2; cbn [g00 g01 g10 g11 ux uy].
  set (a := ux p - 1 / 3 * ux p ^ 3). set (b := uy p - 1 / 3 * uy p ^ 3).
  pose proof (pow2_ge_0 (a * ux v + b * uy v)) as Hsq.
  replace (ux v * ((1 + a ^ 2) * ux v + a * b * uy v)
           + uy v * (a * b * ux v + (1 + b ^ 2) * uy v))
    with (ux v * ux v + uy v * uy v + (a * ux v + b * uy v) ^ 2) by ring.
  lra.
Qed.

(** X11.  On the square [-1,1] x [-1,1] that [mapping] makes of the unit
    square, [Kexact] lies between 0 and 1, and it vanishes on the whole
    boundary of the square, where [GeneralizedGaussCurvature] imposes its
    Dirichlet condition. *)
Theorem Kexact_on_the_square (s t : R) :
  0 <= s <= 1 -> 0 <= t <= 1 ->
  0 <= Kexact (mapping s t) <= 1 /\
  (s = 0 \/ s = 1 \/ t = 0 \/ t = 1 -> Kexact (mapping s t) = 0).
Proof.
  intros Hs Ht.
  destruct (gexact_determinant (mapping s t)) as (_ & Hd1 & HK).
  rewrite HK. set (D := Det2 (gexact (mapping s t))) in *.
  unfold mapping; cbn [ux uy].
  assert (HD2 : 1 <= D ^ 2) by (simpl; nra).
  assert (Hx : 0 <= 1 - (-1 + 2 * s) ^ 2 <= 1).
  { pose proof (Rmult_le_pos s (1 - s)). pose proof (pow2_ge_0 (-1 + 2 * s)).
    split; [| lra].
    replace (1 - (-1 + 2 * s) ^ 2) with (4 * (s * (1 - s))) by ring. lra. }
  assert (Hy : 0 <= 1 - (-1 + 2 * t) ^ 2 <= 1).
  { pose proof (Rmult_le_pos t (1 - t)). pose proof (pow2_ge_0 (-1 + 2 * t)).
    split; [| lra].
    replace (1 - (-1 + 2 * t) ^ 2) with (4 * (t * (1 - t))) by ring. lra. }
  set (X := 1 - (-1 + 2 * s) ^ 2) in *. set (Y := 1 - (-1 + 2 * t) ^ 2) in *.
  split; [split |].
  - apply Rmult_le_pos; [nra |]. apply Rlt_le, Rinv_0_lt_compat. lra.
  - apply (Rmult_le_reg_r (D ^ 2)); [lra |].
    unfold Rdiv. rewrite Rmult_assoc, Rinv_l by lra. nra.
  - intros [-> | [-> | [-> | ->]]]; unfold X, Y, Rdiv; ring.
Qed.

Lemma Kexact_on_the_square_witness :
  0 <= 0 <= 1 /\ 0 <= 1 / 2 <= 1 /\
  0 <= Kexact (mapping 0 (1 / 2)) <= 1 /\ Kexact (mapping 0 (1 / 2)) = 0.
Proof.
  assert (Hs : 0 <= 0 <= 1) by lra.
  assert (Ht : 0 <= 1 / 2 <= 1) by lra.
  destruct (Kexact_on_the_square 0 (1 / 2) Hs Ht) as [Hb Hz].
  split; [exact Hs | split; [exact Ht | split; [exact Hb |]]].
  apply Hz. now left.
Defined.

Lemma graph_normal_component (a b w : R) :
  / norm (V3 (- a) (- b) 1) * w = w / sqrt (a * a + b * b + 1).
Proof.
  unfold norm, dot, Rdiv; cbn [vx vy vz]. rewrite Rmult_comm.
  f_equal. f_equal. f_equal. ring.
Qed.

Lemma graph_Weingarten_is_surface_gradient (p : vec2) :
  surface_gradient_at graph_normal_field
    (graph_normal_field (graph_theta p)) (graph_theta p) (graph_Weingarten p).
Proof.
  destruct p as [x y]. unfold graph_theta; cbn [ux uy].
  set (a := graph_slope x). set (b := graph_slope y).
  set (D := a * a + b * b + 1).
  assert (HD : 0 < D) by (unfold D; nra).
  set (rho := sqrt D).
  assert (Hrho : 0 < rho) by (now apply sqrt_lt_R0).
  pose proof (derivable_pt_lim_shift graph_slope x _ (derivable_graph_slope x))
    as HAx.
  pose proof (derivable_pt_lim_shift graph_slope y _ (derivable_graph_slope y))
    as HAy.
  assert (Hd : forall (comp : vec3 -> R) (j : nat) (A : R -> R)
                      (alpha c e m l : R),
            derivable_pt_lim A 0 alpha ->
            0 <= m -> A 0 * A 0 + m = D ->
            (forall s, comp (graph_normal_field
                               (shift (V3 x y (graph_f (V2 x y))) j s))
                       = (c + e * A s) / sqrt (A s * A s + m)) ->
            l = alpha * ((e * m - c * A 0) / (D * rho)) ->
            derivable_pt_lim
              (fun s => comp (graph_normal_field
                                (shift (V3 x y (graph_f (V2 x y))) j s))) 0 l).
  { intros comp j A alpha c e m l HA Hm HAD Hext ->.
    apply (derivable_pt_lim_ext
             (fun s => (c + e * A s) / sqrt (A s * A s + m))).
    - intro s. symmetry. apply Hext.
    - eapply derivable_pt_lim_value;
        [| apply (derivable_ratio_comp A 0 alpha c e m HA Hm)].
      + rewrite HAD. reflexivity.
      + rewrite HAD. exact HD. }
  assert (Hz : forall (comp : vec3 -> R),
            derivable_pt_lim
              (fun s => comp (graph_normal_field
                                (shift (V3 x y (graph_f (V2 x y))) 2 s))) 0 0).
  { intro comp.
    apply (derivable_pt_lim_ext
             (fct_cte (comp (graph_normal_field (V3 x y (graph_f (V2 x y))))))).
    - intro s. reflexivity.
    - apply derivable_pt_lim_const. }
  unfold surface_gradient_at.
  exists (V3 (- (1 - x ^ 2) * (b * b + 1) / (D * rho))
             ((1 - y ^ 2) * (a * b) / (D * rho)) 0),
         (V3 ((1 - x ^ 2) * (a * b) / (D * rho))
             (- (1 - y ^ 2) * (a * a + 1) / (D * rho)) 0),
         (V3 (- (1 - x ^ 2) * a / (D * rho))
             (- (1 - y ^ 2) * b / (D * rho)) 0).
  split; [| split; [| split]].
  - repeat split; cbn [vx vy vz]; [| | apply (Hz vx)].
    + apply (Hd vx 0%nat (fun s => graph_slope (x + s)) (1 - x ^ 2)
               0 (-1) (b * b + 1)); [exact HAx | nra | | | ].
      * rewrite Rplus_0_r. unfold D, a. ring.
      * intro s. unfold graph_normal_field, Normalize, vscale, shift;
          cbn [vx vy vz]. rewrite graph_normal_component. fold b.
        f_equal; [ring | f_equal; ring].
      * rewrite Rplus_0_r. fold a. field. split; lra.
    + apply (Hd vx 1%nat (fun s => graph_slope (y + s)) (1 - y ^ 2)
               (- a) 0 (a * a + 1)); [exact HAy | nra | | | ].
      * rewrite Rplus_0_r. unfold D, b. ring.
      * intro s. unfold graph_normal_field, Normalize, vscale, shift;
          cbn [vx vy vz]. rewrite graph_normal_component. fold a.
        f_equal; [ring | f_equal; ring].
      * rewrite Rplus_0_r. fold b. field. split; lra.
  - repeat split; cbn [vx vy vz]; [| | apply (Hz vy)].
    + apply (Hd vy 0%nat (fun s => graph_slope (x + s)) (1 - x ^ 2)
               (- b) 0 (b * b + 1)); [exact HAx | nra | | | ].
      * rewrite Rplus_0_r. unfold D, a. ring.
      * intro s. unfold graph_normal_field, Normalize, vscale, shift;
          cbn [vx vy vz]. rewrite graph_normal_component. fold b.
        f_equal; [ring | f_equal; ring].
      * rewrite Rplus_0_r. fold a. field. split; lra.
    + apply (Hd vy 1%nat (fun s => graph_slope (y + s)) (1 - y ^ 2)
               0 (-1) (a * a + 1)); [exact HAy | nra | | | ].
      * rewrite Rplus_0_r. unfold D, b. ring.
      * intro s. unfold graph_normal_field, Normalize, vscale, shift;
          cbn [vx vy vz]. rewrite graph_normal_component. fold a.
        f_equal; [ring | f_equal; ring].
      * rewrite Rplus_0_r. fold b. field. split; lra.
  - repeat split; cbn [vx vy vz]; [| | apply (Hz vz)].
    + apply (Hd vz 0%nat (fun s => graph_slope (x + s)) (1 - x ^ 2)
               1 0 (b * b + 1)); [exact HAx | nra | | | ].
      * rewrite Rplus_0_r. unfold D, a. ring.
      * intro s. unfold graph_normal_field, Normalize, vscale, shift;
          cbn [vx vy vz]. rewrite graph_normal_component. fold b.
        f_equal; [ring | f_equal; ring].
      * rewrite Rplus_0_r. fold a. field. split; lra.
    + apply (Hd vz 1%nat (fun s => graph_slope (y + s)) (1 - y ^ 2)
               1 0 (a * a + 1)); [exact HAy | nra | | | ].
      * rewrite Rplus_0_r. unfold D, b. ring.
      * intro s. unfold graph_normal_field, Normalize, vscale, shift;
          cbn [vx vy vz]. rewrite graph_normal_component. fold a.
        f_equal; [ring | f_equal; ring].
      * rewrite Rplus_0_r. fold b. field. split; lra.
  - reflexivity.
Qed.

Lemma graph_normal_form (p : vec2) :
  let a := graph_slope (ux p) in
  let b := graph_slope (uy p) in
  let rho := sqrt (a * a + b * b + 1) in
  graph_normal_field (graph_theta p) = V3 (- a / rho) (- b / rho) (1 / rho).
Proof.
  intros a b rho.
  unfold graph_normal_field, graph_theta, Normalize, vscale; cbn [vx vy vz].
  fold a b. now rewrite !graph_normal_component.
Qed.

(** [graph_normal_field] is the unit normal of the graph: it has length
    one and is orthogonal to both columns of the gradient of theta. *)
Lemma graph_normal_is_normal (p : vec2) :
  let nu := graph_normal_field (graph_theta p) in
  let F := embedding_gradient
             (M32 0 0 0 0 (graph_slope (ux p)) (graph_slope (uy p))) in
  dot nu nu = 1 /\ dot nu (column0 F) = 0 /\ dot nu (column1 F) = 0.
Proof.
  intros nu F. unfold nu. rewrite graph_normal_form.
  set (a := graph_slope (ux p)). set (b := graph_slope (uy p)).
  assert (HD : 0 < a * a + b * b + 1) by nra.
  assert (Hrho : 0 < sqrt (a * a + b * b + 1)) by (now apply sqrt_lt_R0).
  assert (Hrr : sqrt (a * a + b * b + 1) * sqrt (a * a + b * b + 1)
                = a * a + b * b + 1) by (apply sqrt_sqrt; lra).
  set (rho := sqrt (a * a + b * b + 1)) in *.
  unfold F, embedding_gradient, column0, column1, dot;
    cbn [vx vy vz f00 f01 f10 f11 f20 f21]. fold a b.
  repeat split; field_simplify_eq; try lra.
Qed.

Lemma graph_Gauss_curvature (p : vec2) :
  Det (madd (graph_Weingarten p)
         (OuterProduct (graph_normal_field (graph_theta p))
            (graph_normal_field (graph_theta p))))
  = Kexact p.
Proof.
  destruct (gexact_determinant p) as (Hdet & _ & HK).
  rewrite HK, Hdet. unfold graph_Weingarten. cbv zeta.
  rewrite graph_normal_form. cbv zeta.
  set (a := graph_slope (ux p)). set (b := graph_slope (uy p)).
  set (a' := 1 - ux p ^ 2). set (b' := 1 - uy p ^ 2).
  assert (HD : 0 < a * a + b * b + 1) by nra.
  assert (Hrho : 0 < sqrt (a * a + b * b + 1)) by (now apply sqrt_lt_R0).
  assert (Hrr : sqrt (a * a + b * b + 1) * sqrt (a * a + b * b + 1)
                = a * a + b * b + 1) by (apply sqrt_sqrt; lra).
  set (rho := sqrt (a * a + b * b + 1)) in *.
  assert (Hr0 : rho <> 0) by lra.
  assert (HD0 : a * a + b * b + 1 <> 0) by lra.
  assert (HD1 : 1 + a ^ 2 + b ^ 2 <> 0) by (simpl; lra).
  clearbody rho a b a' b'. clear - Hrr Hr0 HD0 HD1.
  unfold rows, mulv, projection, Det, madd, OuterProduct;
    cbn [vx vy vz m00 m01 m02 m10 m11 m12 m20 m21 m22].
  field_simplify_eq; [| repeat split; assumption].
  cbn [pow]. nsatz.
Qed.

(** X12.  [Kexact] is the Gauss curvature of the graph of f as
    [GaussCurvature] computes it: at the point of the graph above (x, y),
    with the upward unit normal of the graph and [Grad] returning the
    surface gradient of that normal, Det(Grad(nu) + nu nu^t) = Kexact(x, y). *)
Theorem Kexact_is_Gauss_curvature
  (Grad : (vec3 -> vec3) -> vec3 -> mat3) (p : vec2) :
  surface_gradient_at graph_normal_field
    (graph_normal_field (graph_theta p)) (graph_theta p)
    (Grad graph_normal_field (graph_theta p)) ->
  GaussCurvature graph_normal_field Grad (graph_theta p) = Kexact p.
Proof.
  intro Hgrad.
  assert (HG : Grad graph_normal_field (graph_theta p) = graph_Weingarten p).
  { apply (surface_gradient_unique _ _ _ _ _ Hgrad).
    apply graph_Weingarten_is_surface_gradient. }
  unfold GaussCurvature. rewrite HG. apply graph_Gauss_curvature.
Qed.

Lemma Kexact_is_Gauss_curvature_witness :
  GaussCurvature graph_normal_field graph_Grad (graph_theta graph_sample)
  = Kexact graph_sample.
Proof.
  apply (Kexact_is_Gauss_curvature graph_Grad graph_sample).
  exact (graph_Weingarten_is_surface_gradient graph_sample).
Defined.

End GraphFacts.

(** ** Angles in the metric *)

Module ConformalFacts.
Import Intrinsic Conformal IntrinsicFacts.

Lemma dot2_mulv2_mscale2 (c : R) (g : mat2) (a b : vec2) :
  dot2 (mulv2 (mscale2 c g) a) b = c * dot2 (mulv2 g a) b.
Proof.
  unfold dot2, mulv2, mscale2; cbn [g00 g01 g10 g11 ux uy]. ring.
Qed.

Lemma ratio_scaled (c N D1 D2 : R) :
  0 < c -> 0 < D1 -> 0 < D2 ->
  c * N / sqrt (c * D1) / sqrt (c * D2) = N / sqrt D1 / sqrt D2.
Proof.
  intros Hc H1 H2.
  rewrite !sqrt_mult by lra.
  assert (Hsc : sqrt c * sqrt c = c) by (apply sqrt_sqrt; lra).
  assert (0 < sqrt c) by (apply sqrt_lt_R0; lra).
  assert (0 < sqrt D1) by (apply sqrt_lt_R0; lra).
  assert (0 < sqrt D2) by (apply sqrt_lt_R0; lra).
  rewrite <- Hsc at 1. field. repeat split; lra.
Qed.

Section Angles.
Context {L : PlanarFE}.

(** X5.  Angles are conformally invariant: [angldeficit] does not change
    when the metric gh is multiplied by a positive function. *)
Theorem angldeficit_conformal (gh : Pt -> mat2) (c : Pt -> R) (q : Pt) :
  0 < c q ->
  0 < dot2 (mulv2 (gh q) (vt1 q)) (vt1 q) ->
  0 < dot2 (mulv2 (gh q) (vt2 q)) (vt2 q) ->
  angldeficit (fun p => mscale2 (c p) (gh p)) q = angldeficit gh q.
Proof.
  intros Hc H1 H2. unfold angldeficit.
  rewrite !dot2_mulv2_mscale2. now rewrite ratio_scaled.
Qed.

Lemma mulv2_Id2 (c : R) (a : vec2) :
  mulv2 (mscale2 c Id2) a = V2 (c * ux a) (c * uy a).
Proof.
  unfold mulv2, mscale2, Id2; cbn [g00 g01 g10 g11]. f_equal; ring.
Qed.

Lemma angldeficit_Euclidean (gh : Pt -> mat2) (c : R) (q : Pt) :
  0 < c -> gh q = mscale2 c Id2 ->
  0 < dot2 (vt1 q) (vt1 q) -> 0 < dot2 (vt2 q) (vt2 q) ->
  angldeficit gh q = 0.
Proof.
  intros Hc Hg H1 H2. unfold angldeficit. rewrite Hg, !mulv2_Id2.
  replace (dot2 (V2 (c * ux (vt1 q)) (c * uy (vt1 q))) (vt2 q))
    with (c * dot2 (vt1 q) (vt2 q)) by (unfold dot2; cbn [ux uy]; ring).
  replace (dot2 (V2 (c * ux (vt1 q)) (c * uy (vt1 q))) (vt1 q))
    with (c * dot2 (vt1 q) (vt1 q)) by (unfold dot2; cbn [ux uy]; ring).
  replace (dot2 (V2 (c * ux (vt2 q)) (c * uy (vt2 q))) (vt2 q))
    with (c * dot2 (vt2 q) (vt2 q)) by (unfold dot2; cbn [ux uy]; ring).
  rewrite ratio_scaled by assumption. ring.
Qed.

(** X6.  A Euclidean metric on a mesh with straight edges has no generalized
    curvature: where the metric is a positive multiple of the identity at
    the vertex points (with nonzero edge vectors there), the edges are
    straight and the library's Christoffel symbols and Riemann tensor of the
    metric vanish, every source of [GeneralizedGaussCurvature] vanishes and
    the coefficient vector it returns is zero. *)
Theorem flat_metric_no_curvature (mesh : Mesh) (gh : Pt -> mat2)
  (lift_order : nat) :
  (forall q, In q (dx_BBND mesh) ->
     (exists c, 0 < c /\ gh q = mscale2 c Id2) /\
     0 < dot2 (vt1 q) (vt1 q) /\ 0 < dot2 (vt2 q) (vt2 q)) ->
  (forall wq, In wq (dx_element_boundary mesh lift_order) ->
     EdgeCurvature2 (snd wq) = V2 0 0 /\
     forall i j k, Operator_christoffel2 gh (snd wq) i j k = 0) ->
  (forall wq, In wq (dx mesh lift_order) ->
     Operator_Riemann gh (snd wq) 0%nat 1%nat 1%nat 0%nat = 0) ->
  (forall v, sources mesh gh lift_order v = 0) /\
  (forall i, GeneralizedGaussCurvature mesh gh lift_order i = 0).
Proof.
  intros Hv He Hr.
  assert (Hs : forall v, sources mesh gh lift_order v = 0).
  { intro v. unfold sources.
    rewrite sum_list_zero, !integrate_zero; [ring | | |].
    - intros wq Hwq. unfold elementcurv. rewrite (Hr wq Hwq). ring.
    - intros wq Hwq. destruct (He wq Hwq) as [Hc Hg].
      unfold geodesicurv. rewrite Hc.
      unfold contract3. cbn [sum_range]. rewrite !Hg.
      unfold dot2; cbn [ux uy]. ring.
    - intros q Hq. destruct (Hv q Hq) as ((c & Hc & Hg) & H1 & H2).
      rewrite (angldeficit_Euclidean gh c q Hc Hg H1 H2). ring. }
  split; [exact Hs |].
  intro i. unfold GeneralizedGaussCurvature, mat_vec.
  apply sum_range_zero. intros j _.
  unfold assembled_sources. rewrite Hs. ring.
Qed.

End Angles.

Lemma angldeficit_conformal_witness :
  angldeficit (L := star_FE) (fun p => mscale2 2 (star_metric p))
    (0%nat, 0%nat, 0%nat)
  = angldeficit (L := star_FE) star_metric (0%nat, 0%nat, 0%nat).
Proof.
  apply (angldeficit_conformal (L := star_FE) star_metric (fun _ => 2)
           (0%nat, 0%nat, 0%nat)).
  - lra.
  - unfold vt1, dot2, mulv2; cbn. lra.
  - unfold vt2, dot2, mulv2; cbn. lra.
Defined.

Lemma star_tangents_nonzero (q : StarPt) :
  In q (star_points 0) ->
  0 < dot2 (vt1 (L := star_FE) q) (vt1 (L := star_FE) q) /\
  0 < dot2 (vt2 (L := star_FE) q) (vt2 (L := star_FE) q).
Proof.
  intro Hq. unfold vt1, vt2. cbn [VertexTangentialVectors2 star_FE].
  each_star_point Hq
    ltac:(unfold star_corner_tangents, star_loc, star_tri, dot2, vsub2;
          cbn; lra).
Qed.

Lemma flat_metric_no_curvature_witness :
  (forall v, sources (L := star_FE) tt (fun _ => Id2) 1%nat v = 0) /\
  (forall i,
     GeneralizedGaussCurvature (L := star_FE) tt (fun _ => Id2) 1%nat i = 0).
Proof.
  apply (flat_metric_no_curvature (L := star_FE) tt (fun _ => Id2) 1%nat).
  - intros q Hq. split; [| now apply star_tangents_nonzero].
    exists 1. split; [lra |]. unfold mscale2, Id2; cbn. f_equal; ring.
  - intros wq _. split; reflexivity.
  - intros wq _. reflexivity.
Defined.

Lemma metric_Cauchy_Schwarz (g : mat2) (a b : vec2) :
  g01 g = g10 g -> 0 <= Det2 g ->
  dot2 (mulv2 g a) b * dot2 (mulv2 g a) b
  <= dot2 (mulv2 g a) a * dot2 (mulv2 g b) b.
Proof.
  intros Hsym Hdet. destruct g as [p q q' r], a as [a1 a2], b as [b1 b2].
  unfold Det2, dot2, mulv2 in *; cbn [g00 g01 g10 g11 ux uy] in *. subst q'.
  set (X := a1 * b2 - a2 * b1).
  assert (Hid :
    ((p * a1 + q * a2) * a1 + (q * a1 + r * a2) * a2)
    * ((p * b1 + q * b2) * b1 + (q * b1 + r * b2) * b2)
    - ((p * a1 + q * a2) * b1 + (q * a1 + r * a2) * b2)
      * ((p * a1 + q * a2) * b1 + (q * a1 + r * a2) * b2)
    = (p * r - q * q) * (X * X)) by (unfold X; ring).
  assert (HX : 0 <= X * X) by nra.
  pose proof (Rmult_le_pos _ _ Hdet HX). lra.
Qed.

Lemma flat_Cauchy_Schwarz (a b : vec2) :
  dot2 a b * dot2 a b <= dot2 a a * dot2 b b.
Proof.
  destruct a as [a1 a2], b as [b1 b2]. unfold dot2; cbn [ux uy].
  set (X := a1 * b2 - a2 * b1).
  assert (Hid : (a1 * a1 + a2 * a2) * (b1 * b1 + b2 * b2)
                - (a1 * b1 + a2 * b2) * (a1 * b1 + a2 * b2) = X * X)
    by (unfold X; ring).
  assert (HX : 0 <= X * X) by nra. lra.
Qed.

Section Range.
Context {L : PlanarFE}.

(** X4.  For a symmetric metric with nonnegative determinant that is
    positive on the two nonzero edge vectors vt1 and vt2, both arguments of
    acos in [angldeficit] lie in [-1, 1]: the two terms are the angle of the
    parameter domain and the angle in the metric, each in [0, pi] and each
    with the cosine that the code writes, and the deficit lies in [-pi, pi]. *)
Theorem angldeficit_angles (gh : Pt -> mat2) (q : Pt) :
  g01 (gh q) = g10 (gh q) -> 0 <= Det2 (gh q) ->
  0 < dot2 (vt1 q) (vt1 q) -> 0 < dot2 (vt2 q) (vt2 q) ->
  0 < dot2 (mulv2 (gh q) (vt1 q)) (vt1 q) ->
  0 < dot2 (mulv2 (gh q) (vt2 q)) (vt2 q) ->
  angldeficit gh q = flat_angle q - metric_angle gh q /\
  cos (flat_angle q)
  = dot2 (vt1 q) (vt2 q)
    / sqrt (dot2 (vt1 q) (vt1 q)) / sqrt (dot2 (vt2 q) (vt2 q)) /\
  cos (metric_angle gh q)
  = dot2 (mulv2 (gh q) (vt1 q)) (vt2 q)
    / sqrt (dot2 (mulv2 (gh q) (vt1 q)) (vt1 q))
    / sqrt (dot2 (mulv2 (gh q) (vt2 q)) (vt2 q)) /\
  0 <= flat_angle q <= PI /\ 0 <= metric_angle gh q <= PI /\
  - PI <= angldeficit gh q <= PI.
Proof.
  intros Hsym Hdet H1 H2 Hg1 Hg2.
  pose proof (ratio_in_range _ _ _ H1 H2 (flat_Cauchy_Schwarz (vt1 q) (vt2 q)))
    as Hflat.
  pose proof (ratio_in_range _ _ _ Hg1 Hg2
                (metric_Cauchy_Schwarz (gh q) (vt1 q) (vt2 q) Hsym Hdet))
    as Hmet.
  pose proof (acos_bound (dot2 (vt1 q) (vt2 q)
                          / sqrt (dot2 (vt1 q) (vt1 q))
                          / sqrt (dot2 (vt2 q) (vt2 q)))) as Hb1.
  pose proof (acos_bound (dot2 (mulv2 (gh q) (vt1 q)) (vt2 q)
                          / sqrt (dot2 (mulv2 (gh q) (vt1 q)) (vt1 q))
                          / sqrt (dot2 (mulv2 (gh q) (vt2 q)) (vt2 q))))
    as Hb2.
  split; [reflexivity |].
  split; [unfold flat_angle; now apply cos_acos |].
  split; [unfold metric_angle; now apply cos_acos |].
  split; [exact Hb1 |]. split; [exact Hb2 |].
  unfold angldeficit. lra.
Qed.

End Range.

Lemma angldeficit_angles_witness :
  cos (metric_angle (L := star_FE) star_metric (0%nat, 0%nat, 0%nat))
  = dot2 (mulv2 (star_metric (0%nat, 0%nat, 0%nat))
            (vt1 (L := star_FE) (0%nat, 0%nat, 0%nat)))
         (vt2 (L := star_FE) (0%nat, 0%nat, 0%nat))
    / sqrt (dot2 (mulv2 (star_metric (0%nat, 0%nat, 0%nat))
                    (vt1 (L := star_FE) (0%nat, 0%nat, 0%nat)))
                 (vt1 (L := star_FE) (0%nat, 0%nat, 0%nat)))
    / sqrt (dot2 (mulv2 (star_metric (0%nat, 0%nat, 0%nat))
                    (vt2 (L := star_FE) (0%nat, 0%nat, 0%nat)))
                 (vt2 (L := star_FE) (0%nat, 0%nat, 0%nat))) /\
  - PI <= angldeficit (L := star_FE) star_metric (0%nat, 0%nat, 0%nat) <= PI.
Proof.
  destruct (angldeficit_angles (L := star_FE) star_metric
              (0%nat, 0%nat, 0%nat)) as (_ & _ & Hc & _ & _ & Hd).
  - reflexivity.
  - unfold Det2; cbn. lra.
  - unfold vt1, dot2; cbn. lra.
  - unfold vt2, dot2; cbn. lra.
  - unfold vt1, dot2, mulv2; cbn. lra.
  - unfold vt2, dot2, mulv2; cbn. lra.
  - split; [exact Hc | exact Hd].
Defined.

End ConformalFacts.
